(** * woj::bitset and woj::dynamic_bitset (include/woj/bitset.hpp)

    A shallow embedding of the block arithmetic of the two containers and
    of the operations built on it.

    Conventions.
    - A block of [BlockType] (an unsigned integer of [W] bits) is a [Z];
      every store into a block truncates with [wrap W], as the conversion
      back to [BlockType] does in the source.
    - [size_type] is a 64-bit unsigned integer: a [Z], truncated with
      [wrap 64] where the source can leave the range.
    - The block array is a [list Z]; the dynamic container's pointer is an
      [option (list Z)], [None] being [nullptr].
    - An operation whose behaviour the language leaves undefined at an
      input (an access outside the array, a shift by a negative count)
      yields [None] there.
    - [new BlockType[n]] always succeeds and returns an array of
      indeterminate content, which the operations receive as [junk]. *)

From Stdlib Require Import ZArith Lia Bool List Ascii.
From stdpp Require Import base option list.

Local Open Scope Z_scope.

(** ** Machine arithmetic on blocks *)

Module Block.

(** Conversion of an integer to a [w]-bit unsigned type. *)
Definition wrap (w z : Z) : Z := z mod 2 ^ w.

(** [(std::numeric_limits<BlockType>::max)()]. *)
Definition max (w : Z) : Z := 2 ^ w - 1.

(** [BlockType{1} << k].  A block narrower than [int] is promoted to the
    32-bit [int] first, so the count must be below [max w 32]; a negative
    count, or one that reaches the promoted width, is undefined.  In
    [int], [1 << 31] is the most negative value. *)
Definition one_shl (w k : Z) : option Z :=
  if (0 <=? k) && (k <? Z.max w 32)
  then Some (if (w <? 32) && (k =? 31) then - 2 ^ 31 else Z.shiftl 1 k)
  else None.

(** Conversion of a block expression to [bool]. *)
Definition to_bool (z : Z) : bool := negb (z =? 0).

(** [b | m], [b & ~m] and [b ^ m] stored back into a block. *)
Definition or_mask (w b m : Z) : Z := wrap w (Z.lor b m).
Definition clear_mask (w b m : Z) : Z := wrap w (Z.land b (Z.lnot m)).
Definition xor_mask (w b m : Z) : Z := wrap w (Z.lxor b m).

(** [b << k] and [b >> k] on a block, with the same rule for the count;
    the caller stores the result back with [wrap]. *)
Definition shl (w b k : Z) : option Z :=
  if (0 <=? k) && (k <? Z.max w 32) then Some (Z.shiftl b k) else None.
Definition shr (w b k : Z) : option Z :=
  if (0 <=? k) && (k <? Z.max w 32) then Some (Z.shiftr b k) else None.

(** A block is well formed when it is a value of the [w]-bit type. *)
Definition in_range (w b : Z) : Prop := 0 <= b < 2 ^ w.

(** The widths of the block types the containers are instantiated with:
    [uint8_t], [uint16_t], [uint32_t], [size_t] and [unsigned __int128]. *)
Definition widths : list Z := [8; 16; 32; 64; 128].
Definition width_ok (w : Z) : Prop := In w widths.

End Block.

(** ** Control flow: counted loops, with and without an early [return] *)

Inductive flow (S R : Type) : Type :=
| Go (s : S)      (* fall through to the next iteration *)
| Ret (r : R).    (* [return] from the enclosing function *)
Arguments Go {S R} s.
Arguments Ret {S R} r.

(** [for (i = i0; <n more iterations>; ++i) body], [body] may return. *)
Fixpoint for_loop {S R : Type} (n : nat) (i : Z)
    (body : Z -> S -> option (flow S R)) (s : S) : option (flow S R) :=
  match n with
  | O => Some (Go s)
  | S n' =>
      match body i s with
      | Some (Go s') => for_loop n' (i + 1) body s'
      | other => other
      end
  end.

(** [for (i = a; i < b; ++i) body]. *)
Definition for_range {S R : Type} (a b : Z)
    (body : Z -> S -> option (flow S R)) (s : S) : option (flow S R) :=
  for_loop (Z.to_nat (b - a)) a body s.

(** The same loop for a body that never returns. *)
Fixpoint iter_loop {S : Type} (n : nat) (i : Z)
    (body : Z -> S -> option S) (s : S) : option S :=
  match n with
  | O => Some s
  | S n' => s' ← body i s; iter_loop n' (i + 1) body s'
  end.

Definition iter_range {S : Type} (a b : Z)
    (body : Z -> S -> option S) (s : S) : option S :=
  iter_loop (Z.to_nat (b - a)) a body s.

(** ** Arrays of blocks *)

Module Arr.

(** [p[k]] as an rvalue. *)
Definition get {A : Type} (d : list A) (k : Z) : option A :=
  if k <? 0 then None else d !! Z.to_nat k.

(** [p[k] = v]. *)
Definition put {A : Type} (d : list A) (k : Z) (v : A) : option (list A) :=
  if (0 <=? k) && (k <? Z.of_nat (length d))
  then Some (<[Z.to_nat k := v]> d) else None.

(** [p[k] = f(p[k])], the read-modify-write of the compound assignments. *)
Definition upd (d : list Z) (k : Z) (f : Z -> Z) : option (list Z) :=
  b ← get d k; put d k (f b).

(** [std::copy(src, src + n, dst)]. *)
Definition copy (src : list Z) (n : Z) (dst : list Z) : option (list Z) :=
  if (0 <=? n) && (n <=? Z.of_nat (length src)) && (n <=? Z.of_nat (length dst))
  then Some (take (Z.to_nat n) src ++ drop (Z.to_nat n) dst) else None.

(** [sizeof(BlockType)] for a block of [w] bits. *)
Definition sizeof (w : Z) : Z := w / 8.

(** The value of [n] consecutive bytes that all hold [c]. *)
Fixpoint bytes_rep (n : nat) (c : Z) : Z :=
  match n with
  | O => 0
  | S n' => Z.lor c (Z.shiftl (bytes_rep n' c) 8)
  end.

(** [::memset(p + off, c, n)] on an array of [w]-bit blocks: [n] bytes
    starting at block [off] receive [(unsigned char)c].  Whole blocks
    are overwritten; when [n] is not a multiple of the block's size the
    first [n mod sizeof] bytes of the next block are overwritten too,
    which on a little-endian target are its low-order bytes (the
    statements below that depend on this use one-byte blocks, where the
    byte order does not matter).  Writing past the end of the array is
    undefined. *)
Definition memset (w : Z) (d : list Z) (off c n : Z) : option (list Z) :=
  let sz := sizeof w in
  let byte := Block.wrap 8 c in
  let q := n / sz in
  let r := n mod sz in
  if (0 <=? off) && (0 <=? n) && (off * sz + n <=? Z.of_nat (length d) * sz)
  then
    let d1 := take (Z.to_nat off) d
              ++ replicate (Z.to_nat q) (bytes_rep (Z.to_nat sz) byte)
              ++ drop (Z.to_nat (off + q)) d in
    if r =? 0 then Some d1
    else upd d1 (off + q)
           (fun b => Z.lor (Z.land b (Z.lnot (Z.ones (8 * r))))
                           (bytes_rep (Z.to_nat r) byte))
  else None.

End Arr.

(** ** The fixed-size container: [bitset<BlockType, Size>] *)

Module bitset.
Section Fixed.

(** Template parameters: the width of [BlockType] in bits and [Size]. *)
Variables (W Size : Z).

Definition m_block_size : Z := W.
Definition m_full_storage_size : Z := Size / m_block_size.
Definition m_partial_size : Z := Size mod m_block_size.
Definition m_storage_size : Z :=
  Size / m_block_size + (if m_partial_size =? 0 then 0 else 1).

(** [bitset()]: [m_data{ 0 }]. *)
Definition zero_data : list Z := replicate (Z.to_nat m_storage_size) 0.

(** [test(index)]. *)
Definition test (m_data : list Z) (index : Z) : option bool :=
  b ← Arr.get m_data (index / m_block_size);
  m ← Block.one_shl W (index mod m_block_size);
  Some (Block.to_bool (Z.land b m)).

(** [set(index)]. *)
Definition set (m_data : list Z) (index : Z) : option (list Z) :=
  m ← Block.one_shl W (index mod m_block_size);
  Arr.upd m_data (index / m_block_size) (fun b => Block.or_mask W b m).

(** [clear(index)]. *)
Definition clear (m_data : list Z) (index : Z) : option (list Z) :=
  m ← Block.one_shl W (index mod m_block_size);
  Arr.upd m_data (index / m_block_size) (fun b => Block.clear_mask W b m).

(** [set(index, value)]. *)
Definition set_value (m_data : list Z) (index : Z) (value : bool)
  : option (list Z) :=
  if value
  then m ← Block.one_shl W (index mod m_block_size);
       Arr.upd m_data (index / m_block_size) (fun b => Block.or_mask W b m)
  else m ← Block.one_shl W (index mod m_block_size);
       Arr.upd m_data (index / m_block_size) (fun b => Block.clear_mask W b m).

(** [flip(index)]. *)
Definition flip (m_data : list Z) (index : Z) : option (list Z) :=
  m ← Block.one_shl W (index mod m_block_size);
  Arr.upd m_data (index / m_block_size) (fun b => Block.xor_mask W b m).

(** [set()], fill all.  [ce] is [std::is_constant_evaluated()]: the
    compile-time branch assigns [static_cast<BlockType>(-1)] to every
    block, the run-time branch is one [memset]. *)
Definition set_all (ce : bool) (m_data : list Z) : option (list Z) :=
  if ce
  then iter_range 0 m_storage_size
         (fun i d => Arr.put d i (Block.wrap W (-1))) m_data
  else Arr.memset W m_data 0 255
         (Block.wrap 64 (m_storage_size * Arr.sizeof W)).

(** [clear()], reset all. *)
Definition clear_all (ce : bool) (m_data : list Z) : option (list Z) :=
  if ce
  then iter_range 0 m_storage_size (fun i d => Arr.put d i 0) m_data
  else Arr.memset W m_data 0 0
         (Block.wrap 64 (m_storage_size * Arr.sizeof W)).

(** The inner loop of [count()]:
    [while (j) { j &= j - 1; ++count; }]. *)
Fixpoint count_block (fuel : nat) (j count : Z) : option Z :=
  if j =? 0 then Some count
  else match fuel with
       | O => None
       | S fuel' =>
           count_block fuel' (Block.wrap W (Z.land j (j - 1)))
                       (Block.wrap 64 (count + 1))
       end.

(** [count()].  A block has [W] bits, so [W] rounds of the inner loop
    always suffice (lemma [count_block_total]). *)
Definition count (m_data : list Z) : option Z :=
  iter_range 0 m_storage_size
    (fun i count => j ← Arr.get m_data i; count_block (Z.to_nat W) j count)
    0.

(** [set_range(begin, end)]. *)
Definition set_range (ce : bool) (m_data : list Z) (begin end_ : Z)
  : option (list Z) :=
  let lead := negb (begin mod m_block_size =? 0) in
  let to_add := if lead then 1 else 0 in
  d1 ← (if lead
        then
          let end_bit :=
            if begin / m_block_size =? end_ / m_block_size
            then end_ mod m_block_size else m_block_size in
          iter_range (begin mod m_block_size) end_bit
            (fun i d => m ← Block.one_shl W i;
                        Arr.upd d (begin / m_block_size)
                                (fun b => Block.or_mask W b m))
            m_data
        else Some m_data);
  let trail := negb (end_ mod m_block_size =? 0)
               && negb (begin / m_block_size =? end_ / m_block_size) in
  let to_sub := if trail then 1 else 0 in
  d2 ← (if trail
        then
          iter_range 0 (end_ mod m_block_size)
            (fun i d => m ← Block.one_shl W i;
                        Arr.upd d (end_ / m_block_size)
                                (fun b => Block.or_mask W b m))
            d1
        else Some d1);
  if ce
  then iter_range (begin / m_block_size + to_add) (end_ / m_block_size)
         (fun i d => Arr.put d i (Block.max W)) d2
  else Arr.memset W d2 (begin / m_block_size + to_add) 255
         (Block.wrap 64
            (Block.wrap 64 (end_ - begin) / m_block_size * Arr.sizeof W
             - to_sub)).

(** [const BlockType mask = (1 << m_partial_size) - 1]: computed in
    [int], so defined only while [(1 << p) - 1] does not overflow. *)
Definition partial_mask (p : Z) : option Z :=
  if (0 <=? p) && (p <? 31)
  then Some (Block.wrap W (Z.shiftl 1 p - 1)) else None.

(** [operator==(const bitset&)]. *)
Definition operator_eq (m_data other : list Z) : option bool :=
  r ← for_range 0 m_full_storage_size
        (fun i (_ : unit) =>
           x ← Arr.get m_data i; y ← Arr.get other i;
           Some (if negb (x =? y) then Ret false else Go tt))
        tt;
  match r with
  | Ret v => Some v
  | Go _ =>
      if negb (m_partial_size =? 0)
      then mask ← partial_mask m_partial_size;
           x ← Arr.get m_data (m_storage_size - 1);
           y ← Arr.get other (m_storage_size - 1);
           Some (if negb (Z.land x mask =? Z.land y mask)
                 then false else true)
      else Some true
  end.

(** [operator!=(const bitset&)]. *)
Definition operator_ne (m_data other : list Z) : option bool :=
  r ← for_range 0 m_full_storage_size
        (fun i (_ : unit) =>
           x ← Arr.get m_data i; y ← Arr.get other i;
           Some (if x =? y then Ret false else Go tt))
        tt;
  match r with
  | Ret v => Some v
  | Go _ =>
      if negb (m_partial_size =? 0)
      then mask ← partial_mask m_partial_size;
           x ← Arr.get m_data (m_storage_size - 1);
           y ← Arr.get other (m_storage_size - 1);
           Some (if Z.land x mask =? Z.land y mask
                 then false else true)
      else Some true
  end.

(** One round of the loop shared by [operator<<] and [operator<<=]:
    block [i] of [dst] is computed from the blocks of [src]. *)
Definition shl_step (block_shift bit_shift : Z)
    (src : list Z) (i : Z) (dst : list Z) : option (list Z) :=
  v ← (if block_shift <=? i
       then b ← Arr.get src (i - block_shift); Block.shl W b bit_shift
       else Some 0);
  dst1 ← Arr.put dst i (Block.wrap W v);
  if (0 <? bit_shift) && (block_shift + 1 <=? i)
  then b ← Arr.get src (i - block_shift - 1);
       c ← Block.shr W b (m_block_size - bit_shift);
       Arr.upd dst1 i (fun r => Block.wrap W (Z.lor r c))
  else Some dst1.

(** [operator<<(shift)]: reads [m_data], writes a fresh [result]. *)
Definition operator_shl (m_data : list Z) (shift : Z) : option (list Z) :=
  let block_shift := shift / m_block_size in
  let bit_shift := shift mod m_block_size in
  iter_range 0 m_storage_size
    (fun i result => shl_step block_shift bit_shift m_data i result)
    zero_data.

(** [operator<<=(shift)]: reads and writes [m_data] itself, so a round
    sees the blocks the earlier rounds have already overwritten. *)
Definition operator_shl_assign (m_data : list Z) (shift : Z)
  : option (list Z) :=
  let block_shift := shift / m_block_size in
  let bit_shift := shift mod m_block_size in
  iter_range 0 m_storage_size
    (fun i d => shl_step block_shift bit_shift d i d)
    m_data.

(** Leaving a function of return type [void]: the state is what counts. *)
Definition leave {S : Type} (r : flow S S) : S :=
  match r with Go s => s | Ret s => s end.

(** One round of the inner loop of [_from_other] when the destination
    block is the wider one: source block [i * diff + j] is or-ed into
    destination block [i] at bit offset [j * Wo]; the function returns
    when the source is exhausted. *)
Definition widen_round (Wo other_storage_size diff : Z) (other : list Z)
    (i j : Z) (d : list Z) : option (flow (list Z) (list Z)) :=
  if other_storage_size <=? i * diff + j
  then Some (Ret d)
  else x ← Arr.get other (i * diff + j);
       v ← Block.shl W (Block.wrap W x) (j * Wo);
       Go <$> Arr.upd d i (fun b => Block.wrap W (Z.lor b v)).

(** One round of the inner loop when the destination block is the
    narrower one. *)
Definition narrow_round (Wo diff : Z) (other : list Z)
    (i j : Z) (d : list Z) : option (flow (list Z) (list Z)) :=
  if m_storage_size <=? i * diff + j
  then Some (Ret d)
  else x ← Arr.get other i;
       v ← Block.shr Wo x (j mod diff * m_block_size);
       Go <$> Arr.put d (i * diff + j) (Block.wrap W v).

(** [_from_other(const bitset<OtherBlockType, OtherSize>&)], for a
    source of [Wo]-bit blocks. *)
Definition _from_other (Wo OtherSize : Z) (other m_data : list Z)
  : option (list Z) :=
  let other_storage_size :=
    OtherSize / Wo + (if OtherSize mod Wo =? 0 then 0 else 1) in
  if Arr.sizeof Wo <? Arr.sizeof W
  then
    let diff := Block.wrap 16 (Arr.sizeof W / Arr.sizeof Wo) in
    leave <$>
      for_range 0 m_storage_size
        (fun i d =>
           for_range 0 diff
             (fun j d => widen_round Wo other_storage_size diff other i j d)
             d)
        m_data
  else
    let diff := Block.wrap 16 (Arr.sizeof Wo / Arr.sizeof W) in
    leave <$>
      for_range 0 other_storage_size
        (fun i d =>
           for_range 0 diff
             (fun j d => narrow_round Wo diff other i j d)
             d)
        m_data.

(** [bitset(const bitset<OtherBlockType, OtherSize>&)]. *)
Definition of_other (Wo OtherSize : Z) (other : list Z) : option (list Z) :=
  _from_other Wo OtherSize other zero_data.

(** [_from_string(str, set_chr)]. *)
Definition _from_string (str : list ascii) (set_chr : ascii)
    (m_data : list Z) : option (list Z) :=
  leave <$>
    for_range 0 m_storage_size
      (fun i d =>
         for_range 0 m_block_size
           (fun j d =>
              if Z.of_nat (length str) <=? i * m_block_size + j
              then Some (Ret d)
              else c ← Arr.get str (i * m_block_size + j);
                   m ← (if Ascii.eqb c set_chr
                        then Block.one_shl W j else Some 0);
                   Go <$> Arr.upd d i (fun b => Block.or_mask W b m))
           d)
      m_data.

(** [bitset(const std::basic_string<Elem>&, set_chr)]. *)
Definition of_string (str : list ascii) (set_chr : ascii)
  : option (list Z) :=
  _from_string str set_chr zero_data.

(** [to_string(set_chr, rst_chr)]. *)
Definition to_string (m_data : list Z) (set_chr rst_chr : ascii)
  : option (list ascii) :=
  let result := replicate (Z.to_nat (Size + 1)) zero in
  r1 ← iter_range 0
         (m_storage_size - (if m_partial_size =? 0 then 0 else 1))
         (fun i r =>
            iter_range 0 m_block_size
              (fun j r =>
                 b ← Arr.get m_data i;
                 m ← Block.one_shl W j;
                 Arr.put r (i * m_block_size + j)
                   (if Block.to_bool (Z.land b m) then set_chr else rst_chr))
              r)
         result;
  if negb (m_storage_size =? 0)
  then iter_range 0 m_partial_size
         (fun i r =>
            b ← Arr.get m_data i;
            m ← Block.one_shl W i;
            Arr.put r ((m_storage_size - 1) * m_block_size + i)
              (if Block.to_bool (Z.land b m) then set_chr else rst_chr))
         r1
  else Some r1.

(** [fill(value)].  [memset] receives [value ? max : 0] converted to
    [int] and stores its low byte. *)
Definition fill (ce : bool) (m_data : list Z) (value : bool)
  : option (list Z) :=
  if ce
  then iter_range 0 m_storage_size
         (fun i d => Arr.put d i (if value then Block.max W else 0)) m_data
  else Arr.memset W m_data 0 (if value then Block.max W else 0)
         (Block.wrap 64 (m_storage_size * Arr.sizeof W)).

(** The bit-by-bit loops of the range functions over block [q]:
    [for (i = a; i < b; ++i) m_data[q] |= BlockType{1} << i], and the
    same with [&= ~] and [^=]. *)
Definition set_bits (m_data : list Z) (q a b : Z) : option (list Z) :=
  iter_range a b
    (fun i d => m ← Block.one_shl W i;
                Arr.upd d q (fun x => Block.or_mask W x m))
    m_data.

Definition clear_bits (m_data : list Z) (q a b : Z) : option (list Z) :=
  iter_range a b
    (fun i d => m ← Block.one_shl W i;
                Arr.upd d q (fun x => Block.clear_mask W x m))
    m_data.

Definition flip_bits (m_data : list Z) (q a b : Z) : option (list Z) :=
  iter_range a b
    (fun i d => m ← Block.one_shl W i;
                Arr.upd d q (fun x => Block.xor_mask W x m))
    m_data.

(** [fill_range(end, value)].  The compile-time loop runs up to
    [end / m_block_size * sizeof(BlockType)], the byte count of the
    run-time [memset], as a block index. *)
Definition fill_range_end (ce : bool) (m_data : list Z) (end_ : Z)
    (value : bool) : option (list Z) :=
  d1 ← (if ce
        then iter_range 0 (end_ / m_block_size * Arr.sizeof W)
               (fun i d => Arr.put d i (if value then Block.max W else 0))
               m_data
        else Arr.memset W m_data 0 (if value then 255 else 0)
               (end_ / m_block_size * Arr.sizeof W));
  if negb (end_ mod m_block_size =? 0)
  then if value
       then set_bits d1 (end_ / m_block_size) 0 (end_ mod m_block_size)
       else clear_bits d1 (end_ / m_block_size) 0 (end_ mod m_block_size)
  else Some d1.

(** [set_range(end)]. *)
Definition set_range_end (ce : bool) (m_data : list Z) (end_ : Z)
  : option (list Z) :=
  d1 ← (if ce
        then iter_range 0 (end_ / m_block_size * Arr.sizeof W)
               (fun i d => Arr.put d i (Block.max W)) m_data
        else Arr.memset W m_data 0 255
               (end_ / m_block_size * Arr.sizeof W));
  if negb (end_ mod m_block_size =? 0)
  then set_bits d1 (end_ / m_block_size) 0 (end_ mod m_block_size)
  else Some d1.

(** [clear_range(end)]. *)
Definition clear_range_end (ce : bool) (m_data : list Z) (end_ : Z)
  : option (list Z) :=
  d1 ← (if ce
        then iter_range 0 (end_ / m_block_size * Arr.sizeof W)
               (fun i d => Arr.put d i 0) m_data
        else Arr.memset W m_data 0 0
               (end_ / m_block_size * Arr.sizeof W));
  if negb (end_ mod m_block_size =? 0)
  then clear_bits d1 (end_ / m_block_size) 0 (end_ mod m_block_size)
  else Some d1.

(** [clear_range(begin, end)]. *)
Definition clear_range (ce : bool) (m_data : list Z) (begin end_ : Z)
  : option (list Z) :=
  let lead := negb (begin mod m_block_size =? 0) in
  let to_add := if lead then 1 else 0 in
  d1 ← (if lead
        then
          let end_bit :=
            if begin / m_block_size =? end_ / m_block_size
            then end_ mod m_block_size else m_block_size in
          clear_bits m_data (begin / m_block_size)
            (begin mod m_block_size) end_bit
        else Some m_data);
  let trail := negb (end_ mod m_block_size =? 0)
               && negb (begin / m_block_size =? end_ / m_block_size) in
  let to_sub := if trail then 1 else 0 in
  d2 ← (if trail
        then clear_bits d1 (end_ / m_block_size) 0 (end_ mod m_block_size)
        else Some d1);
  if ce
  then iter_range (begin / m_block_size + to_add) (end_ / m_block_size)
         (fun i d => Arr.put d i 0) d2
  else Arr.memset W d2 (begin / m_block_size + to_add) 0
         (Block.wrap 64
            (Block.wrap 64 (end_ - begin) / m_block_size * Arr.sizeof W
             - to_sub)).

(** The loop [for (i = begin; i < end; i += step)] of the strided range
    functions.  [i] is a [size_type], so [i += step] wraps; with
    [step == 0] the loop never leaves, which [fuel] makes observable:
    the result is [None] when [fuel] rounds were not enough. *)
Fixpoint stride_loop {S : Type} (fuel : nat) (i end_ step : Z)
    (body : Z -> S -> option S) (s : S) : option S :=
  if i <? end_
  then match fuel with
       | O => None
       | Datatypes.S fuel' =>
           s' ← body i s;
           stride_loop fuel' (Block.wrap 64 (i + step)) end_ step body s'
       end
  else Some s.

(** [set_range(begin, end, step)] and [clear_range(begin, end, step)]. *)
Definition set_range_step (fuel : nat) (m_data : list Z)
    (begin end_ step : Z) : option (list Z) :=
  stride_loop fuel begin end_ step (fun i d => set d i) m_data.

Definition clear_range_step (fuel : nat) (m_data : list Z)
    (begin end_ step : Z) : option (list Z) :=
  stride_loop fuel begin end_ step (fun i d => clear d i) m_data.

(** [flip_range(begin, end, step)]. *)
Definition flip_range_step (fuel : nat) (m_data : list Z)
    (begin end_ step : Z) : option (list Z) :=
  stride_loop fuel begin end_ step (fun i d => flip d i) m_data.

(** [flip()], flip all: [m_data[i] = ~m_data[i]]. *)
Definition flip_all (m_data : list Z) : option (list Z) :=
  iter_range 0 m_storage_size
    (fun i d => Arr.upd d i (fun b => Block.wrap W (Z.lnot b))) m_data.

(** [flip_range(end)]. *)
Definition flip_range_end (m_data : list Z) (end_ : Z) : option (list Z) :=
  d1 ← iter_range 0 (end_ / m_block_size)
         (fun i d => Arr.upd d i (fun b => Block.wrap W (Z.lnot b))) m_data;
  flip_bits d1 (end_ / m_block_size) 0 (end_ mod m_block_size).

(** [flip_range(begin, end)]. *)
Definition flip_range (m_data : list Z) (begin end_ : Z) : option (list Z) :=
  let lead := negb (begin mod m_block_size =? 0) in
  let to_add := if lead then 1 else 0 in
  d1 ← (if lead
        then flip_bits m_data (begin / m_block_size)
               (begin mod m_block_size) m_block_size
        else Some m_data);
  d2 ← iter_range (begin / m_block_size + to_add) (end_ / m_block_size)
         (fun i d => Arr.upd d i (fun b => Block.wrap W (Z.lnot b))) d1;
  if negb (end_ mod m_block_size =? 0)
  then flip_bits d2 (end_ / m_block_size) 0 (end_ mod m_block_size)
  else Some d2.

(** [all()]. *)
Definition all (m_data : list Z) : option bool :=
  r ← for_range 0 (m_storage_size - (if m_partial_size =? 0 then 0 else 1))
        (fun i (_ : unit) =>
           x ← Arr.get m_data i;
           Some (if negb (x =? Block.max W) then Ret false else Go tt))
        tt;
  match r with
  | Ret v => Some v
  | Go _ =>
      if negb (m_partial_size =? 0)
      then
        r2 ← for_range 0 m_partial_size
               (fun i (_ : unit) =>
                  x ← Arr.get m_data (Size / m_block_size);
                  m ← Block.one_shl W i;
                  Some (if negb (Block.to_bool (Z.land x m))
                        then Ret false else Go tt))
               tt;
        Some (match r2 with Ret v => v | Go _ => true end)
      else Some true
  end.

(** [any()]. *)
Definition any (m_data : list Z) : option bool :=
  r ← for_range 0 (m_storage_size - (if m_partial_size =? 0 then 0 else 1))
        (fun i (_ : unit) =>
           x ← Arr.get m_data i;
           Some (if Block.to_bool x then Ret true else Go tt))
        tt;
  match r with
  | Ret v => Some v
  | Go _ =>
      if negb (m_partial_size =? 0)
      then
        r2 ← for_range 0 m_partial_size
               (fun i (_ : unit) =>
                  x ← Arr.get m_data (Size / m_block_size);
                  m ← Block.one_shl W i;
                  Some (if Block.to_bool (Z.land x m)
                        then Ret true else Go tt))
               tt;
        Some (match r2 with Ret v => v | Go _ => false end)
      else Some false
  end.

(** [none()]; [all_clear()] returns [none()]. *)
Definition none (m_data : list Z) : option bool :=
  r ← for_range 0 (m_storage_size - (if m_partial_size =? 0 then 0 else 1))
        (fun i (_ : unit) =>
           x ← Arr.get m_data i;
           Some (if Block.to_bool x then Ret false else Go tt))
        tt;
  match r with
  | Ret v => Some v
  | Go _ =>
      if negb (m_partial_size =? 0)
      then
        r2 ← for_range 0 m_partial_size
               (fun i (_ : unit) =>
                  x ← Arr.get m_data (Size / m_block_size);
                  m ← Block.one_shl W i;
                  Some (if Block.to_bool (Z.land x m)
                        then Ret false else Go tt))
               tt;
        Some (match r2 with Ret v => v | Go _ => true end)
      else Some true
  end.

Definition all_clear (m_data : list Z) : option bool := none m_data.

(** The loop shared by [operator&], [operator|], [operator^] and
    [operator-]: [result.m_data[i] = op(m_data[i], other.m_data[i])] into
    a fresh [bitset result]. *)
Definition blockwise (op : Z -> Z -> Z) (m_data other : list Z)
  : option (list Z) :=
  iter_range 0 m_storage_size
    (fun i result =>
       x ← Arr.get m_data i; y ← Arr.get other i;
       Arr.put result i (Block.wrap W (op x y)))
    zero_data.

(** The loop shared by [operator&=], [operator^=] and [operator-=]:
    [m_data[i] op= other.m_data[i]]. *)
Definition blockwise_assign (op : Z -> Z -> Z) (m_data other : list Z)
  : option (list Z) :=
  iter_range 0 m_storage_size
    (fun i d =>
       y ← Arr.get other i;
       Arr.upd d i (fun x => Block.wrap W (op x y)))
    m_data.

(** [operator&], [operator|], [operator^], [operator-]. *)
Definition operator_and : list Z -> list Z -> option (list Z) :=
  blockwise Z.land.
Definition operator_or : list Z -> list Z -> option (list Z) :=
  blockwise Z.lor.
Definition operator_xor : list Z -> list Z -> option (list Z) :=
  blockwise Z.lxor.
Definition operator_minus : list Z -> list Z -> option (list Z) :=
  blockwise (fun x y => Z.land x (Z.lnot y)).

(** [operator&=], [operator^=], [operator-=].  ([operator|=] applies
    unary [*] to a block and is rejected by the compiler when used.) *)
Definition operator_and_assign : list Z -> list Z -> option (list Z) :=
  blockwise_assign Z.land.
Definition operator_xor_assign : list Z -> list Z -> option (list Z) :=
  blockwise_assign Z.lxor.
Definition operator_minus_assign : list Z -> list Z -> option (list Z) :=
  blockwise_assign (fun x y => Z.land x (Z.lnot y)).

(** [operator~]. *)
Definition operator_not (m_data : list Z) : option (list Z) :=
  iter_range 0 m_storage_size
    (fun i result =>
       x ← Arr.get m_data i; Arr.put result i (Block.wrap W (Z.lnot x)))
    zero_data.

(** One round of the loop shared by [operator>>] and [operator>>=]:
    block [i] of [dst] is computed from the blocks of [src].  The index
    [i + block_shift] is a [size_type]. *)
Definition shr_step (block_shift bit_shift : Z)
    (src : list Z) (i : Z) (dst : list Z) : option (list Z) :=
  v ← (if Block.wrap 64 (i + block_shift) <? m_storage_size
       then b ← Arr.get src (Block.wrap 64 (i + block_shift));
            Block.shr W b bit_shift
       else Some 0);
  dst1 ← Arr.put dst i (Block.wrap W v);
  if (0 <? bit_shift)
     && (Block.wrap 64 (i + block_shift + 1) <? m_storage_size)
  then b ← Arr.get src (Block.wrap 64 (i + block_shift + 1));
       c ← Block.shl W b (m_block_size - bit_shift);
       Arr.upd dst1 i (fun r => Block.wrap W (Z.lor r c))
  else Some dst1.

(** [operator>>(shift)]: reads [m_data], writes a fresh [result]. *)
Definition operator_shr (m_data : list Z) (shift : Z) : option (list Z) :=
  let block_shift := shift / m_block_size in
  let bit_shift := shift mod m_block_size in
  iter_range 0 m_storage_size
    (fun i result => shr_step block_shift bit_shift m_data i result)
    zero_data.


(** [_from_other(const bitset&)] for another object of the same type,
    and the copy constructor, which runs it on its own array before
    anything else has been stored there ([junk]). *)
Definition _from_other_same (other m_data : list Z) : option (list Z) :=
  Arr.copy other m_storage_size m_data.

Definition copy_of (junk : Z -> Z) (other : list Z) : option (list Z) :=
  _from_other_same other (map junk (seqZ 0 m_storage_size)).

(** [_from_other(const bitset<BlockType, OtherSize>&)]: the same block
    type, another size. *)
Definition _from_other_size (OtherSize : Z) (other m_data : list Z)
  : option (list Z) :=
  let other_storage_size :=
    OtherSize / m_block_size
    + (if OtherSize mod m_block_size =? 0 then 0 else 1) in
  let min_storage_size := Z.min m_storage_size other_storage_size in
  d1 ← Arr.copy other min_storage_size m_data;
  iter_range min_storage_size m_storage_size
    (fun i d => Arr.put d i 0) d1.

(** [from_integer<T>(value)], [T] an unsigned type of [Wt] bits. *)
Definition from_integer (ce : bool) (Wt : Z) (m_data : list Z) (value : Z)
  : option (list Z) :=
  d0 ← clear_all ce m_data;
  if Arr.sizeof Wt <=? Arr.sizeof W
  then Arr.upd d0 0
         (fun b =>
            Block.wrap W
              (Z.lor (Z.land b (Z.lnot (Block.wrap W (Block.max Wt))))
                     value))
  else
    let diff := Block.wrap 16 (Arr.sizeof Wt / Arr.sizeof W) in
    iter_range 0 diff
      (fun i d => v ← Block.shr Wt value (i * m_block_size);
                  Arr.put d i (Block.wrap W v))
      d0.

(** [to_integer<T>()]. *)
Definition to_integer (Wt : Z) (m_data : list Z) : option Z :=
  if Arr.sizeof Wt <=? Arr.sizeof W
  then x ← Arr.get m_data 0; Some (Block.wrap Wt x)
  else
    let diff := Block.wrap 16 (Arr.sizeof Wt / Arr.sizeof W) in
    iter_range 0 diff
      (fun i result =>
         x ← Arr.get m_data i;
         v ← Block.shl Wt (Block.wrap Wt x) (i * m_block_size);
         Some (Block.wrap Wt (Z.lor result v)))
      0.

(** [swap(index_1, index_2)]. *)
Definition swap (m_data : list Z) (index_1 index_2 : Z)
  : option (list Z) :=
  tmp ← test m_data index_1;
  v ← test m_data index_2;
  d1 ← set_value m_data index_1 v;
  set_value d1 index_2 tmp.

(** [reverse()]. *)
Definition reverse (m_data : list Z) : option (list Z) :=
  iter_range 0 (Size / 2)
    (fun i d => swap d i (Block.wrap 64 (Size - i - 1))) m_data.

(** [rotate(shift)]: bit [i] receives bit [(i + shift) % Size] of a copy
    taken on entry. *)
Definition rotate (junk : Z -> Z) (m_data : list Z) (shift : Z)
  : option (list Z) :=
  tmp_cpy ← copy_of junk m_data;
  iter_range 0 Size
    (fun i d => v ← test tmp_cpy (Block.wrap 64 (i + shift) mod Size);
                set_value d i v)
    m_data.

(** *** Specification-side definitions *)

(** Frame of a single-bit update at [i]: the array keeps its length and
    every other bit, in every block, reads as before. *)
Definition only_bit_changed (d d' : list Z) (i : Z) : Prop :=
  length d' = length d
  /\ forall j, 0 <= j -> j <> i -> test d' j = test d j.

(** Specification of the widening conversion, in the words of the design:
    the blocks of [xs], each [wo] bits wide, laid out from the low end,
    block [j] at bit offset [j * wo]. *)
Fixpoint pack_blocks (wo : Z) (xs : list Z) : Z :=
  match xs with
  | [] => 0
  | x :: rest => x + 2 ^ wo * pack_blocks wo rest
  end.

(** Destination block [i] as the design describes it: the [diff]
    consecutive source blocks from [i * diff] on, as many as the source
    still has, packed. *)
Definition packed_block (wo : Z) (other : list Z) (diff i : Z) : Z :=
  pack_blocks wo (take (Z.to_nat diff) (drop (Z.to_nat (i * diff)) other)).

(** The same block after only [j] rounds of the inner loop. *)
Definition packed_upto (wo : Z) (other : list Z) (diff i j : Z) : Z :=
  pack_blocks wo (take (Z.to_nat j) (drop (Z.to_nat (i * diff)) other)).

(** Block [k] of the destination after [i] rounds of the outer loop and
    [j] rounds of the inner one, starting from [m_data{ 0 }]. *)
Definition widen_progress (wo : Z) (other : list Z) (diff i j k : Z) : Z :=
  if k <? i then packed_block wo other diff k
  else if k =? i then packed_upto wo other diff i j
  else 0.

(** Block [k] of an array, zero outside it. *)
Definition block_or_zero (d : list Z) (k : Z) : Z :=
  default 0 (d !! Z.to_nat k).

(** Block [i] of a left shift of [d] by [shift], in closed form: the
    source block [i - shift / W] moved up by [shift mod W], joined with
    the bits that leave the block below it. *)
Definition shl_block (d : list Z) (shift i : Z) : Z :=
  let v := if shift / W <=? i
           then Z.shiftl (block_or_zero d (i - shift / W)) (shift mod W)
           else 0 in
  if (0 <? shift mod W) && (shift / W + 1 <=? i)
  then Block.wrap W
         (Z.lor (Block.wrap W v)
                (Z.shiftr (block_or_zero d (i - shift / W - 1))
                          (W - shift mod W)))
  else Block.wrap W v.

(** Block [i] of a right shift of [d] by [shift]. *)
Definition shr_block (d : list Z) (shift i : Z) : Z :=
  let v := if i + shift / W <? m_storage_size
           then Z.shiftr (block_or_zero d (i + shift / W)) (shift mod W)
           else 0 in
  if (0 <? shift mod W) && (i + shift / W + 1 <? m_storage_size)
  then Block.wrap W
         (Z.lor (Block.wrap W v)
                (Z.shiftl (block_or_zero d (i + shift / W + 1))
                          (W - shift mod W)))
  else Block.wrap W v.

(** Block [n] of the conversion from a bitset of wider blocks, in
    closed form: piece [n mod diff] of source block [n / diff], or zero
    past the end of the source. *)
Definition narrowed_block (other : list Z) (diff n : Z) : Z :=
  if n <? Z.of_nat (length other) * diff
  then Block.wrap W
         (Z.shiftr (block_or_zero other (n / diff)) (n mod diff * W))
  else 0.

End Fixed.
End bitset.

(** ** The resizable container: [dynamic_bitset<BlockType>] *)

Module dynamic_bitset.

(** The data members, in declaration order.  [m_partial_size] is a
    [uint8_t], the two sizes are [size_type]; [m_data] is [None] for
    [nullptr] and otherwise holds the allocated array, whose length is
    the length of the allocation. *)
Record t : Type := mk {
  m_partial_size : Z;
  m_storage_size : Z;
  m_size : Z;
  m_data : option (list Z)
}.

Section Dynamic.

(** Template parameter: the width of [BlockType] in bits. *)
Variable W : Z.

Definition m_block_size : Z := W.

(** [new BlockType[n]]: a fresh array of [n] blocks of indeterminate
    value; [junk k] is what block [k] happens to hold. *)
Definition new_array (junk : Z -> Z) (n : Z) : list Z :=
  map junk (seqZ 0 n).

Definition with_data (b : t) (d : option (list Z)) : t :=
  mk (m_partial_size b) (m_storage_size b) (m_size b) d.

(** [test(index)], [set(index)], [clear(index)], [set(index, value)]:
    the bodies are those of the fixed container, on [m_data]. *)
Definition test (b : t) (index : Z) : option bool :=
  d ← m_data b; bitset.test W d index.

Definition set (b : t) (index : Z) : option t :=
  d ← m_data b; d' ← bitset.set W d index; Some (with_data b (Some d')).

Definition clear (b : t) (index : Z) : option t :=
  d ← m_data b; d' ← bitset.clear W d index; Some (with_data b (Some d')).

Definition set_value (b : t) (index : Z) (value : bool) : option t :=
  d ← m_data b; d' ← bitset.set_value W d index value;
  Some (with_data b (Some d')).

(** [clear()]: one [memset] over [m_storage_size] blocks. *)
Definition clear_all (b : t) : option t :=
  d ← m_data b;
  d' ← Arr.memset W d 0 0 (Block.wrap 64 (m_storage_size b * Arr.sizeof W));
  Some (with_data b (Some d')).

(** [dynamic_bitset(size)]. *)
Definition of_size (junk : Z -> Z) (size : Z) : option t :=
  let partial := Block.wrap 8 (size mod m_block_size) in
  let storage :=
    Block.wrap 64 (size / m_block_size + (if partial =? 0 then 0 else 1)) in
  clear_all (mk partial storage size (Some (new_array junk storage))).

(** [set_range(begin, end)]: the run-time branch of the fixed
    container's function is the whole body here. *)
Definition set_range (b : t) (begin end_ : Z) : option t :=
  d ← m_data b; d' ← bitset.set_range W false d begin end_;
  Some (with_data b (Some d')).

(** [m_data[k]] as an rvalue; reading through [nullptr] is undefined. *)
Definition block_at (b : t) (k : Z) : option Z :=
  d ← m_data b; Arr.get d k.

(** [none()]. *)
Definition none (b : t) : option bool :=
  r ← for_range 0
        (Block.wrap 64
           (m_storage_size b - (if m_partial_size b =? 0 then 0 else 1)))
        (fun i (_ : unit) =>
           x ← block_at b i;
           Some (if Block.to_bool x then Ret false else Go tt))
        tt;
  match r with
  | Ret v => Some v
  | Go _ =>
      if negb (m_partial_size b =? 0)
      then
        r2 ← for_range 0 (m_partial_size b)
               (fun i (_ : unit) =>
                  x ← block_at b (m_size b / m_block_size);
                  m ← Block.one_shl W i;
                  Some (if Block.to_bool (Z.land x m)
                        then Ret false else Go tt))
               tt;
        Some (match r2 with Ret v => v | Go _ => true end)
      else Some true
  end.

(** [count()]. *)
Definition count (b : t) : option Z :=
  iter_range 0 (m_storage_size b)
    (fun i count =>
       j ← block_at b i; bitset.count_block W (Z.to_nat W) j count)
    0.

(** [operator==(const dynamic_bitset&)]. *)
Definition operator_eq (a b : t) : option bool :=
  if negb (m_size a =? m_size b) then Some false
  else
    r ← for_range 0
          (Block.wrap 64
             (m_storage_size a - (if m_partial_size a =? 0 then 0 else 1)))
          (fun i (_ : unit) =>
             x ← block_at a i; y ← block_at b i;
             Some (if negb (x =? y) then Ret false else Go tt))
          tt;
    match r with
    | Ret v => Some v
    | Go _ =>
        if negb (m_partial_size a =? 0)
        then mask ← bitset.partial_mask W (m_partial_size a);
             x ← block_at a (m_storage_size a - 1);
             y ← block_at b (m_storage_size a - 1);
             Some (if negb (Z.land x mask =? Z.land y mask)
                   then false else true)
        else Some true
    end.

(** [operator!=(const dynamic_bitset&)].  The [for] statement is the
    body of [if (m_size != other.m_size)]: with equal sizes the blocks
    are not compared at all. *)
Definition operator_ne (a b : t) : option bool :=
  r ← (if negb (m_size a =? m_size b)
       then for_range 0
              (Block.wrap 64
                 (m_storage_size a
                  - (if m_partial_size a =? 0 then 0 else 1)))
              (fun i (_ : unit) =>
                 x ← block_at a i; y ← block_at b i;
                 Some (if x =? y then Ret false else Go tt))
              tt
       else Some (Go tt));
  match r with
  | Ret v => Some v
  | Go _ =>
      if negb (m_partial_size a =? 0)
      then mask ← bitset.partial_mask W (m_partial_size a);
           x ← block_at a (m_storage_size a - 1);
           y ← block_at b (m_storage_size a - 1);
           Some (if Z.land x mask =? Z.land y mask then false else true)
      else Some true
  end.

(** [resize(new_size)]. *)
Definition resize (junk : Z -> Z) (b : t) (new_size : Z) : option t :=
  if new_size =? m_size b then Some b
  else if new_size =? 0 then Some (mk 0 0 0 None)
  else
    let new_data := new_array junk new_size in
    new_data' ←
      match m_data b with
      | Some d =>
          if m_storage_size b <? new_size
          then d1 ← Arr.copy d (m_storage_size b) new_data;
               Arr.memset W d1 (m_storage_size b) 0
                 (Block.wrap 64
                    (Block.wrap 64 (new_size - m_storage_size b)
                     * Arr.sizeof W))
          else Arr.copy d new_size new_data
      | None => Some new_data
      end;
    let partial := Block.wrap 8 (new_size mod m_block_size) in
    Some (mk partial
             (Block.wrap 64
                (new_size / m_block_size + (if partial =? 0 then 0 else 1)))
             new_size (Some new_data')).

(** [push_back(value)]. *)
Definition push_back (junk : Z -> Z) (b : t) (value : bool) : option t :=
  let size' := Block.wrap 64 (m_size b + 1) in
  b1 ← (if m_size b mod m_block_size =? 0
        then
          let storage' := Block.wrap 64 (m_storage_size b + 1) in
          let new_data := new_array junk storage' in
          d1 ← match m_data b with
               | Some d => Arr.copy d storage' new_data
               | None => Some new_data
               end;
          d2 ← Arr.put d1 (storage' - 1) 0;
          Some (mk 0 storage' size' (Some d2))
        else
          Some (mk (Block.wrap 8 (m_partial_size b + 1))
                   (m_storage_size b) size' (m_data b)));
  m ← Block.one_shl W (m_partial_size b1 - 1);
  d ← m_data b1;
  d' ← Arr.upd d (m_storage_size b1 - 1)
         (fun x => if value then Block.or_mask W x m
                   else Block.clear_mask W x m);
  Some (with_data b1 (Some d')).

(** [pop_back()]. *)
Definition pop_back (junk : Z -> Z) (b : t) : option t :=
  let size' := Block.wrap 64 (m_size b - 1) in
  if size' mod m_block_size =? 0
  then
    let storage' := Block.wrap 64 (m_storage_size b - 1) in
    data' ← (if negb (size' =? 0)
             then d ← m_data b;
                  d1 ← Arr.copy d storage' (new_array junk storage');
                  Some (Some d1)
             else Some None);
    Some (mk 0 storage' (Block.wrap 64 (size' - 1)) data')
  else
    Some (mk (Block.wrap 8 (m_partial_size b - 1))
             (m_storage_size b) size' (m_data b)).

(** [push_back_block(block)]. *)
Definition push_back_block (junk : Z -> Z) (b : t) (block : Z) : option t :=
  let storage' := Block.wrap 64 (m_storage_size b + 1) in
  let size' := Block.wrap 64 (storage' * m_block_size) in
  let new_data := new_array junk storage' in
  d1 ← match m_data b with
       | Some d => Arr.copy d storage' new_data
       | None => Some new_data
       end;
  d2 ← Arr.put d1 (storage' - 1) block;
  Some (mk 0 storage' size' (Some d2)).

(** [pop_back_block()]. *)
Definition pop_back_block (junk : Z -> Z) (b : t) : option t :=
  let storage' := Block.wrap 64 (m_storage_size b - 1) in
  let size' := Block.wrap 64 (storage' * m_block_size) in
  let new_data := new_array junk storage' in
  d1 ← match m_data b with
       | Some d => Arr.copy d storage' new_data
       | None => Some new_data
       end;
  Some (mk 0 storage' size' (Some d1)).

(** [insert_block(index, block)]. *)
Definition insert_block (junk : Z -> Z) (b : t) (index block : Z)
  : option t :=
  if index =? m_storage_size b then push_back_block junk b block
  else
    let new_data := new_array junk (Block.wrap 64 (m_storage_size b + 1)) in
    d1 ← match m_data b with
         | Some d =>
             d0 ← iter_range 0 index
                    (fun i nd => x ← Arr.get d i; Arr.put nd i x) new_data;
             iter_range index (m_storage_size b)
               (fun i nd => x ← Arr.get d i; Arr.put nd (i + 1) x) d0
         | None => Some new_data
         end;
    d2 ← Arr.put d1 index block;
    Some (mk (m_partial_size b)
             (Block.wrap 64 (m_storage_size b + 1))
             (Block.wrap 64 (m_size b + m_block_size))
             (Some d2)).

(** One round of the copying loops of [insert]: bit [i] of the old
    array is written at position [k] of [new_data]. *)
Definition copy_bit (old : list Z) (i k : Z) (nd : list Z)
  : option (list Z) :=
  v ← bitset.test W old i;
  m ← Block.one_shl W (k mod m_block_size);
  Arr.upd nd (k / m_block_size)
    (fun x => if v : bool then Block.or_mask W x m
              else Block.clear_mask W x m).

(** [insert(index, value)]. *)
Definition insert (junk : Z -> Z) (b : t) (index : Z) (value : bool)
  : option t :=
  if index =? m_size b then push_back junk b value
  else
    b1 ← (if m_size b mod m_block_size =? 0
          then
            let storage' := Block.wrap 64 (m_storage_size b + 1) in
            let new_data := new_array junk storage' in
            match m_data b with
            | Some d =>
                d0 ← iter_range 0 index
                       (fun i nd => copy_bit d i i nd) new_data;
                d1 ← iter_range index (m_size b)
                       (fun i nd => copy_bit d i (i + 1) nd) d0;
                d2 ← bitset.set_value W d1 index value;
                Some (mk 0 storage' (m_size b) (Some d2))
            | None => Some (mk 0 storage' (m_size b) (Some new_data))
            end
          else
            d ← m_data b;
            tmp_copy ← Arr.copy d (m_storage_size b)
                         (new_array junk (m_storage_size b));
            d1 ← iter_range index (m_size b)
                   (fun i nd => v ← bitset.test W tmp_copy i;
                                bitset.set_value W nd (i + 1) v)
                   d;
            d2 ← bitset.set_value W d1 index value;
            Some (mk (Block.wrap 8 (m_partial_size b + 1))
                     (m_storage_size b) (m_size b) (Some d2)));
    Some (mk (m_partial_size b1) (m_storage_size b1)
             (Block.wrap 64 (m_size b1 + 1)) (m_data b1)).

(** The invariant the data model states for [(size, storage_size, data)]:
    [storage_size == ceil(size / W)], and [data] is null iff
    [size == 0]. *)
Definition invariant (b : t) : Prop :=
  m_storage_size b = (m_size b + m_block_size - 1) / m_block_size
  /\ (m_data b = None <-> m_size b = 0).

End Dynamic.
End dynamic_bitset.

(** ** Facts about block arithmetic *)

Section BlockFacts.

Variable W : Z.
Hypothesis W_pos : 0 < W.

Lemma one_shl_in_block (k : Z) :
  0 <= k < W -> Block.one_shl W k = Some (Z.shiftl 1 k).
Proof.
  intros Hk. unfold Block.one_shl.
  replace ((0 <=? k) && (k <? Z.max W 32)) with true
    by (symmetry; apply andb_true_iff; split; [apply Z.leb_le|apply Z.ltb_lt]; lia).
  replace ((W <? 32) && (k =? 31)) with false; [reflexivity|].
  symmetry. apply andb_false_iff.
  destruct (Z.ltb_spec W 32); [right; apply Z.eqb_neq; lia | now left].
Qed.

Lemma bit_shl1 (k j : Z) :
  0 <= k -> 0 <= j -> Z.testbit (Z.shiftl 1 k) j = (j =? k).
Proof.
  intros Hk Hj. rewrite Z.shiftl_spec by lia.
  destruct (Z.eqb_spec j k) as [->|Hne].
  - now rewrite Z.sub_diag.
  - destruct (Z.ltb_spec j k); [apply Z.testbit_neg_r; lia|].
    replace (j - k) with (Z.succ (j - k - 1)) by lia.
    change 1 with (2 * 0 + 1) at 1.
    rewrite Z.testbit_odd_succ by lia. apply Z.bits_0.
Qed.

Lemma to_bool_land_bit (b k : Z) :
  0 <= k -> Block.to_bool (Z.land b (Z.shiftl 1 k)) = Z.testbit b k.
Proof.
  intros Hk. unfold Block.to_bool.
  destruct (Z.testbit b k) eqn:E.
  - apply negb_true_iff, Z.eqb_neq. intros H0.
    assert (Z.testbit (Z.land b (Z.shiftl 1 k)) k = false) as F
      by (rewrite H0; apply Z.bits_0).
    rewrite Z.land_spec, E, bit_shl1, Z.eqb_refl in F by lia.
    discriminate F.
  - apply negb_false_iff, Z.eqb_eq. apply Z.bits_inj'. intros n Hn.
    rewrite Z.land_spec, Z.bits_0, bit_shl1 by lia.
    destruct (Z.eqb_spec n k) as [->|Hne]; [now rewrite E|].
    apply andb_false_r.
Qed.

Lemma wrap_testbit (z j : Z) :
  0 <= j < W -> Z.testbit (Block.wrap W z) j = Z.testbit z j.
Proof. intros Hj. unfold Block.wrap. apply Z.mod_pow2_bits_low. lia. Qed.

Lemma or_mask_bit (b k j : Z) :
  0 <= k -> 0 <= j < W ->
  Z.testbit (Block.or_mask W b (Z.shiftl 1 k)) j = Z.testbit b j || (j =? k).
Proof.
  intros Hk Hj. unfold Block.or_mask.
  now rewrite wrap_testbit, Z.lor_spec, bit_shl1 by lia.
Qed.

Lemma clear_mask_bit (b k j : Z) :
  0 <= k -> 0 <= j < W ->
  Z.testbit (Block.clear_mask W b (Z.shiftl 1 k)) j
  = Z.testbit b j && negb (j =? k).
Proof.
  intros Hk Hj. unfold Block.clear_mask.
  now rewrite wrap_testbit, Z.land_spec, Z.lnot_spec, bit_shl1 by lia.
Qed.

Lemma xor_mask_bit (b k j : Z) :
  0 <= k -> 0 <= j < W ->
  Z.testbit (Block.xor_mask W b (Z.shiftl 1 k)) j
  = xorb (Z.testbit b j) (j =? k).
Proof.
  intros Hk Hj. unfold Block.xor_mask.
  now rewrite wrap_testbit, Z.lxor_spec, bit_shl1 by lia.
Qed.

End BlockFacts.

(** Or-ing a value shifted clear of [a] onto [a] adds it. *)
Lemma lor_shiftl_add (a x k : Z) :
  0 <= k -> 0 <= a < 2 ^ k -> Z.lor a (Z.shiftl x k) = a + x * 2 ^ k.
Proof.
  intros Hk Ha. rewrite <- Z.shiftl_mul_pow2 by lia.
  assert (Z.land a (Z.shiftl x k) = 0) as Hdisj.
  { apply Z.bits_inj'. intros n Hn.
    rewrite Z.land_spec, Z.bits_0.
    destruct (Z.ltb_spec n k).
    - rewrite Z.shiftl_spec_low by lia. apply andb_false_r.
    - rewrite <- (Z.mod_small a (2 ^ k)) by lia.
      now rewrite Z.mod_pow2_bits_high by lia. }
  now rewrite <- Z.lxor_lor, <- Z.add_nocarry_lxor.
Qed.

(** ** Arrays: reading and writing in range *)

Section ArrFacts.

Context {A : Type}.
Implicit Types (d : list A) (k : Z).

Lemma get_lookup d k : 0 <= k -> Arr.get d k = d !! Z.to_nat k.
Proof.
  intros Hk. unfold Arr.get.
  destruct (Z.ltb_spec k 0); [lia | reflexivity].
Qed.

Lemma put_in_range d k x :
  0 <= k < Z.of_nat (length d) ->
  Arr.put d k x = Some (<[Z.to_nat k := x]> d).
Proof.
  intros Hk. unfold Arr.put.
  destruct (Z.leb_spec 0 k); [|lia].
  destruct (Z.ltb_spec k (Z.of_nat (length d))); [reflexivity | lia].
Qed.

End ArrFacts.

Lemma upd_in_range (d : list Z) (k b : Z) (f : Z -> Z) :
  0 <= k -> d !! Z.to_nat k = Some b ->
  Arr.upd d k f = Some (<[Z.to_nat k := f b]> d).
Proof.
  intros Hk Hb. unfold Arr.upd. rewrite get_lookup, Hb by lia. simpl.
  apply put_in_range. apply lookup_lt_Some in Hb. lia.
Qed.

(** ** Reasoning about counted loops *)

Section Loops.

Context {S R : Type}.

(** Invariant rule for a loop whose body cannot return. *)
Lemma iter_loop_inv (P : Z -> S -> Prop) (body : Z -> S -> option S) :
  forall (n : nat) (i : Z) (s : S),
    P i s ->
    (forall k t, i <= k < i + Z.of_nat n -> P k t ->
       exists t', body k t = Some t' /\ P (k + 1) t') ->
    exists s', iter_loop n i body s = Some s' /\ P (i + Z.of_nat n) s'.
Proof.
  induction n as [|n IH]; intros i s HP Hbody.
  - exists s. simpl. rewrite Z.add_0_r. auto.
  - destruct (Hbody i s) as (t & Et & Pt); [lia | assumption |].
    destruct (IH (i + 1) t Pt) as (s' & Es & Ps).
    { intros k u Hk. apply Hbody. lia. }
    exists s'. cbn [iter_loop]. rewrite Et. simpl.
    split; [assumption|].
    replace (i + Z.of_nat (Datatypes.S n)) with (i + 1 + Z.of_nat n) by lia.
    assumption.
Qed.

Lemma iter_range_inv (P : Z -> S -> Prop) (body : Z -> S -> option S)
    (a b : Z) (s : S) :
  a <= b -> P a s ->
  (forall k t, a <= k < b -> P k t ->
     exists t', body k t = Some t' /\ P (k + 1) t') ->
  exists s', iter_range a b body s = Some s' /\ P b s'.
Proof.
  intros Hab HP Hbody. unfold iter_range.
  destruct (iter_loop_inv P body (Z.to_nat (b - a)) a s HP) as (s' & E & Ps).
  { intros k t Hk. apply Hbody. lia. }
  exists s'. split; [assumption|].
  now replace (a + Z.of_nat (Z.to_nat (b - a))) with b in Ps by lia.
Qed.

(** An empty range runs no round. *)
Lemma iter_range_empty (body : Z -> S -> option S) (a b : Z) (s : S) :
  b <= a -> iter_range a b body s = Some s.
Proof.
  intros Hba. unfold iter_range.
  now replace (Z.to_nat (b - a)) with O by lia.
Qed.

(** Invariant rule for a loop whose body may return: [P] is kept by the
    rounds that fall through, [Q] holds of what a [return] hands back. *)
Lemma for_loop_inv (P : Z -> S -> Prop) (Q : R -> Prop)
    (body : Z -> S -> option (flow S R)) :
  forall (n : nat) (i : Z) (s : S),
    P i s ->
    (forall k t, i <= k < i + Z.of_nat n -> P k t ->
       exists r, body k t = Some r
                 /\ match r with Go t' => P (k + 1) t' | Ret v => Q v end) ->
    exists r, for_loop n i body s = Some r
              /\ match r with
                 | Go s' => P (i + Z.of_nat n) s'
                 | Ret v => Q v
                 end.
Proof.
  induction n as [|n IH]; intros i s HP Hbody.
  - exists (Go s). simpl. rewrite Z.add_0_r. auto.
  - destruct (Hbody i s) as (r & Er & Pr); [lia | assumption |].
    cbn [for_loop]. rewrite Er. destruct r as [t|v].
    + destruct (IH (i + 1) t Pr) as (r' & Es & Ps).
      { intros k u Hk. apply Hbody. lia. }
      exists r'. split; [assumption|].
      replace (i + Z.of_nat (Datatypes.S n)) with (i + 1 + Z.of_nat n) by lia.
      assumption.
    + exists (Ret v). auto.
Qed.

Lemma for_range_inv (P : Z -> S -> Prop) (Q : R -> Prop)
    (body : Z -> S -> option (flow S R)) (a b : Z) (s : S) :
  a <= b -> P a s ->
  (forall k t, a <= k < b -> P k t ->
     exists r, body k t = Some r
               /\ match r with Go t' => P (k + 1) t' | Ret v => Q v end) ->
  exists r, for_range a b body s = Some r
            /\ match r with Go s' => P b s' | Ret v => Q v end.
Proof.
  intros Hab HP Hbody. unfold for_range.
  destruct (for_loop_inv P Q body (Z.to_nat (b - a)) a s HP) as (r & E & Pr).
  { intros k t Hk. apply Hbody. lia. }
  exists r. split; [assumption|].
  now replace (a + Z.of_nat (Z.to_nat (b - a))) with b in Pr by lia.
Qed.

Lemma for_range_empty (body : Z -> S -> option (flow S R)) (a b : Z) (s : S) :
  b <= a -> for_range a b body s = Some (Go s).
Proof.
  intros Hba. unfold for_range.
  now replace (Z.to_nat (b - a)) with O by lia.
Qed.

(** A loop whose rounds all fall through without touching the state. *)
Lemma for_range_skip (body : Z -> S -> option (flow S R)) (a b : Z) (s : S) :
  (forall k, a <= k < b -> body k s = Some (Go s)) ->
  for_range a b body s = Some (Go s).
Proof.
  intros Hbody. destruct (Z.le_gt_cases a b) as [Hab|Hab].
  - destruct (for_range_inv (fun _ t => t = s) (fun _ => False) body a b s
                Hab eq_refl) as (r & E & Pr).
    + intros k t Hk ->. exists (Go s). auto.
    + destruct r as [t|v]; [now subst | contradiction].
  - apply for_range_empty. lia.
Qed.

End Loops.

(** ** Block widths and [memset] *)

Lemma width_ok_facts (w : Z) :
  Block.width_ok w ->
  8 <= w <= 128 /\ Arr.sizeof w * 8 = w /\ 0 < Arr.sizeof w.
Proof.
  unfold Block.width_ok, Block.widths. simpl.
  intros [<-|[<-|[<-|[<-|[<-|[]]]]]]; vm_compute; intuition discriminate.
Qed.

Lemma wrap_small (w z : Z) : 0 <= z < 2 ^ w -> Block.wrap w z = z.
Proof. intros Hz. unfold Block.wrap. now apply Z.mod_small. Qed.

Lemma bytes_rep_zero (n : nat) : Arr.bytes_rep n 0 = 0.
Proof. induction n as [|n IH]; [reflexivity|]. simpl. now rewrite IH. Qed.

(** A [memset] over whole blocks replaces exactly those blocks. *)
Lemma memset_whole_blocks (w : Z) (d : list Z) (off c q : Z) :
  0 < Arr.sizeof w -> 0 <= off -> 0 <= q ->
  off + q <= Z.of_nat (length d) ->
  Arr.memset w d off c (q * Arr.sizeof w)
  = Some (take (Z.to_nat off) d
          ++ replicate (Z.to_nat q)
               (Arr.bytes_rep (Z.to_nat (Arr.sizeof w)) (Block.wrap 8 c))
          ++ drop (Z.to_nat (off + q)) d).
Proof.
  intros Hsz Hoff Hq Hlen. unfold Arr.memset.
  set (sz := Arr.sizeof w) in *.
  replace ((0 <=? off) && (0 <=? q * sz)
           && (off * sz + q * sz <=? Z.of_nat (length d) * sz)) with true.
  - rewrite Z.mod_mul, Z.div_mul by lia. reflexivity.
  - symmetry. rewrite !andb_true_iff, !Z.leb_le. nia.
Qed.

(** [memset(m_data, 0, m_storage_size * sizeof(BlockType))] zeroes the
    whole array. *)
Lemma memset_zero_all (w : Z) (d : list Z) :
  0 < Arr.sizeof w ->
  Arr.memset w d 0 0 (Z.of_nat (length d) * Arr.sizeof w)
  = Some (replicate (length d) 0).
Proof.
  intros Hsz. rewrite memset_whole_blocks by lia.
  rewrite Z.add_0_l, Nat2Z.id, drop_ge, app_nil_r by lia.
  change (Block.wrap 8 0) with 0. now rewrite bytes_rep_zero.
Qed.

(** ** Arrays given by a function of the block index *)

Lemma lookup_map_seqZ (g : Z -> Z) (n k : Z) :
  0 <= k < n -> map g (seqZ 0 n) !! Z.to_nat k = Some (g k).
Proof.
  intros Hk. change (map g (seqZ 0 n)) with (g <$> seqZ 0 n).
  rewrite list_lookup_fmap, lookup_seqZ_lt by lia.
  simpl. f_equal. f_equal. lia.
Qed.

Lemma map_seqZ_ext (g g' : Z -> Z) (n : Z) :
  (forall k, 0 <= k < n -> g k = g' k) -> map g (seqZ 0 n) = map g' (seqZ 0 n).
Proof.
  intros Hg. apply map_ext_in. intros k Hk.
  apply list_elem_of_In, elem_of_seqZ in Hk. apply Hg. lia.
Qed.

Lemma insert_map_seqZ (g g' : Z -> Z) (n i : Z) :
  0 <= i < n ->
  (forall k, 0 <= k < n -> k <> i -> g' k = g k) ->
  <[Z.to_nat i := g' i]> (map g (seqZ 0 n)) = map g' (seqZ 0 n).
Proof.
  intros Hi Hg. apply list_eq. intros k.
  destruct (decide (k = Z.to_nat i)) as [->|Hne].
  - rewrite list_lookup_insert_eq
      by (rewrite length_map, length_seqZ; lia).
    now rewrite lookup_map_seqZ.
  - rewrite list_lookup_insert_ne by congruence.
    destruct (decide (Z.of_nat k < n)) as [Hk|Hk].
    + replace k with (Z.to_nat (Z.of_nat k)) by lia.
      rewrite !lookup_map_seqZ by lia. f_equal. symmetry. apply Hg; lia.
    + assert (forall h : Z -> Z, map h (seqZ 0 n) !! k = None) as Hnone.
      { intros h. apply lookup_ge_None.
        rewrite length_map, length_seqZ. lia. }
      now rewrite !Hnone.
Qed.

Lemma replicate_map_seqZ (n v : Z) :
  replicate (Z.to_nat n) v = map (fun _ => v) (seqZ 0 n).
Proof.
  apply list_eq. intros k.
  destruct (decide (Z.of_nat k < n)) as [Hk|Hk].
  - rewrite lookup_replicate_2 by lia.
    replace k with (Z.to_nat (Z.of_nat k)) at 1 by lia.
    now rewrite lookup_map_seqZ by lia.
  - rewrite (lookup_ge_None_2 (replicate (Z.to_nat n) v))
      by (rewrite length_replicate; lia).
    symmetry. apply lookup_ge_None.
    rewrite length_map, length_seqZ. lia.
Qed.

(** ** Single-bit operations of the fixed container *)

Section SingleBit.

Variables (W Size : Z).
Hypothesis W_pos : 0 < W.

Local Abbreviation test := (bitset.test W).

(** [test] reads bit [j mod W] of block [j / W]. *)
Lemma test_spec (d : list Z) (j : Z) :
  0 <= j ->
  test d j = (fun b => Z.testbit b (j mod W)) <$> d !! Z.to_nat (j / W).
Proof.
  intros Hj. unfold bitset.test, bitset.m_block_size.
  assert (0 <= j mod W < W) as Hm by (apply Z.mod_pos_bound; lia).
  assert (0 <= j / W) as Hq by (apply Z.div_pos; lia).
  rewrite get_lookup by lia.
  destruct (d !! Z.to_nat (j / W)) as [b|]; [|reflexivity]. simpl.
  rewrite one_shl_in_block by lia. simpl.
  now rewrite to_bool_land_bit by lia.
Qed.

(** A valid bit index lies in an allocated block. *)
Lemma block_index_in_storage (i : Z) :
  0 <= i < Size -> 0 <= i / W < bitset.m_storage_size W Size.
Proof.
  intros Hi. unfold bitset.m_storage_size, bitset.m_partial_size,
    bitset.m_block_size.
  assert (0 <= i / W) by (apply Z.div_pos; lia).
  assert (i / W <= Size / W) by (apply Z.div_le_mono; lia).
  split; [lia|].
  destruct (Z.eqb_spec (Size mod W) 0) as [E|E]; [|lia].
  assert (Size = W * (Size / W)) as ES
    by (pose proof (Z.div_mod Size W); lia).
  assert (i / W < Size / W); [|lia].
  apply Z.div_lt_upper_bound; lia.
Qed.

(** What a read-modify-write of block [i / W] through a mask for bit
    [i mod W] does to the bits of the array, given what [f] does to the
    bits of the block. *)
Lemma rmw_bit (f : Z -> Z -> Z) (g : bool -> bool) (d : list Z) (i : Z) :
  (forall b k j, 0 <= k < W -> 0 <= j < W ->
     Z.testbit (f b (Z.shiftl 1 k)) j
     = if j =? k then g (Z.testbit b j) else Z.testbit b j) ->
  0 <= i -> (Z.to_nat (i / W) < length d)%nat ->
  exists d',
    (m ← Block.one_shl W (i mod W); Arr.upd d (i / W) (fun b => f b m))
      = Some d'
    /\ test d' i = g <$> test d i
    /\ bitset.only_bit_changed W d d' i.
Proof.
  intros Hf Hi Hlen.
  assert (0 <= i mod W < W) as Hm by (apply Z.mod_pos_bound; lia).
  assert (0 <= i / W) as Hq by (apply Z.div_pos; lia).
  destruct (lookup_lt_is_Some_2 d _ Hlen) as [b Hb].
  exists (<[Z.to_nat (i / W) := f b (Z.shiftl 1 (i mod W))]> d).
  rewrite one_shl_in_block by lia. simpl.
  split;
    [now apply (upd_in_range d (i / W) b
                  (fun x => f x (Z.shiftl 1 (i mod W))))|].
  split; [|split].
  - rewrite !test_spec by lia.
    rewrite list_lookup_insert_eq by lia. rewrite Hb. simpl.
    now rewrite Hf, Z.eqb_refl by lia.
  - apply length_insert.
  - intros j Hj Hne. rewrite !test_spec by lia.
    assert (0 <= j mod W < W) by (apply Z.mod_pos_bound; lia).
    assert (0 <= j / W) by (apply Z.div_pos; lia).
    destruct (Z.eq_dec (j / W) (i / W)) as [Eq|Nq].
    + rewrite Eq, list_lookup_insert_eq, Hb by lia. simpl.
      rewrite Hf by lia.
      destruct (Z.eqb_spec (j mod W) (i mod W)) as [Em|]; [|reflexivity].
      exfalso. apply Hne.
      rewrite (Z.div_mod j W), (Z.div_mod i W) by lia. congruence.
    + rewrite list_lookup_insert_ne by lia. reflexivity.
Qed.

End SingleBit.

(** The four single-bit updates at a bit whose block is allocated. *)
Lemma single_bit_ops (W : Z) (d : list Z) (i : Z) :
  0 < W -> 0 <= i -> (Z.to_nat (i / W) < length d)%nat ->
  (exists d', bitset.set W d i = Some d'
              /\ bitset.test W d' i = Some true
              /\ bitset.only_bit_changed W d d' i)
  /\ (exists d', bitset.clear W d i = Some d'
                 /\ bitset.test W d' i = Some false
                 /\ bitset.only_bit_changed W d d' i)
  /\ (forall v, exists d', bitset.set_value W d i v = Some d'
                           /\ bitset.test W d' i = Some v
                           /\ bitset.only_bit_changed W d d' i)
  /\ (exists d', bitset.flip W d i = Some d'
                 /\ bitset.test W d' i = negb <$> bitset.test W d i
                 /\ bitset.only_bit_changed W d d' i).
Proof.
  intros HW Hi Hin.
  assert (exists v0, bitset.test W d i = Some v0) as [v0 Hv0].
  { rewrite test_spec by lia.
    destruct (lookup_lt_is_Some_2 d _ Hin) as [b ->]. now eexists. }
  assert (forall b k j, 0 <= k < W -> 0 <= j < W ->
            Z.testbit (Block.or_mask W b (Z.shiftl 1 k)) j
            = if j =? k then (fun _ => true) (Z.testbit b j)
              else Z.testbit b j) as For.
  { intros b k j Hk Hj. rewrite or_mask_bit by lia.
    destruct (j =? k); [apply orb_true_r | apply orb_false_r]. }
  assert (forall b k j, 0 <= k < W -> 0 <= j < W ->
            Z.testbit (Block.clear_mask W b (Z.shiftl 1 k)) j
            = if j =? k then (fun _ => false) (Z.testbit b j)
              else Z.testbit b j) as Fclr.
  { intros b k j Hk Hj. rewrite clear_mask_bit by lia.
    destruct (j =? k); [apply andb_false_r | apply andb_true_r]. }
  assert (forall b k j, 0 <= k < W -> 0 <= j < W ->
            Z.testbit (Block.xor_mask W b (Z.shiftl 1 k)) j
            = if j =? k then negb (Z.testbit b j) else Z.testbit b j) as Fxor.
  { intros b k j Hk Hj. rewrite xor_mask_bit by lia.
    destruct (j =? k), (Z.testbit b j); reflexivity. }
  destruct (rmw_bit W HW _ _ d i For ltac:(lia) Hin) as (d1 & E1 & T1 & F1).
  destruct (rmw_bit W HW _ _ d i Fclr ltac:(lia) Hin) as (d2 & E2 & T2 & F2).
  destruct (rmw_bit W HW _ _ d i Fxor ltac:(lia) Hin) as (d3 & E3 & T3 & F3).
  rewrite Hv0 in T1, T2. simpl in T1, T2.
  repeat split.
  - exists d1. auto.
  - exists d2. auto.
  - intros [|]; [exists d1 | exists d2]; auto.
  - exists d3. auto.
Qed.

(** C1.  For every bit index [i] in [[0, Size)] of a [bitset<BlockType, Size>]
    (any block width [W], the array holding its [m_storage_size] blocks):
    [set(i)] succeeds and [test(i)] is then [true]; [clear(i)] succeeds and
    [test(i)] is then [false]; [set(i, v)] leaves [test(i) == v]; [flip(i)]
    negates [test(i)]; and each of the four leaves the length of the array
    and the value of every other bit, in every block, as it was. *)
Theorem single_bit_update (W Size : Z) (d : list Z) (i : Z) :
  0 < W ->
  length d = Z.to_nat (bitset.m_storage_size W Size) ->
  0 <= i < Size ->
  (exists d', bitset.set W d i = Some d'
              /\ bitset.test W d' i = Some true
              /\ bitset.only_bit_changed W d d' i)
  /\ (exists d', bitset.clear W d i = Some d'
                 /\ bitset.test W d' i = Some false
                 /\ bitset.only_bit_changed W d d' i)
  /\ (forall v, exists d', bitset.set_value W d i v = Some d'
                           /\ bitset.test W d' i = Some v
                           /\ bitset.only_bit_changed W d d' i)
  /\ (exists d', bitset.flip W d i = Some d'
                 /\ bitset.test W d' i = negb <$> bitset.test W d i
                 /\ bitset.only_bit_changed W d d' i).
Proof.
  intros HW Hlen Hi.
  pose proof (block_index_in_storage W Size HW i Hi) as Hblk.
  apply single_bit_ops; lia.
Qed.

Lemma single_bit_update_witness :
  (exists d', bitset.set 8 [0; 255] 9 = Some d'
              /\ bitset.test 8 d' 9 = Some true
              /\ bitset.only_bit_changed 8 [0; 255] d' 9)
  /\ (exists d', bitset.clear 8 [0; 255] 9 = Some d'
                 /\ bitset.test 8 d' 9 = Some false
                 /\ bitset.only_bit_changed 8 [0; 255] d' 9)
  /\ (forall v, exists d', bitset.set_value 8 [0; 255] 9 v = Some d'
                           /\ bitset.test 8 d' 9 = Some v
                           /\ bitset.only_bit_changed 8 [0; 255] d' 9)
  /\ (exists d', bitset.flip 8 [0; 255] 9 = Some d'
                 /\ bitset.test 8 d' 9 = negb <$> bitset.test 8 [0; 255] 9
                 /\ bitset.only_bit_changed 8 [0; 255] d' 9).
Proof.
  apply (single_bit_update 8 12 [0; 255] 9); [lia | reflexivity | lia].
Defined.

(** The dynamic container runs the same bodies on its array: for a
    bit index whose block is allocated, [set], [clear] and [set(i, v)]
    store the value at [i], keep the three size members and keep every
    other bit. *)
Lemma dynamic_single_bit_update (W : Z) (b : dynamic_bitset.t) (d : list Z)
    (i : Z) (v : bool) :
  0 < W -> dynamic_bitset.m_data b = Some d ->
  0 <= i < Z.of_nat (length d) * W ->
  exists d1 d0 dv,
    dynamic_bitset.set W b i = Some (dynamic_bitset.with_data b (Some d1))
    /\ dynamic_bitset.clear W b i
       = Some (dynamic_bitset.with_data b (Some d0))
    /\ dynamic_bitset.set_value W b i v
       = Some (dynamic_bitset.with_data b (Some dv))
    /\ bitset.test W d1 i = Some true
    /\ bitset.test W d0 i = Some false
    /\ bitset.test W dv i = Some v
    /\ bitset.only_bit_changed W d d1 i
    /\ bitset.only_bit_changed W d d0 i
    /\ bitset.only_bit_changed W d dv i.
Proof.
  intros HW Hd Hi.
  assert (0 <= i / W < Z.of_nat (length d)) as Hq
    by (split; [apply Z.div_pos; lia | apply Z.div_lt_upper_bound; lia]).
  destruct (single_bit_ops W d i HW ltac:(lia) ltac:(lia))
    as ((d1 & E1 & T1 & F1) & (d0 & E0 & T0 & F0) & Hv & _).
  destruct (Hv v) as (dv & Ev & Tv & Fv).
  exists d1, d0, dv.
  unfold dynamic_bitset.set, dynamic_bitset.clear, dynamic_bitset.set_value.
  rewrite Hd. cbn [mbind option_bind]. rewrite E1, E0, Ev.
  repeat split; assumption || apply F1 || apply F0 || apply Fv.
Qed.

(** ** The population-count loop *)

(** [j & (j - 1)] clears the lowest set bit: for [j = 2^t * (2q + 1)] it
    is [2^(t+1) * q]. *)
Lemma land_pred_clears_lowest (t q : Z) :
  0 <= t -> 0 <= q ->
  Z.land (2 ^ t * (2 * q + 1)) (2 ^ t * (2 * q + 1) - 1) = 2 ^ (t + 1) * q.
Proof.
  intros Ht Hq.
  assert (0 < 2 ^ t) as Hp by (apply Z.pow_pos_nonneg; lia).
  assert (2 ^ (t + 1) = 2 * 2 ^ t) as Hs
    by (rewrite Z.pow_add_r by lia; change (2 ^ 1) with 2; lia).
  replace (2 ^ t * (2 * q + 1))
    with (Z.lor (2 ^ t) (Z.shiftl q (t + 1)))
    by (rewrite lor_shiftl_add by lia; lia).
  replace (Z.lor (2 ^ t) (Z.shiftl q (t + 1)) - 1)
    with (Z.lor (2 ^ t - 1) (Z.shiftl q (t + 1)))
    by (rewrite !lor_shiftl_add by lia; lia).
  rewrite <- Z.lor_land_distr_l.
  replace (Z.land (2 ^ t) (2 ^ t - 1)) with 0.
  - rewrite Z.lor_0_l, Z.shiftl_mul_pow2 by lia. lia.
  - symmetry. apply Z.bits_inj'. intros n Hn.
    rewrite Z.land_spec, Z.bits_0.
    change (2 ^ t - 1) with (Z.pred (2 ^ t)). rewrite <- Z.ones_equiv.
    rewrite Z.testbit_ones_nonneg by lia.
    destruct (Z.ltb_spec n t); [|apply andb_false_r].
    rewrite Z.pow2_bits_false by lia. reflexivity.
Qed.

(** Every positive number is a power of two times an odd number. *)
Lemma odd_part (j : Z) :
  0 < j -> exists t q, 0 <= t /\ 0 <= q /\ j = 2 ^ t * (2 * q + 1).
Proof.
  destruct j as [|p|p]; try lia. intros _.
  induction p as [p _|p IH|].
  - exists 0, (Z.pos p). repeat split; lia.
  - destruct IH as (t & q & Ht & Hq & E).
    exists (t + 1), q. repeat split; try lia.
    rewrite Z.pow_add_r by lia. change (2 ^ 1) with 2.
    rewrite Pos2Z.inj_xO, E. ring.
  - exists 0, 0. repeat split; lia.
Qed.

Section CountBlock.

Variable W : Z.
Hypothesis W_pos : 0 < W.

(** One round on a non-zero block [2^t * (2q + 1)] below [2^W]. *)
Lemma count_block_round (fuel : nat) (t q c : Z) :
  0 <= t -> 0 <= q -> 2 ^ t * (2 * q + 1) < 2 ^ W ->
  bitset.count_block W (S fuel) (2 ^ t * (2 * q + 1)) c
  = bitset.count_block W fuel (2 ^ (t + 1) * q) (Block.wrap 64 (c + 1)).
Proof.
  intros Ht Hq Hlt.
  assert (0 < 2 ^ t) as Hp by (apply Z.pow_pos_nonneg; lia).
  assert (2 ^ (t + 1) = 2 * 2 ^ t) as Hs
    by (rewrite Z.pow_add_r by lia; change (2 ^ 1) with 2; lia).
  cbn [bitset.count_block].
  destruct (Z.eqb_spec (2 ^ t * (2 * q + 1)) 0) as [E|_]; [nia|].
  rewrite land_pred_clears_lowest by lia.
  now rewrite (wrap_small W (2 ^ (t + 1) * q)) by nia.
Qed.

(** [W] rounds are enough for any value of the block type: the loop of
    [count()] always leaves with a result. *)
Lemma count_block_enough_fuel (fuel : nat) :
  forall (t q c : Z),
    0 <= t -> 0 <= q -> 2 ^ t * q < 2 ^ W -> W <= t + Z.of_nat fuel ->
    exists c', bitset.count_block W fuel (2 ^ t * q) c = Some c'.
Proof.
  induction fuel as [|fuel IH]; intros t q c Ht Hq Hlt Hfuel.
  - assert (2 ^ W <= 2 ^ t) by (apply Z.pow_le_mono_r; lia).
    assert (q = 0) as -> by nia.
    exists c. simpl. now rewrite Z.mul_0_r.
  - destruct (Z.eq_dec q 0) as [->|Hq0].
    { exists c. cbn [bitset.count_block]. now rewrite Z.mul_0_r. }
    destruct (odd_part q ltac:(lia)) as (s & q' & Hs & Hq' & ->).
    assert (0 < 2 ^ t) by (apply Z.pow_pos_nonneg; lia).
    assert (0 < 2 ^ s) by (apply Z.pow_pos_nonneg; lia).
    replace (2 ^ t * (2 ^ s * (2 * q' + 1)))
      with (2 ^ (t + s) * (2 * q' + 1)) in *
      by (rewrite Z.pow_add_r by lia; ring).
    rewrite count_block_round by lia.
    replace (2 ^ (t + s + 1) * q') with (2 ^ (t + 1) * (2 ^ s * q'))
      by (rewrite !Z.pow_add_r by lia; ring).
    apply IH; try nia.
    rewrite Z.pow_add_r in * by lia. change (2 ^ 1) with 2. nia.
Qed.

Lemma count_block_total (j c : Z) :
  Block.in_range W j -> exists c', bitset.count_block W (Z.to_nat W) j c = Some c'.
Proof.
  intros [Hj0 Hj]. replace j with (2 ^ 0 * j) by (simpl; lia).
  apply count_block_enough_fuel; simpl; lia.
Qed.

(** The loop on a block whose bits [t .. W-1] are set and the others
    clear counts [W - t]. *)
Lemma count_block_high_ones (n : nat) :
  forall (fuel : nat) (t c : Z),
    0 <= t -> t + Z.of_nat n = W -> (n <= fuel)%nat ->
    0 <= c -> c + Z.of_nat n < 2 ^ 64 ->
    bitset.count_block W fuel (2 ^ W - 2 ^ t) c = Some (c + Z.of_nat n).
Proof.
  induction n as [|n IH]; intros fuel t c Ht HW Hfuel Hc Hsum.
  - replace t with W by lia. rewrite Z.sub_diag, Z.add_0_r.
    now destruct fuel.
  - destruct fuel as [|fuel]; [lia|].
    assert (0 < 2 ^ t) by (apply Z.pow_pos_nonneg; lia).
    assert (2 ^ W = 2 ^ t * (2 * 2 ^ (W - t - 1)))
      as EW by (rewrite <- (Z.pow_succ_r 2), <- Z.pow_add_r by lia;
                f_equal; lia).
    assert (0 < 2 ^ (W - t - 1)) by (apply Z.pow_pos_nonneg; lia).
    replace (2 ^ W - 2 ^ t)
      with (2 ^ t * (2 * (2 ^ (W - t - 1) - 1) + 1)) by lia.
    rewrite count_block_round by nia.
    replace (2 ^ (t + 1) * (2 ^ (W - t - 1) - 1)) with (2 ^ W - 2 ^ (t + 1))
      by (rewrite EW, Z.pow_add_r by lia; change (2 ^ 1) with 2; ring).
    rewrite wrap_small by lia.
    rewrite IH by lia. f_equal. lia.
Qed.

Lemma count_block_all_ones (c : Z) :
  0 <= c -> c + W < 2 ^ 64 ->
  bitset.count_block W (Z.to_nat W) (Block.max W) c = Some (c + W).
Proof.
  intros Hc Hsum. unfold Block.max.
  change 1 with (2 ^ 0).
  rewrite (count_block_high_ones (Z.to_nat W)) by lia.
  f_equal. lia.
Qed.

End CountBlock.

(** ** Whole-container fill and count, in general *)

(** The block-assignment loop [for (i = a; i < b; ++i) m_data[i] = v]. *)
Lemma fill_loop (v : Z) (d : list Z) (a b : Z) :
  0 <= a <= b -> b <= Z.of_nat (length d) ->
  exists d',
    iter_range a b (fun i t => Arr.put t i v) d = Some d'
    /\ length d' = length d
    /\ forall k : nat,
         d' !! k = if (a <=? Z.of_nat k) && (Z.of_nat k <? b)
                   then Some v else d !! k.
Proof.
  intros Hab Hb.
  destruct (iter_range_inv
              (fun i t => length t = length d
                          /\ forall k : nat,
                               t !! k = if (a <=? Z.of_nat k) && (Z.of_nat k <? i)
                                        then Some v else d !! k)
              (fun i t => Arr.put t i v) a b d ltac:(lia))
    as (d' & E & Hlen & Hd').
  - split; [reflexivity|]. intros k.
    destruct (Z.leb_spec a (Z.of_nat k)), (Z.ltb_spec (Z.of_nat k) a);
      simpl; try reflexivity; lia.
  - intros i t Hi (Hlen & Ht).
    exists (<[Z.to_nat i := v]> t). split; [apply put_in_range; lia|].
    split; [now rewrite length_insert|]. intros k.
    destruct (decide (k = Z.to_nat i)) as [->|Hne].
    + rewrite list_lookup_insert_eq by lia.
      destruct (Z.leb_spec a (Z.of_nat (Z.to_nat i))),
               (Z.ltb_spec (Z.of_nat (Z.to_nat i)) (i + 1));
        simpl; try reflexivity; lia.
    + rewrite list_lookup_insert_ne, Ht by congruence.
      destruct (Z.leb_spec a (Z.of_nat k)); simpl; [|reflexivity].
      destruct (Z.ltb_spec (Z.of_nat k) i), (Z.ltb_spec (Z.of_nat k) (i + 1));
        try reflexivity; lia.
  - exists d'. auto.
Qed.

Lemma fill_loop_all (v : Z) (d : list Z) :
  iter_range 0 (Z.of_nat (length d)) (fun i t => Arr.put t i v) d
  = Some (replicate (length d) v).
Proof.
  destruct (fill_loop v d 0 (Z.of_nat (length d))) as (d' & E & Hlen & Hd');
    [lia | lia |].
  rewrite E. f_equal. apply list_eq. intros k. rewrite Hd'.
  replace (0 <=? Z.of_nat k) with true by (symmetry; apply Z.leb_le; lia).
  destruct (Z.ltb_spec (Z.of_nat k) (Z.of_nat (length d))); simpl.
  - symmetry. apply lookup_replicate_2. lia.
  - rewrite lookup_ge_None_2 by lia. symmetry.
    apply lookup_ge_None_2. rewrite length_replicate. lia.
Qed.

Lemma bytes_rep_255 (n : nat) :
  Arr.bytes_rep n 255 = 2 ^ (8 * Z.of_nat n) - 1.
Proof.
  induction n as [|n IH]; [reflexivity|].
  cbn [Arr.bytes_rep]. rewrite IH.
  assert (0 < 2 ^ (8 * Z.of_nat n)) by (apply Z.pow_pos_nonneg; lia).
  rewrite lor_shiftl_add by (simpl; lia).
  replace (8 * Z.of_nat (S n)) with (8 * Z.of_nat n + 8) by lia.
  rewrite Z.pow_add_r by lia. change (2 ^ 8) with 256. lia.
Qed.

Section FillAndCount.

Variables (W Size : Z) (d : list Z).
Hypothesis W_ok : Block.width_ok W.
Hypothesis d_len : Z.of_nat (length d) = bitset.m_storage_size W Size.
(** The array is an object: its size in bytes is a [size_t]. *)
Hypothesis bytes_fit : bitset.m_storage_size W Size * Arr.sizeof W < 2 ^ 64.

(** [set()] makes every block all-ones, on either branch. *)
Lemma set_all_value (ce : bool) :
  bitset.set_all W Size ce d = Some (replicate (length d) (Block.max W)).
Proof.
  destruct (width_ok_facts W W_ok) as (HW & Hsz & Hpos).
  unfold bitset.set_all. rewrite <- d_len in *. destruct ce.
  - replace (Block.wrap W (-1)) with (Block.max W); [apply fill_loop_all|].
    unfold Block.wrap, Block.max.
    assert (0 < 2 ^ W) by (apply Z.pow_pos_nonneg; lia).
    apply (Z.mod_unique_pos _ _ (-1)); lia.
  - rewrite wrap_small by lia.
    rewrite memset_whole_blocks by lia.
    rewrite Z.add_0_l, Nat2Z.id, drop_ge, app_nil_r by lia.
    change (Block.wrap 8 255) with 255. rewrite bytes_rep_255.
    change (Z.to_nat 0) with O. cbn [take app]. unfold Block.max.
    now replace (8 * Z.of_nat (Z.to_nat (Arr.sizeof W))) with W by lia.
Qed.

(** [clear()] makes every block zero, on either branch. *)
Lemma clear_all_value (ce : bool) :
  bitset.clear_all W Size ce d = Some (replicate (length d) 0).
Proof.
  destruct (width_ok_facts W W_ok) as (HW & Hsz & Hpos).
  unfold bitset.clear_all. rewrite <- d_len in *. destruct ce.
  - apply fill_loop_all.
  - rewrite wrap_small by lia. now apply memset_zero_all.
Qed.

(** [count()] of an array whose blocks all hold [v], when the inner loop
    adds [p] for such a block. *)
Lemma count_uniform (v p : Z) :
  0 <= p ->
  Z.of_nat (length d) * p < 2 ^ 64 ->
  (forall c, 0 <= c -> c + p < 2 ^ 64 ->
     bitset.count_block W (Z.to_nat W) v c = Some (c + p)) ->
  bitset.count W Size (replicate (length d) v)
  = Some (Z.of_nat (length d) * p).
Proof.
  intros Hp Hbound Hblock. unfold bitset.count. rewrite <- d_len.
  destruct (iter_range_inv
              (fun i c => c = i * p)
              (fun i count =>
                 j ← Arr.get (replicate (length d) v) i;
                 bitset.count_block W (Z.to_nat W) j count)
              0 (Z.of_nat (length d)) 0 ltac:(lia) eq_refl)
    as (c & Ec & ->); [|exact Ec].
  intros i c Hi ->. exists ((i + 1) * p).
  rewrite get_lookup, lookup_replicate_2 by lia. cbn [mbind option_bind].
  rewrite Hblock by nia. split; [f_equal; ring | reflexivity].
Qed.

(** After [set()], [count()] is the number of bits of the storage,
    [m_storage_size * W]: the padding of a partial last block counts. *)
Lemma count_after_set_all (ce : bool) :
  bitset.m_storage_size W Size * W < 2 ^ 64 ->
  (t ← bitset.set_all W Size ce d; bitset.count W Size t)
  = Some (bitset.m_storage_size W Size * W).
Proof.
  intros Hbound. destruct (width_ok_facts W W_ok) as (HW & _).
  rewrite set_all_value. cbn [mbind option_bind]. rewrite <- d_len in *.
  apply count_uniform; [lia | assumption |].
  intros c Hc Hsum. apply count_block_all_ones; lia.
Qed.

(** After [clear()], [count()] is 0. *)
Lemma count_after_clear_all (ce : bool) :
  (t ← bitset.clear_all W Size ce d; bitset.count W Size t) = Some 0.
Proof.
  rewrite clear_all_value. cbn [mbind option_bind].
  rewrite (count_uniform 0 0); [f_equal; lia | lia | lia |].
  intros c _ _. rewrite Z.add_0_r. now destruct (Z.to_nat W).
Qed.

End FillAndCount.

(** So [count()] after [set()] is [Size] exactly when [Size] is a multiple
    of the block width. *)
Lemma storage_bits_vs_size (W Size : Z) :
  0 < W -> 0 <= Size ->
  (bitset.m_storage_size W Size * W = Size <-> Size mod W = 0).
Proof.
  intros HW HS.
  unfold bitset.m_storage_size, bitset.m_partial_size, bitset.m_block_size.
  pose proof (Z.div_mod Size W ltac:(lia)).
  pose proof (Z.mod_pos_bound Size W HW).
  destruct (Z.eqb_spec (Size mod W) 0); nia.
Qed.

(** ** Population count after a whole-container fill *)

(** C5.  [bitset<uint8_t, 5>]: [set()] writes all-ones into the one
    block, the three bits above [m_partial_size] included, and [count()]
    counts every bit of every block: it returns 8, not 5, on both the
    compile-time and the run-time branch, and likewise 64 for
    [bitset<uint32_t, 40>].  After [clear()] it returns 0, and on the
    block-aligned [bitset<uint8_t, 16>] [set()] gives 16. *)
Theorem count_after_set_counts_padding :
  (d ← bitset.set_all 8 5 true [0]; bitset.count 8 5 d) = Some 8
  /\ (d ← bitset.set_all 8 5 false [0]; bitset.count 8 5 d) = Some 8
  /\ (d ← bitset.set_all 32 40 false [0; 0]; bitset.count 32 40 d) = Some 64
  /\ (d ← bitset.clear_all 8 5 true [255]; bitset.count 8 5 d) = Some 0
  /\ (d ← bitset.clear_all 8 5 false [255]; bitset.count 8 5 d) = Some 0
  /\ (d ← bitset.set_all 8 16 false [0; 0]; bitset.count 8 16 d) = Some 16.
Proof. repeat split. Qed.

(** ** [set_range(begin, end)], compile-time branch, in general *)

Section SetRange.

Variable W : Z.
Hypothesis W_pos : 0 < W.

Local Abbreviation test := (bitset.test W).

(** The bit-by-bit loop over one block: bits [a .. b-1] of block [q]. *)
Lemma set_bits_loop (t : list Z) (q a b : Z) :
  0 <= q < Z.of_nat (length t) -> 0 <= a <= b -> b <= W ->
  exists t',
    iter_range a b
      (fun i t => m ← Block.one_shl W i;
                  Arr.upd t q (fun x => Block.or_mask W x m)) t = Some t'
    /\ length t' = length t
    /\ forall k, 0 <= k ->
         test t' k = if (q * W + a <=? k) && (k <? q * W + b)
                     then Some true else test t k.
Proof.
  intros Hq Ha Hb.
  apply (iter_range_inv
           (fun i t' =>
              length t' = length t
              /\ forall k, 0 <= k ->
                   test t' k = if (q * W + a <=? k) && (k <? q * W + i)
                               then Some true else test t k)).
  - lia.
  - split; [reflexivity|]. intros k Hk.
    destruct (Z.leb_spec (q * W + a) k), (Z.ltb_spec k (q * W + a));
      try reflexivity; lia.
  - intros i t' Hi (Hlen & Ht').
    assert ((q * W + i) mod W = i) as Emod
      by (rewrite Z.add_comm, Z.mod_add by lia; apply Z.mod_small; lia).
    assert ((q * W + i) / W = q) as Ediv
      by (rewrite Z.add_comm, Z.div_add by lia;
          rewrite Z.div_small by lia; lia).
    destruct (rmw_bit W W_pos (fun x m => Block.or_mask W x m)
                (fun _ => true) t' (q * W + i))
      as (t'' & E & T & Hlen' & Hframe).
    + intros x k j Hk Hj. rewrite or_mask_bit by lia.
      destruct (j =? k); [apply orb_true_r | apply orb_false_r].
    + nia.
    + rewrite Ediv. lia.
    + rewrite Emod, Ediv in E. exists t''. split; [exact E|].
      split; [congruence|]. intros k Hk.
      destruct (Z.eq_dec k (q * W + i)) as [->|Hne].
      * rewrite T.
        assert (exists v0, test t' (q * W + i) = Some v0) as [v0 ->].
        { rewrite test_spec, Ediv by nia.
          destruct (lookup_lt_is_Some_2 t' (Z.to_nat q) ltac:(lia))
            as [x ->]. now eexists. }
        destruct (Z.leb_spec (q * W + a) (q * W + i)),
                 (Z.ltb_spec (q * W + i) (q * W + (i + 1)));
          try reflexivity; lia.
      * rewrite Hframe, Ht' by assumption.
        destruct (Z.leb_spec (q * W + a) k); [|reflexivity]. cbn [andb].
        destruct (Z.ltb_spec k (q * W + i)), (Z.ltb_spec k (q * W + (i + 1)));
          try reflexivity; lia.
Qed.

Lemma max_bit (j : Z) : 0 <= j < W -> Z.testbit (Block.max W) j = true.
Proof.
  intros Hj. unfold Block.max.
  change (2 ^ W - 1) with (Z.pred (2 ^ W)). rewrite <- Z.ones_equiv.
  apply Z.ones_spec_low. lia.
Qed.

(** The bulk loop over whole blocks [a .. b-1]. *)
Lemma set_blocks_loop (t : list Z) (a b : Z) :
  0 <= a -> b <= Z.of_nat (length t) ->
  exists t',
    iter_range a b (fun i t => Arr.put t i (Block.max W)) t = Some t'
    /\ length t' = length t
    /\ forall k, 0 <= k ->
         test t' k = if (a * W <=? k) && (k <? b * W)
                     then Some true else test t k.
Proof.
  intros Ha Hb. destruct (Z.le_gt_cases a b) as [Hab|Hab].
  - destruct (fill_loop (Block.max W) t a b) as (t' & E & Hlen & Ht');
      [lia | lia |].
    exists t'. split; [exact E|]. split; [exact Hlen|]. intros k Hk.
    assert (0 <= k mod W < W) by (apply Z.mod_pos_bound; lia).
    assert (0 <= k / W) by (apply Z.div_pos; lia).
    pose proof (Z.div_mod k W ltac:(lia)) as Ek.
    rewrite !test_spec, Ht', Z2Nat.id by lia.
    destruct (Z.leb_spec a (k / W)), (Z.ltb_spec (k / W) b),
             (Z.leb_spec (a * W) k), (Z.ltb_spec k (b * W));
      cbn [andb fmap option_fmap option_map]; try reflexivity; try nia.
    now rewrite max_bit.
  - exists t. rewrite iter_range_empty by lia.
    split; [reflexivity|]. split; [reflexivity|]. intros k Hk.
    destruct (Z.leb_spec (a * W) k), (Z.ltb_spec k (b * W));
      cbn [andb]; try reflexivity; nia.
Qed.

(** The compile-time branch fills exactly [[begin, end)], except for a
    non-empty range that begins on a block boundary and ends inside the
    same block, which it leaves untouched
    ([set_range_aligned_same_block]). *)
Lemma set_range_consteval (d : list Z) (begin end_ : Z) :
  0 <= begin <= end_ -> end_ <= Z.of_nat (length d) * W ->
  ~ (begin mod W = 0 /\ begin / W = end_ / W /\ begin < end_) ->
  exists d',
    bitset.set_range W true d begin end_ = Some d'
    /\ length d' = length d
    /\ forall k, 0 <= k ->
         test d' k = if (begin <=? k) && (k <? end_)
                     then Some true else test d k.
Proof.
  intros Hbe Hend Hcase.
  pose proof (Z.div_mod begin W ltac:(lia)) as Eb.
  pose proof (Z.div_mod end_ W ltac:(lia)) as Ee.
  pose proof (Z.mod_pos_bound begin W W_pos) as Hrb.
  pose proof (Z.mod_pos_bound end_ W W_pos) as Hre.
  assert (0 <= begin / W) as Hqb by (apply Z.div_pos; lia).
  assert (begin / W <= end_ / W) as Hqq by (apply Z.div_le_mono; lia).
  unfold bitset.set_range, bitset.m_block_size.
  set (qb := begin / W) in *. set (rb := begin mod W) in *.
  set (qe := end_ / W) in *. set (re := end_ mod W) in *.
  set (n := Z.of_nat (length d)) in *.
  assert (qe <= n) as Hqe by nia.
  assert (re <> 0 -> qe < n) as Hqe' by nia.
  assert (qb < qe -> qb * W + W <= qe * W) as Hmono by nia.
  (* leading block *)
  assert (exists d1,
            (if negb (rb =? 0)
             then iter_range rb (if qb =? qe then re else W)
                    (fun i t => m ← Block.one_shl W i;
                                Arr.upd t qb (fun x => Block.or_mask W x m)) d
             else Some d) = Some d1
            /\ length d1 = length d
            /\ forall k, 0 <= k ->
                 test d1 k
                 = if negb (rb =? 0) && (begin <=? k)
                      && (k <? (if qb =? qe then end_ else qb * W + W))
                   then Some true else test d k) as (d1 & E1 & L1 & T1).
  { destruct (Z.eqb_spec rb 0) as [Erb|Nrb]; cbn [negb andb].
    - exists d. auto.
    - destruct (set_bits_loop d qb rb (if qb =? qe then re else W))
        as (d1 & E & L & T).
      + destruct (Z.eqb_spec qb qe); nia.
      + destruct (Z.eqb_spec qb qe); nia.
      + destruct (Z.eqb_spec qb qe); lia.
      + exists d1. split; [exact E|]. split; [exact L|]. intros k Hk.
        rewrite T by lia.
        replace (qb * W + rb) with begin by lia.
        destruct (Z.eqb_spec qb qe) as [Eq|Nq];
          [replace (qb * W + re) with end_ by (rewrite Eq; lia)|];
          reflexivity. }
  rewrite E1. cbn [mbind option_bind].
  (* trailing block *)
  assert (exists d2,
            (if negb (re =? 0) && negb (qb =? qe)
             then iter_range 0 re
                    (fun i t => m ← Block.one_shl W i;
                                Arr.upd t qe (fun x => Block.or_mask W x m)) d1
             else Some d1) = Some d2
            /\ length d2 = length d
            /\ forall k, 0 <= k ->
                 test d2 k
                 = if negb (re =? 0) && negb (qb =? qe)
                      && (qe * W <=? k) && (k <? end_)
                   then Some true else test d1 k) as (d2 & E2 & L2 & T2).
  { destruct (Z.eqb_spec re 0) as [Ere|Nre]; cbn [negb andb].
    - exists d1. auto.
    - destruct (Z.eqb_spec qb qe) as [Eq|Nq]; cbn [negb andb].
      + exists d1. auto.
      + destruct (set_bits_loop d1 qe 0 re) as (d2 & E & L & T);
          [rewrite L1; lia | lia | lia |].
        exists d2. split; [exact E|]. split; [congruence|]. intros k Hk.
        rewrite T by lia.
        replace (qe * W + 0) with (qe * W) by lia.
        replace (qe * W + re) with end_ by lia. reflexivity. }
  rewrite E2. cbn [mbind option_bind].
  (* whole blocks *)
  destruct (set_blocks_loop d2 (qb + (if negb (rb =? 0) then 1 else 0)) qe)
    as (d3 & E3 & L3 & T3).
  { destruct (rb =? 0); cbn [negb]; lia. }
  { rewrite L2. lia. }
  exists d3. split; [exact E3|]. split; [congruence|]. intros k Hk.
  rewrite T3, T2, T1 by lia. clear E1 E2 E3 T1 T2 T3.
  destruct (Z.eqb_spec rb 0) as [Erb|Nrb], (Z.eqb_spec re 0) as [Ere|Nre],
           (Z.eqb_spec qb qe) as [Eq|Nq]; cbn [negb andb];
    repeat match goal with
           | |- context [?x <=? ?y] => destruct (Z.leb_spec x y)
           | |- context [?x <? ?y] => destruct (Z.ltb_spec x y)
           end; cbn [andb]; try reflexivity; exfalso; nia.
Qed.

End SetRange.

(** ** Range fill *)

(** A range that begins on a block boundary and ends inside the same
    block matches neither the leading-block case ([begin % W] is zero) nor
    the trailing-block case (the two block indices are equal), and no
    whole block lies in it: the compile-time branch writes nothing. *)
Lemma set_range_aligned_same_block (W : Z) (d : list Z) (begin end_ : Z) :
  begin mod W = 0 -> begin / W = end_ / W ->
  bitset.set_range W true d begin end_ = Some d.
Proof.
  intros Hb Hq. unfold bitset.set_range, bitset.m_block_size.
  rewrite Hb, Hq, !Z.eqb_refl. simpl.
  rewrite andb_false_r. simpl.
  unfold iter_range. now rewrite Z.add_0_r, Z.sub_diag.
Qed.

(** C2.  [bitset<uint8_t, 8>], all bits clear, [set_range(0, 5)]: begin
    is block aligned and end lies in the same block.  Neither branch of
    the function writes anything, so bits 0..4 still read [false]; the
    dynamic container, whose body is the run-time branch, does the same.
    A range with an unaligned begin, [set_range(2, 5)], is filled. *)
Theorem set_range_0_5_sets_nothing :
  bitset.set_range 8 true [0] 0 5 = Some [0]
  /\ bitset.set_range 8 false [0] 0 5 = Some [0]
  /\ bitset.test 8 [0] 0 = Some false
  /\ (forall junk,
        (b ← dynamic_bitset.of_size 8 junk 8;
         b' ← dynamic_bitset.set_range 8 b 0 5;
         dynamic_bitset.test 8 b' 0) = Some false)
  /\ bitset.set_range 8 true [0] 2 5 = Some [28]
  /\ bitset.set_range 8 false [0] 2 5 = Some [28].
Proof. repeat split. Qed.

(** The run-time branch sizes its [memset] as
    [(end - begin) / W * sizeof(BlockType) - to_sub]: for
    [bitset<uint8_t, 24>] and [set_range(7, 17)] that is [1 - 1 = 0]
    bytes, and block 1, which lies wholly inside the range, is not
    written, while the compile-time branch fills it; for
    [set_range(3, 9)] the count is [0 - 1], which wraps. *)
Lemma set_range_runtime_branch :
  bitset.set_range 8 true [0; 0; 0] 7 17 = Some [128; 255; 1]
  /\ bitset.set_range 8 false [0; 0; 0] 7 17 = Some [128; 0; 1]
  /\ bitset.set_range 8 true [0; 0; 0] 3 9 = Some [248; 1; 0]
  /\ bitset.set_range 8 false [0; 0; 0] 3 9 = None.
Proof. repeat split. Qed.

(** ** [push_back] and [pop_back] away from a block boundary *)

Section PushInsideBlock.

Variables (W : Z) (junk : Z -> Z) (b : dynamic_bitset.t) (d : list Z).
Hypothesis W_ok : Block.width_ok W.

Local Abbreviation size := (dynamic_bitset.m_size b).

(** The state is consistent, and the size is not a multiple of [W]. *)
Hypothesis data_some : dynamic_bitset.m_data b = Some d.
Hypothesis size_range : 0 <= size /\ size + 1 < 2 ^ 64.
Hypothesis partial_ok : dynamic_bitset.m_partial_size b = size mod W.
Hypothesis storage_ok : dynamic_bitset.m_storage_size b = size / W + 1.
Hypothesis alloc_ok : dynamic_bitset.m_storage_size b <= Z.of_nat (length d).
Hypothesis inside : size mod W <> 0.

(** [push_back(v)] adds one to the size, stores [v] at the new last
    index and keeps every other bit; the [pop_back()] that follows
    restores the size, [m_partial_size] and [m_storage_size], and keeps
    the array. *)
Lemma push_back_pop_back_inside_block (v : bool) :
  exists d',
    let b' := dynamic_bitset.mk (size mod W + 1) (size / W + 1) (size + 1)
                (Some d') in
    dynamic_bitset.push_back W junk b v = Some b'
    /\ dynamic_bitset.test W b' (dynamic_bitset.m_size b' - 1) = Some v
    /\ (forall j, 0 <= j -> j <> size ->
          dynamic_bitset.test W b' j = dynamic_bitset.test W b j)
    /\ dynamic_bitset.pop_back W junk b'
       = Some (dynamic_bitset.mk (size mod W) (size / W + 1) size (Some d')).
Proof.
  destruct (width_ok_facts W W_ok) as (HW & _).
  pose proof (Z.mod_pos_bound size W ltac:(lia)) as Hmod.
  assert (0 <= size / W) as Hq by (apply Z.div_pos; lia).
  assert (Z.to_nat (size / W) < length d)%nat as Hin by lia.
  assert (exists v0, bitset.test W d size = Some v0) as [v0 Hv0].
  { rewrite test_spec by lia.
    destruct (lookup_lt_is_Some_2 d _ Hin) as [x ->]. now eexists. }
  destruct (rmw_bit W ltac:(lia)
              (fun x m => if v then Block.or_mask W x m
                          else Block.clear_mask W x m)
              (fun _ => v) d size) as (d' & E & T & Hlen & Hframe);
    [| lia | exact Hin |].
  { intros x k j Hk Hj. destruct v.
    - rewrite or_mask_bit by lia.
      destruct (j =? k); [apply orb_true_r | apply orb_false_r].
    - rewrite clear_mask_bit by lia.
      destruct (j =? k); [apply andb_false_r | apply andb_true_r]. }
  exists d'. cbn zeta.
  assert (dynamic_bitset.push_back W junk b v
          = Some (dynamic_bitset.mk (size mod W + 1) (size / W + 1)
                    (size + 1) (Some d'))) as Epush.
  { unfold dynamic_bitset.push_back, dynamic_bitset.m_block_size.
    destruct (Z.eqb_spec (size mod W) 0) as [|_]; [contradiction|].
    cbn [mbind option_bind dynamic_bitset.m_partial_size
         dynamic_bitset.m_storage_size dynamic_bitset.m_data
         dynamic_bitset.m_size dynamic_bitset.with_data].
    rewrite partial_ok, storage_ok, data_some.
    rewrite (wrap_small 8) by (change (2 ^ 8) with 256; lia).
    rewrite (wrap_small 64) by lia.
    replace (size mod W + 1 - 1) with (size mod W) by lia.
    replace (size / W + 1 - 1) with (size / W) by lia.
    cbn [mbind option_bind] in *. unfold bitset.m_block_size in *.
    destruct (Block.one_shl W (size mod W)) as [m|]; [|discriminate E].
    cbn [mbind option_bind] in *. now rewrite E. }
  split; [exact Epush|]. split; [|split].
  - unfold dynamic_bitset.test. cbn [dynamic_bitset.m_data
      dynamic_bitset.m_size mbind option_bind].
    replace (size + 1 - 1) with size by lia.
    rewrite T, Hv0. reflexivity.
  - intros j Hj Hne. unfold dynamic_bitset.test.
    rewrite data_some. cbn [dynamic_bitset.m_data mbind option_bind].
    now apply Hframe.
  - unfold dynamic_bitset.pop_back, dynamic_bitset.m_block_size.
    cbn [dynamic_bitset.m_partial_size dynamic_bitset.m_storage_size
         dynamic_bitset.m_data dynamic_bitset.m_size].
    replace (size + 1 - 1) with size by lia.
    rewrite (wrap_small 64 size) by lia.
    destruct (Z.eqb_spec (size mod W) 0) as [|_]; [contradiction|].
    replace (size mod W + 1 - 1) with (size mod W) by lia.
    now rewrite (wrap_small 8) by (change (2 ^ 8) with 256; lia).
Qed.

End PushInsideBlock.

(** On a block boundary [push_back] has no defined result: it resets
    [m_partial_size] to 0 and then shifts by [m_partial_size - 1]. *)
Lemma push_back_on_boundary (W : Z) (junk : Z -> Z) (b : dynamic_bitset.t)
    (v : bool) :
  dynamic_bitset.m_size b mod W = 0 ->
  dynamic_bitset.push_back W junk b v = None.
Proof.
  intros Hb. unfold dynamic_bitset.push_back, dynamic_bitset.m_block_size.
  rewrite Hb, Z.eqb_refl.
  destruct (match dynamic_bitset.m_data b with
            | Some d => _ | None => _ end) as [d1|]; [|reflexivity].
  cbn [mbind option_bind].
  destruct (Arr.put d1 _ 0) as [d2|]; reflexivity.
Qed.

(** [pop_back] that lands on a block boundary takes two off the size. *)
Lemma pop_back_onto_boundary (W : Z) (junk : Z -> Z) (b b' : dynamic_bitset.t) :
  0 < W -> 1 < dynamic_bitset.m_size b < 2 ^ 64 ->
  (dynamic_bitset.m_size b - 1) mod W = 0 ->
  dynamic_bitset.pop_back W junk b = Some b' ->
  dynamic_bitset.m_size b' = dynamic_bitset.m_size b - 2
  /\ dynamic_bitset.m_partial_size b' = 0.
Proof.
  intros HW Hs Hb. unfold dynamic_bitset.pop_back, dynamic_bitset.m_block_size.
  rewrite (wrap_small 64 (dynamic_bitset.m_size b - 1)) by lia.
  rewrite Hb, Z.eqb_refl.
  destruct (Z.eqb_spec (dynamic_bitset.m_size b - 1) 0); [lia|].
  cbn [negb]. destruct (dynamic_bitset.m_data b) as [d|]; [|discriminate].
  cbn [mbind option_bind].
  destruct (Arr.copy d _ _) as [d1|]; [|discriminate].
  cbn [mbind option_bind]. intros [= <-].
  cbn [dynamic_bitset.m_size dynamic_bitset.m_partial_size].
  split; [|reflexivity]. rewrite wrap_small; lia.
Qed.

(** ** [resize] *)



(** The other mutators on [dynamic_bitset<uint8_t>(8)] (one block,
    allocated exactly): [resize(3)], which allocates three blocks, and
    [insert_block(0, 7)] keep the invariant; [push_back_block(7)] copies [m_storage_size + 1] blocks out
    of the one-block array, a read past its end. *)
Lemma mutators_on_one_block (junk : Z -> Z) :
  exists b8,
    dynamic_bitset.of_size 8 junk 8 = Some b8
    /\ dynamic_bitset.resize 8 junk b8 3
       = Some (dynamic_bitset.mk 3 1 3 (Some [0; 0; 0]))
    /\ dynamic_bitset.insert_block 8 junk b8 0 7
       = Some (dynamic_bitset.mk 0 2 16 (Some [7; 0]))
    /\ dynamic_bitset.push_back_block 8 junk b8 7 = None.
Proof. eexists. repeat split. Qed.

(** ** Growth and shrinking of the dynamic container *)

(** C3.  Three runs of [dynamic_bitset<uint8_t>].
    - [push_back] on the empty container, and on one of 8 bits: the size
      was a multiple of the block width, so [m_partial_size] is reset to 0
      and the mask is [BlockType{1} << (0 - 1)], a shift by a negative
      count; there is no defined result.
    - [dynamic_bitset(9)], [pop_back()]: the size goes from 9 to 7 (it is
      decremented twice) and [m_partial_size] is 0.  [push_back(true)]
      then makes the size 8, but writes bit 0: [test(size() - 1)] is
      [false], and bit 0, an index below the old size, changed from
      [false] to [true].
    - [dynamic_bitset(3)], [push_back(true)], [pop_back()]: away from a
      block boundary the size goes 3, 4, 3 and the new bit reads [true]. *)
Theorem push_back_at_block_boundary :
  (forall junk v,
     dynamic_bitset.push_back 8 junk (dynamic_bitset.mk 0 0 0 None) v = None)
  /\ (forall junk v,
        (b ← dynamic_bitset.of_size 8 junk 8;
         dynamic_bitset.push_back 8 junk b v) = None)
  /\ (forall junk,
        exists b9 b7 b8,
          dynamic_bitset.of_size 8 junk 9 = Some b9
          /\ dynamic_bitset.m_size b9 = 9
          /\ dynamic_bitset.pop_back 8 junk b9 = Some b7
          /\ dynamic_bitset.m_size b7 = 7
          /\ dynamic_bitset.test 8 b7 0 = Some false
          /\ dynamic_bitset.push_back 8 junk b7 true = Some b8
          /\ dynamic_bitset.m_size b8 = 8
          /\ dynamic_bitset.test 8 b8 (dynamic_bitset.m_size b8 - 1)
             = Some false
          /\ dynamic_bitset.test 8 b8 0 = Some true)
  /\ (forall junk,
        exists b3 b4 b3',
          dynamic_bitset.of_size 8 junk 3 = Some b3
          /\ dynamic_bitset.push_back 8 junk b3 true = Some b4
          /\ dynamic_bitset.m_size b4 = 4
          /\ dynamic_bitset.test 8 b4 3 = Some true
          /\ dynamic_bitset.pop_back 8 junk b4 = Some b3'
          /\ dynamic_bitset.m_size b3' = 3).
Proof.
  split; [reflexivity|]. split; [reflexivity|]. split.
  - intros junk. do 3 eexists. repeat split.
  - intros junk. do 3 eexists. repeat split.
Qed.

(** C4.  [dynamic_bitset<uint8_t>].
    - [dynamic_bitset(1)] satisfies the invariant.  [pop_back()] on it
      takes the block-boundary branch, releases the array, and then
      decrements [m_size] a second time: the size wraps to [2^64 - 1]
      while [m_storage_size] is 0 and [m_data] is null.
    - [dynamic_bitset(8)] satisfies the invariant.  [pop_back_block()] on
      it leaves size 0 with [m_data] pointing at a zero-length array
      rather than null.
    - [resize(0)] on the same container does release the array. *)
Theorem pop_back_breaks_invariant :
  (forall junk,
     exists b1 b',
       dynamic_bitset.of_size 8 junk 1 = Some b1
       /\ dynamic_bitset.invariant 8 b1
       /\ dynamic_bitset.pop_back 8 junk b1 = Some b'
       /\ b' = dynamic_bitset.mk 0 0 (2 ^ 64 - 1) None
       /\ ~ dynamic_bitset.invariant 8 b')
  /\ (forall junk,
        exists b8 b',
          dynamic_bitset.of_size 8 junk 8 = Some b8
          /\ dynamic_bitset.invariant 8 b8
          /\ dynamic_bitset.pop_back_block 8 junk b8 = Some b'
          /\ b' = dynamic_bitset.mk 0 0 0 (Some [])
          /\ ~ dynamic_bitset.invariant 8 b'
          /\ dynamic_bitset.resize 8 junk b8 0
             = Some (dynamic_bitset.mk 0 0 0 None)).
Proof.
  split; intros junk; do 2 eexists.
  - split; [reflexivity|]. split.
    { split; [reflexivity|]. split; discriminate. }
    split; [reflexivity|]. split; [reflexivity|].
    intros [H _]. vm_compute in H. discriminate H.
  - split; [reflexivity|]. split.
    { split; [reflexivity|]. split; discriminate. }
    split; [reflexivity|]. split; [reflexivity|]. split; [|reflexivity].
    intros [_ [_ H]]. specialize (H eq_refl). discriminate H.
Qed.

(** ** A freshly constructed dynamic container *)

Section FreshDynamic.

Variables (W : Z) (junk : Z -> Z) (n : Z).
Hypothesis W_ok : Block.width_ok W.
Hypothesis n_range : 0 <= n < 2 ^ 64.

Local Abbreviation partial := (n mod W).
Local Abbreviation storage := (n / W + (if n mod W =? 0 then 0 else 1)).

Lemma fresh_bounds :
  0 <= partial < W /\ 0 <= n / W /\ 0 <= storage
  /\ storage * Arr.sizeof W < 2 ^ 64 /\ storage < 2 ^ 64
  /\ (partial <> 0 -> n / W < storage)
  /\ (forall i, 0 <= i < n -> 0 <= i / W < storage).
Proof.
  destruct (width_ok_facts W W_ok) as (HW & Hsz & Hpos).
  assert (0 <= partial < W) by (apply Z.mod_pos_bound; lia).
  assert (0 <= n / W) by (apply Z.div_pos; lia).
  assert (n / W * W <= n) by (pose proof (Z.div_mod n W); nia).
  assert (0 <= storage <= n / W + 1) by (destruct (partial =? 0); lia).
  assert (2 ^ 64 = 18446744073709551616) as E64 by reflexivity.
  repeat split; try lia; try nia.
  - intros Hp. destruct (Z.eqb_spec partial 0); lia.
  - apply Z.div_pos; lia.
  - apply (block_index_in_storage W n); lia.
Qed.

(** The state [dynamic_bitset(n)] constructs. *)
Lemma of_size_value :
  dynamic_bitset.of_size W junk n
  = Some (dynamic_bitset.mk partial storage n
            (Some (replicate (Z.to_nat storage) 0))).
Proof.
  destruct (width_ok_facts W W_ok) as (HW & Hsz & Hpos).
  destruct fresh_bounds as (Hp & Hq & Hs & Hbytes & Hs64 & _).
  unfold dynamic_bitset.of_size, dynamic_bitset.m_block_size.
  rewrite (wrap_small 8 partial) by (change (2 ^ 8) with 256; lia).
  rewrite (wrap_small 64 storage) by lia.
  unfold dynamic_bitset.clear_all. cbn [dynamic_bitset.m_data
    dynamic_bitset.m_storage_size mbind option_bind].
  rewrite (wrap_small 64 (storage * Arr.sizeof W)) by nia.
  assert (length (dynamic_bitset.new_array junk storage) = Z.to_nat storage)
    as Hlen by (unfold dynamic_bitset.new_array;
                now rewrite length_map, length_seqZ).
  replace (storage * Arr.sizeof W)
    with (Z.of_nat (length (dynamic_bitset.new_array junk storage))
          * Arr.sizeof W) by (now rewrite Hlen, Z2Nat.id by lia).
  rewrite memset_zero_all by lia. now rewrite Hlen.
Qed.

End FreshDynamic.

(** C10.  [dynamic_bitset(n)], for every block type and every [n] that a
    [size_type] can hold, whatever the freshly allocated array held:
    construction has a defined result, the size is [n], [test(i)] is
    [false] for every [i < n], [none()] is [true] and [count()] is 0. *)
Theorem of_size_zero_initialized (W : Z) (junk : Z -> Z) (n : Z) :
  Block.width_ok W -> 0 <= n < 2 ^ 64 ->
  exists b,
    dynamic_bitset.of_size W junk n = Some b
    /\ dynamic_bitset.m_size b = n
    /\ (forall i, 0 <= i < n -> dynamic_bitset.test W b i = Some false)
    /\ dynamic_bitset.none W b = Some true
    /\ dynamic_bitset.count W b = Some 0.
Proof.
  intros HW Hn.
  destruct (width_ok_facts W HW) as (HW8 & Hsz & Hpos).
  destruct (fresh_bounds W n HW Hn) as (Hp & Hq & Hs & Hbytes & Hs64 & Hlast & Hin).
  eexists. split; [apply (of_size_value W junk n HW Hn)|].
  set (storage := n / W + (if n mod W =? 0 then 0 else 1)) in *.
  set (b := dynamic_bitset.mk _ _ _ _).
  assert (forall k, 0 <= k < storage -> dynamic_bitset.block_at b k = Some 0)
    as Hblk.
  { intros k Hk. unfold dynamic_bitset.block_at, b. simpl.
    rewrite get_lookup by lia. apply lookup_replicate_2. lia. }
  split; [reflexivity|]. split; [|split].
  - intros i Hi. unfold dynamic_bitset.test, b. simpl.
    rewrite test_spec by lia.
    rewrite lookup_replicate_2 by (specialize (Hin i Hi); lia).
    simpl. now rewrite Z.bits_0.
  - unfold dynamic_bitset.none.
    cbn [dynamic_bitset.m_storage_size dynamic_bitset.m_partial_size
         dynamic_bitset.m_size b].
    match goal with
    | |- context [for_range 0 (Block.wrap 64 ?e) ?body tt] =>
        rewrite (for_range_skip body 0 (Block.wrap 64 e) tt)
    end.
    + simpl. destruct (Z.eqb_spec (n mod W) 0) as [E0|E0]; [reflexivity|].
      simpl. rewrite for_range_skip; [reflexivity|].
      intros k Hk. unfold dynamic_bitset.m_block_size.
      rewrite Hblk by (specialize (Hlast E0); lia). simpl.
      rewrite one_shl_in_block by lia. reflexivity.
    + intros k Hk. rewrite Hblk; [reflexivity|].
      rewrite wrap_small in Hk;
        subst storage; destruct (n mod W =? 0); lia.
  - unfold dynamic_bitset.count.
    cbn [dynamic_bitset.m_storage_size b].
    destruct (iter_range_inv (fun _ c => c = 0)
                (fun i count =>
                   j ← dynamic_bitset.block_at b i;
                   bitset.count_block W (Z.to_nat W) j count)
                0 storage 0 Hs eq_refl) as (c & Ec & ->); [|exact Ec].
    intros k t Hk ->. exists 0. rewrite Hblk by lia. simpl.
    split; [|reflexivity]. now destruct (Z.to_nat W).
Qed.

Lemma of_size_zero_initialized_witness :
  exists b,
    dynamic_bitset.of_size 32 (fun k => 3735928559 + k) 70 = Some b
    /\ dynamic_bitset.m_size b = 70
    /\ (forall i, 0 <= i < 70 -> dynamic_bitset.test 32 b i = Some false)
    /\ dynamic_bitset.none 32 b = Some true
    /\ dynamic_bitset.count 32 b = Some 0.
Proof.
  apply (of_size_zero_initialized 32 (fun k => 3735928559 + k) 70).
  - unfold Block.width_ok, Block.widths. simpl. auto.
  - lia.
Defined.

(** ** Comparison operators *)

(** C6.  [bitset<uint8_t, 16>] with [a = {1, 2}] and [b = {1, 3}]:
    [a == b] is [false] (block 1 differs) and [a != b] is [false] too,
    because [operator!=] returns [false] at the first pair of equal
    blocks.  For [dynamic_bitset<uint8_t>(8)] compared with itself both
    [==] and [!=] are [true]: with equal sizes [operator!=] skips the
    block loop, which is the body of [if (m_size != other.m_size)]. *)
Theorem operator_ne_is_not_negation :
  bitset.operator_eq 8 16 [1; 2] [1; 3] = Some false
  /\ bitset.operator_ne 8 16 [1; 2] [1; 3] = Some false
  /\ (forall junk,
        exists a,
          dynamic_bitset.of_size 8 junk 8 = Some a
          /\ dynamic_bitset.operator_eq 8 a a = Some true
          /\ dynamic_bitset.operator_ne 8 a a = Some true).
Proof.
  split; [reflexivity|]. split; [reflexivity|].
  intros junk. eexists. repeat split.
Qed.

(** ** Left shift, in general *)

(** A loop whose round [i] stores [g i] into block [i], whatever it
    reads, tabulates [g].  The round may rely on the blocks already
    written. *)
Lemma tabulate_loop (g : Z -> Z) (body : Z -> list Z -> option (list Z))
    (t0 : list Z) (n : Z) :
  n = Z.of_nat (length t0) ->
  (forall i t, 0 <= i < n -> length t = length t0 ->
     (forall k : nat, Z.of_nat k < i -> t !! k = Some (g (Z.of_nat k))) ->
     body i t = Arr.put t i (g i)) ->
  iter_range 0 n body t0 = Some (map g (seqZ 0 n)).
Proof.
  intros Hn Hbody.
  destruct (iter_range_inv
              (fun i t => length t = length t0
                          /\ forall k : nat, Z.of_nat k < i ->
                               t !! k = Some (g (Z.of_nat k)))
              body 0 n t0 ltac:(lia)) as (t & E & Hlen & Ht).
  - split; [reflexivity|]. intros k Hk. lia.
  - intros i t Hi (Hlen & Ht). exists (<[Z.to_nat i := g i]> t).
    rewrite (Hbody i t Hi Hlen Ht). split; [apply put_in_range; lia|].
    split; [now rewrite length_insert|]. intros k Hk.
    destruct (decide (k = Z.to_nat i)) as [->|Hne].
    + rewrite list_lookup_insert_eq by lia. do 2 f_equal. lia.
    + rewrite list_lookup_insert_ne by congruence. apply Ht. lia.
  - rewrite E. f_equal. apply list_eq. intros k.
    destruct (decide (Z.of_nat k < n)) as [Hk|Hk].
    + rewrite Ht by lia. replace k with (Z.to_nat (Z.of_nat k)) at 2 by lia.
      now rewrite lookup_map_seqZ by lia.
    + rewrite lookup_ge_None_2 by lia. symmetry.
      apply lookup_ge_None_2. rewrite length_map, length_seqZ. lia.
Qed.

Section ShiftLeft.

Variables (W Size : Z) (d : list Z).
Hypothesis W_pos : 0 < W.
Hypothesis d_len : Z.of_nat (length d) = bitset.m_storage_size W Size.
Hypothesis d_wf : Forall (Block.in_range W) d.

Local Abbreviation storage := (bitset.m_storage_size W Size).

(** A round of the shift loop when the shift is a whole number of
    blocks: no bits are carried over from the neighbouring block. *)
Lemma shl_step_whole_blocks (block_shift : Z) (src : list Z) (i : Z)
    (dst : list Z) :
  bitset.shl_step W block_shift 0 src i dst
  = (v ← (if block_shift <=? i then Arr.get src (i - block_shift)
          else Some 0);
     Arr.put dst i (Block.wrap W v)).
Proof.
  unfold bitset.shl_step, Block.shl.
  replace ((0 <=? 0) && (0 <? Z.max W 32)) with true
    by (symmetry; rewrite andb_true_iff, Z.leb_le, Z.ltb_lt; lia).
  destruct (block_shift <=? i).
  - destruct (Arr.get src (i - block_shift)) as [b|]; [|reflexivity].
    cbn [mbind option_bind]. rewrite Z.shiftl_0_r.
    now destruct (Arr.put dst i (Block.wrap W b)).
  - cbn [mbind option_bind]. now destruct (Arr.put dst i (Block.wrap W 0)).
Qed.

Lemma wf_lookup (k : nat) (b : Z) :
  d !! k = Some b -> Block.wrap W b = b.
Proof.
  intros Hb. apply wrap_small. exact (Forall_lookup_1 _ _ _ _ d_wf Hb).
Qed.

Lemma zero_data_length : Z.of_nat (length (bitset.zero_data W Size)) = storage.
Proof.
  unfold bitset.zero_data. rewrite length_replicate, <- d_len. lia.
Qed.

Lemma map_lookup_id :
  map (fun k => default 0 (d !! Z.to_nat k)) (seqZ 0 storage) = d.
Proof.
  apply list_eq. intros k.
  destruct (decide (Z.of_nat k < storage)) as [Hk|Hk].
  - replace k with (Z.to_nat (Z.of_nat k)) at 1 by lia.
    rewrite lookup_map_seqZ, Nat2Z.id by lia.
    destruct (lookup_lt_is_Some_2 d k ltac:(lia)) as [b ->]. reflexivity.
  - rewrite (lookup_ge_None_2 d) by lia.
    apply lookup_ge_None_2. rewrite length_map, length_seqZ. lia.
Qed.

Lemma map_const_zero :
  map (fun _ : Z => 0) (seqZ 0 storage) = replicate (length d) 0.
Proof. rewrite <- replicate_map_seqZ. f_equal. lia. Qed.

(** Shifting by 0 returns the bits as they are: [operator<<]. *)
Lemma operator_shl_by_zero : bitset.operator_shl W Size d 0 = Some d.
Proof.
  unfold bitset.operator_shl, bitset.m_block_size.
  rewrite Z.div_0_l, Z.mod_0_l by lia.
  rewrite (tabulate_loop (fun k => default 0 (d !! Z.to_nat k)));
    [now rewrite map_lookup_id | now rewrite zero_data_length |].
  intros i t Hi Hlen _. rewrite shl_step_whole_blocks.
  destruct (Z.leb_spec 0 i); [|lia]. rewrite Z.sub_0_r, get_lookup by lia.
  destruct (lookup_lt_is_Some_2 d (Z.to_nat i) ltac:(lia)) as [b Hb].
  rewrite Hb. cbn [mbind option_bind default]. now rewrite (wf_lookup _ _ Hb).
Qed.

(** Shifting by 0 returns the bits as they are: [operator<<=]. *)
Lemma operator_shl_assign_by_zero :
  bitset.operator_shl_assign W Size d 0 = Some d.
Proof.
  unfold bitset.operator_shl_assign, bitset.m_block_size.
  rewrite Z.div_0_l, Z.mod_0_l by lia.
  destruct (iter_range_inv (fun _ t => t = d)
              (fun i t => bitset.shl_step W 0 0 t i t)
              0 storage d ltac:(lia) eq_refl) as (t & E & ->); [|exact E].
  intros i t Hi ->. exists d. split; [|reflexivity].
  rewrite shl_step_whole_blocks.
  destruct (Z.leb_spec 0 i); [|lia]. rewrite Z.sub_0_r, get_lookup by lia.
  destruct (lookup_lt_is_Some_2 d (Z.to_nat i) ltac:(lia)) as [b Hb].
  rewrite Hb. cbn [mbind option_bind]. rewrite (wf_lookup _ _ Hb).
  rewrite put_in_range by lia. f_equal. now apply list_insert_id.
Qed.

(** A round whose source block lies below the array stores zero. *)
Lemma shl_step_far (block_shift bit_shift : Z) (src : list Z) (i : Z)
    (t : list Z) :
  i < block_shift ->
  bitset.shl_step W block_shift bit_shift src i t = Arr.put t i 0.
Proof.
  intros Hi. unfold bitset.shl_step.
  destruct (Z.leb_spec block_shift i); [lia|].
  destruct (Z.leb_spec (block_shift + 1) i); [lia|].
  cbn [mbind option_bind]. change (Block.wrap W 0) with 0.
  rewrite andb_false_r. now destruct (Arr.put t i 0).
Qed.

(** A shift whose block displacement reaches [m_storage_size] gives an
    all-zero result, in both forms; no machine shift is out of range. *)
Lemma operator_shl_zero_fill (shift : Z) :
  storage <= shift / W ->
  bitset.operator_shl W Size d shift = Some (replicate (length d) 0)
  /\ bitset.operator_shl_assign W Size d shift
     = Some (replicate (length d) 0).
Proof.
  intros Hfar. unfold bitset.operator_shl, bitset.operator_shl_assign,
    bitset.m_block_size.
  split.
  - rewrite (tabulate_loop (fun _ => 0));
      [now rewrite map_const_zero | now rewrite zero_data_length |].
    intros i t Hi _ _. apply shl_step_far. lia.
  - rewrite (tabulate_loop (fun _ => 0));
      [now rewrite map_const_zero | lia |].
    intros i t Hi _ _. apply shl_step_far. lia.
Qed.

(** [operator<<] by the block width: block 0 becomes zero and block
    [i + 1] becomes the old block [i]. *)
Lemma operator_shl_by_block_width :
  bitset.operator_shl W Size d W = Some (take (length d) (0 :: d)).
Proof.
  unfold bitset.operator_shl, bitset.m_block_size.
  rewrite Z.div_same, Z.mod_same by lia.
  rewrite (tabulate_loop
             (fun k => if k =? 0 then 0 else default 0 (d !! Z.to_nat (k - 1))));
    [| now rewrite zero_data_length |].
  - f_equal. apply list_eq. intros k.
    destruct (decide (Z.of_nat k < storage)) as [Hk|Hk].
    + replace k with (Z.to_nat (Z.of_nat k)) at 1 by lia.
      rewrite lookup_map_seqZ, lookup_take_lt by lia.
      destruct k as [|k]; [reflexivity|].
      replace (Z.of_nat (S k) =? 0) with false
        by (symmetry; apply Z.eqb_neq; lia).
      replace (Z.to_nat (Z.of_nat (S k) - 1)) with k by lia.
      change ((0 :: d) !! S k) with (d !! k).
      destruct (lookup_lt_is_Some_2 d k ltac:(lia)) as [b Hb].
      now rewrite Hb.
    + rewrite lookup_take_ge by lia.
      apply lookup_ge_None_2. rewrite length_map, length_seqZ. lia.
  - intros i t Hi Hlen _. rewrite shl_step_whole_blocks.
    destruct (Z.leb_spec 1 i), (Z.eqb_spec i 0); try lia.
    + rewrite get_lookup by lia.
      destruct (lookup_lt_is_Some_2 d (Z.to_nat (i - 1)) ltac:(lia))
        as [b Hb].
      rewrite Hb. cbn [mbind option_bind default].
      now rewrite (wf_lookup _ _ Hb).
    + reflexivity.
Qed.

(** [operator<<=] by the block width: every round reads the block the
    round before has just overwritten, so the result is all zero,
    whatever the bitset held. *)
Lemma operator_shl_assign_by_block_width :
  bitset.operator_shl_assign W Size d W = Some (replicate (length d) 0).
Proof.
  unfold bitset.operator_shl_assign, bitset.m_block_size.
  rewrite Z.div_same, Z.mod_same by lia.
  rewrite (tabulate_loop (fun _ => 0));
    [now rewrite map_const_zero | lia |].
  intros i t Hi Hlen Hprev. rewrite shl_step_whole_blocks.
  destruct (Z.leb_spec 1 i); [|reflexivity].
  rewrite get_lookup by lia.
  specialize (Hprev (Z.to_nat (i - 1)) ltac:(lia)). now rewrite Hprev.
Qed.

End ShiftLeft.

(** ** Left shift *)

(** C7.  [bitset<uint8_t, 16>] holding blocks [{1, 0}], shifted left by
    the block width 8.  [operator<<] reads the untouched source and gives
    [{0, 1}]: block 1 is the old block 0.  [operator<<=] walks the same
    loop upwards over [m_data] itself: round 0 zeroes block 0, and round
    1 copies that zero, so the result is [{0, 0}] and the bit is lost.
    Shifts by 0 and by 16 or more agree between the two forms. *)
Theorem shl_assign_by_block_width :
  bitset.operator_shl 8 16 [1; 0] 8 = Some [0; 1]
  /\ bitset.operator_shl_assign 8 16 [1; 0] 8 = Some [0; 0]
  /\ bitset.operator_shl 8 16 [129; 3] 0 = Some [129; 3]
  /\ bitset.operator_shl_assign 8 16 [129; 3] 0 = Some [129; 3]
  /\ bitset.operator_shl 8 16 [129; 3] 16 = Some [0; 0]
  /\ bitset.operator_shl_assign 8 16 [129; 3] 16 = Some [0; 0].
Proof. repeat split. Qed.

(** ** Strings *)

Section StringRoundTrip.

Variables (W Size : Z) (str : list ascii) (set_chr rst_chr : ascii).
Hypothesis W_pos : 0 < W.
Hypothesis Size_nonneg : 0 <= Size.
Hypothesis aligned : Size mod W = 0.
Hypothesis str_len : Z.of_nat (length str) = Size.

Local Abbreviation storage := (bitset.m_storage_size W Size).

(** Whether character [k] of the string is the set character. *)
Local Abbreviation is_set :=
  (fun k : Z => match str !! Z.to_nat k with
                | Some c => Ascii.eqb c set_chr
                | None => false
                end).

Lemma aligned_storage : storage * W = Size /\ 0 <= storage.
Proof.
  pose proof (Z.div_mod Size W ltac:(lia)) as E.
  assert (0 <= Size / W) by (apply Z.div_pos; lia).
  unfold bitset.m_storage_size, bitset.m_partial_size, bitset.m_block_size.
  rewrite aligned, Z.eqb_refl. lia.
Qed.

Lemma linear_index (i j : Z) :
  0 <= j < W -> (i * W + j) / W = i /\ (i * W + j) mod W = j.
Proof.
  intros Hj. split.
  - rewrite Z.add_comm, Z.div_add by lia. rewrite Z.div_small by lia. lia.
  - rewrite Z.add_comm, Z.mod_add by lia. apply Z.mod_small. lia.
Qed.

(** One round of the inner loop of [_from_string] inside the string. *)
Lemma from_string_round (i j : Z) (t : list Z) :
  0 <= i < storage -> 0 <= j < W -> Z.of_nat (length t) = storage ->
  bitset.test W t (i * W + j) = Some false ->
  exists t',
    (if Z.of_nat (length str) <=? i * W + j
     then Some (Ret t)
     else c ← Arr.get str (i * W + j);
          m ← (if Ascii.eqb c set_chr then Block.one_shl W j else Some 0);
          Go <$> Arr.upd t i (fun b => Block.or_mask W b m))
    = Some (Go t')
    /\ length t' = length t
    /\ bitset.test W t' (i * W + j) = Some (is_set (i * W + j))
    /\ forall k, 0 <= k -> k <> i * W + j ->
         bitset.test W t' k = bitset.test W t k.
Proof.
  intros Hi Hj Hlen Hold.
  destruct aligned_storage as (Es & _).
  destruct (linear_index i j Hj) as (Ediv & Emod).
  assert (0 <= i * W + j < Size) as Hk by nia.
  destruct (Z.leb_spec (Z.of_nat (length str)) (i * W + j)); [lia|].
  rewrite get_lookup by lia.
  destruct (lookup_lt_is_Some_2 str (Z.to_nat (i * W + j)) ltac:(lia))
    as [c Hc].
  rewrite Hc. cbn [mbind option_bind].
  destruct (rmw_bit W W_pos
              (fun x m => Block.or_mask W x
                            (if Ascii.eqb c set_chr then m else 0))
              (fun old => old || Ascii.eqb c set_chr) t (i * W + j))
    as (t' & E & T & L & F).
  - intros x k n Hk' Hn. destruct (Ascii.eqb c set_chr).
    + rewrite or_mask_bit by lia.
      destruct (n =? k); [now rewrite !orb_true_r | apply orb_false_r].
    + unfold Block.or_mask. rewrite wrap_testbit, Z.lor_0_r by lia.
      destruct (n =? k); [now rewrite orb_false_r | reflexivity].
  - lia.
  - rewrite Ediv. lia.
  - rewrite Ediv, Emod, one_shl_in_block in E by lia.
    cbn [mbind option_bind] in E.
    exists t'. split.
    + destruct (Ascii.eqb c set_chr).
      * rewrite one_shl_in_block by lia. cbn [mbind option_bind].
        now rewrite E.
      * cbn [mbind option_bind]. now rewrite E.
    + split; [exact L|]. split; [|exact F].
      rewrite T, Hold. reflexivity.
Qed.

(** The bits [of_string] leaves: bit [k] is set exactly when character
    [k] is the set character. *)
Lemma of_string_bits :
  exists d,
    bitset.of_string W Size str set_chr = Some d
    /\ Z.of_nat (length d) = storage
    /\ forall k, 0 <= k < Size -> bitset.test W d k = Some (is_set k).
Proof.
  destruct aligned_storage as (Es & Hs).
  unfold bitset.of_string, bitset._from_string, bitset.m_block_size.
  set (Inv := fun (p : Z) (t : list Z) =>
                Z.of_nat (length t) = storage
                /\ forall k, 0 <= k < Size ->
                     bitset.test W t k
                     = Some (if k <? p then is_set k else false)).
  destruct (for_range_inv (fun i t => Inv (i * W) t) (fun _ => False)
              (fun i d =>
                 for_range 0 W
                   (fun j d =>
                      if Z.of_nat (length str) <=? i * W + j
                      then Some (Ret d)
                      else c ← Arr.get str (i * W + j);
                           m ← (if Ascii.eqb c set_chr
                                then Block.one_shl W j else Some 0);
                           Go <$> Arr.upd d i
                                    (fun b => Block.or_mask W b m)) d)
              0 storage (bitset.zero_data W Size) Hs)
    as (r & Er & Pr).
  - split.
    + unfold bitset.zero_data. rewrite length_replicate. lia.
    + intros k Hk. rewrite test_spec by lia. unfold bitset.zero_data.
      assert (0 <= k / W < storage) as Hq
        by (split; [apply Z.div_pos; lia
                   | apply Z.div_lt_upper_bound; lia]).
      rewrite lookup_replicate_2 by lia.
      cbn [fmap option_fmap option_map]. rewrite Z.testbit_0_l.
      destruct (Z.ltb_spec k (0 * W)); [lia | reflexivity].
  - intros i t Hi Ht.
    destruct (for_range_inv (fun j t => Inv (i * W + j) t) (fun _ => False)
                (fun j d =>
                   if Z.of_nat (length str) <=? i * W + j
                   then Some (Ret d)
                   else c ← Arr.get str (i * W + j);
                        m ← (if Ascii.eqb c set_chr
                             then Block.one_shl W j else Some 0);
                        Go <$> Arr.upd d i (fun b => Block.or_mask W b m))
                0 W t ltac:(lia))
      as (r & Er & Pr).
    + now rewrite Z.add_0_r.
    + intros j u Hj (Lu & Tu).
      destruct (from_string_round i j u Hi Hj Lu) as (u' & E & L & T & F).
      { rewrite Tu by nia. now rewrite Z.ltb_irrefl. }
      exists (Go u'). split; [exact E|]. split; [lia|].
      intros k Hk. destruct (Z.eq_dec k (i * W + j)) as [->|Hne].
      * rewrite T. destruct (Z.ltb_spec (i * W + j) (i * W + (j + 1)));
          [reflexivity | lia].
      * rewrite F, Tu by lia.
        destruct (Z.ltb_spec k (i * W + j)),
                 (Z.ltb_spec k (i * W + (j + 1))); try reflexivity; lia.
    + exists r. split; [exact Er|].
      destruct r as [u|]; [|contradiction].
      now replace ((i + 1) * W) with (i * W + W) by lia.
  - rewrite Er. destruct r as [t|]; [|contradiction].
    cbn [fmap option_fmap option_map bitset.leave].
    exists t. split; [reflexivity|]. destruct Pr as (Lt & Tt).
    split; [exact Lt|]. intros k Hk. rewrite Tt by lia.
    destruct (Z.ltb_spec k (storage * W)); [reflexivity | lia].
Qed.

(** [to_string] of an array whose bits are given by [bit]: the
    characters of the bits, followed by the NUL that the allocation of
    [Size + 1] characters leaves at the end. *)
Lemma to_string_aligned (d : list Z) (bit : Z -> bool) :
  (forall k, 0 <= k < Size -> bitset.test W d k = Some (bit k)) ->
  bitset.to_string W Size d set_chr rst_chr
  = Some (map (fun k => if bit k then set_chr else rst_chr) (seqZ 0 Size)
          ++ [zero]).
Proof.
  intros Hbits. destruct aligned_storage as (Es & Hs).
  unfold bitset.to_string, bitset.m_partial_size, bitset.m_block_size.
  rewrite aligned, Z.eqb_refl, Z.sub_0_r.
  set (chr := fun k => if bit k then set_chr else rst_chr).
  set (Inv := fun (p : Z) (r : list ascii) =>
                Z.of_nat (length r) = Size + 1
                /\ forall k : nat,
                     r !! k = if Z.of_nat k <? p then Some (chr (Z.of_nat k))
                              else replicate (Z.to_nat (Size + 1)) zero !! k).
  destruct (iter_range_inv (fun i r => Inv (i * W) r)
              (fun i r =>
                 iter_range 0 W
                   (fun j r =>
                      b ← Arr.get d i;
                      m ← Block.one_shl W j;
                      Arr.put r (i * W + j)
                        (if Block.to_bool (Z.land b m)
                         then set_chr else rst_chr)) r)
              0 storage (replicate (Z.to_nat (Size + 1)) zero) Hs)
    as (r1 & E1 & L1 & T1).
  - split; [rewrite length_replicate; lia|]. intros k.
    destruct (Z.ltb_spec (Z.of_nat k) (0 * W)); [lia | reflexivity].
  - intros i r Hi Hr.
    destruct (iter_range_inv (fun j r => Inv (i * W + j) r)
                (fun j r =>
                   b ← Arr.get d i;
                   m ← Block.one_shl W j;
                   Arr.put r (i * W + j)
                     (if Block.to_bool (Z.land b m)
                      then set_chr else rst_chr))
                0 W r ltac:(lia)) as (u & Eu & Pu).
    + now rewrite Z.add_0_r.
    + intros j u Hj (Lu & Tu).
      destruct (linear_index i j Hj) as (Ediv & Emod).
      assert (0 <= i * W + j < Size) as Hk by nia.
      pose proof (Hbits _ Hk) as Hb. unfold bitset.test in Hb.
      unfold bitset.m_block_size in Hb. rewrite Ediv, Emod in Hb.
      destruct (Arr.get d i) as [b|]; [|discriminate Hb].
      cbn [mbind option_bind] in *.
      destruct (Block.one_shl W j) as [m|]; [|discriminate Hb].
      cbn [mbind option_bind] in *. injection Hb as Hb. rewrite Hb.
      rewrite put_in_range by lia.
      eexists. split; [reflexivity|]. split; [rewrite length_insert; lia|].
      intros k. destruct (decide (k = Z.to_nat (i * W + j))) as [->|Hne].
      * rewrite list_lookup_insert_eq by lia.
        destruct (Z.ltb_spec (Z.of_nat (Z.to_nat (i * W + j)))
                    (i * W + (j + 1))); [|lia].
        unfold chr. now rewrite Z2Nat.id by lia.
      * rewrite list_lookup_insert_ne, Tu by congruence.
        destruct (Z.ltb_spec (Z.of_nat k) (i * W + j)),
                 (Z.ltb_spec (Z.of_nat k) (i * W + (j + 1)));
          try reflexivity; lia.
    + exists u. split; [exact Eu|].
      now replace ((i + 1) * W) with (i * W + W) by lia.
  - rewrite E1. cbn [mbind option_bind].
    assert (iter_range 0 0
              (fun i r =>
                 b ← Arr.get d i;
                 m ← Block.one_shl W i;
                 Arr.put r ((storage - 1) * W + i)
                   (if Block.to_bool (Z.land b m) then set_chr else rst_chr))
              r1 = Some r1) as -> by (apply iter_range_empty; lia).
    replace (if negb (storage =? 0) then Some r1 else Some r1) with (Some r1)
      by (now destruct (storage =? 0)).
    f_equal. apply list_eq. intros k. rewrite T1, Es.
    destruct (Z.ltb_spec (Z.of_nat k) Size).
    + rewrite lookup_app_l by (rewrite length_map, length_seqZ; lia).
      replace k with (Z.to_nat (Z.of_nat k)) at 2 by lia.
      change (map ?f ?l) with (f <$> l).
      rewrite list_lookup_fmap, lookup_seqZ_lt by lia.
      cbn [fmap option_fmap option_map]. do 2 f_equal. lia.
    + rewrite lookup_app_r by (rewrite length_map, length_seqZ; lia).
      rewrite length_map, length_seqZ.
      destruct (decide (Z.of_nat k = Size)) as [Ek|Nk].
      * replace (k - Z.to_nat Size)%nat with O by lia.
        rewrite lookup_replicate_2 by lia. reflexivity.
      * rewrite lookup_ge_None_2 by (rewrite length_replicate; lia).
        symmetry. apply lookup_ge_None_2. simpl. lia.
Qed.

(** For a block-aligned size the characters come back as given, each
    character other than the set character reading as the clear
    character, followed by one NUL. *)
Lemma string_round_trip_aligned :
  (d ← bitset.of_string W Size str set_chr;
   bitset.to_string W Size d set_chr rst_chr)
  = Some (map (fun c => if Ascii.eqb c set_chr then set_chr else rst_chr) str
          ++ [zero]).
Proof.
  destruct of_string_bits as (d & Ed & Ld & Td).
  rewrite Ed. cbn [mbind option_bind].
  rewrite (to_string_aligned d is_set Td). do 2 f_equal.
  apply list_eq. intros k.
  change (map ?f ?l) with (f <$> l). rewrite !list_lookup_fmap.
  destruct (decide (Z.of_nat k < Size)) as [Hk|Hk].
  - rewrite lookup_seqZ_lt by lia. cbn [fmap option_fmap option_map].
    rewrite Z.add_0_l, Nat2Z.id.
    destruct (lookup_lt_is_Some_2 str k ltac:(lia)) as [c ->]. reflexivity.
  - rewrite lookup_seqZ_ge, (lookup_ge_None_2 str) by lia. reflexivity.
Qed.

End StringRoundTrip.

Local Open Scope char_scope.

(** C8.  [bitset<uint8_t, 9>] built from ["100000000"] holds blocks
    [{1, 0}].  [to_string] allocates [Size + 1] characters initialised to
    NUL, and reads the bits of the trailing partial block from
    [m_data[i]], [i] being the bit's position, instead of from the last
    block: character 8 is taken from bit 0 of block 0.  The result is
    ["100000001"] followed by a NUL.  For the block-aligned
    [bitset<uint8_t, 8>] the characters come back as given, again
    followed by a NUL; for [bitset<uint8_t, 5>] the partial loop reads
    [m_data[1]], past the array. *)
Theorem to_string_round_trip_fails :
  bitset.of_string 8 9 ["1";"0";"0";"0";"0";"0";"0";"0";"0"] "1"
    = Some [1; 0]
  /\ bitset.to_string 8 9 [1; 0] "1" "0"
     = Some ["1";"0";"0";"0";"0";"0";"0";"0";"1"; zero]
  /\ (d ← bitset.of_string 8 8 ["1";"0";"0";"0";"0";"1";"0";"0"] "1";
      bitset.to_string 8 8 d "1" "0")
     = Some ["1";"0";"0";"0";"0";"1";"0";"0"; zero]
  /\ (d ← bitset.of_string 8 5 ["1";"0";"0";"0";"0"] "1";
      bitset.to_string 8 5 d "1" "0") = None.
Proof. repeat split. Qed.

Local Close Scope char_scope.

(** ** Packing narrow blocks into a wide one *)

Section Pack.

Variable Wo : Z.
Hypothesis Wo_pos : 0 < Wo.

Lemma pack_blocks_bound (xs : list Z) :
  Forall (Block.in_range Wo) xs ->
  0 <= bitset.pack_blocks Wo xs < 2 ^ (Wo * Z.of_nat (length xs)).
Proof.
  induction 1 as [|x xs Hx _ IH]; [simpl; lia|].
  cbn [bitset.pack_blocks length].
  replace (Wo * Z.of_nat (S (length xs)))
    with (Wo + Wo * Z.of_nat (length xs)) by lia.
  rewrite Z.pow_add_r by lia. unfold Block.in_range in Hx. nia.
Qed.

Lemma pack_blocks_snoc (xs : list Z) (x : Z) :
  bitset.pack_blocks Wo (xs ++ [x])
  = bitset.pack_blocks Wo xs + x * 2 ^ (Wo * Z.of_nat (length xs)).
Proof.
  induction xs as [|y xs IH].
  - cbn [bitset.pack_blocks app length]. change (Z.of_nat 0) with 0.
    rewrite !Z.mul_0_r, Z.pow_0_r. lia.
  - cbn [bitset.pack_blocks app length]. rewrite IH.
    replace (Wo * Z.of_nat (S (length xs)))
      with (Wo + Wo * Z.of_nat (length xs)) by lia.
    rewrite Z.pow_add_r by lia. ring.
Qed.

End Pack.

(** ** Conversion from a narrower block type *)

Lemma widen_facts (W Wo : Z) :
  Block.width_ok W -> Block.width_ok Wo -> Wo < W ->
  (Arr.sizeof Wo <? Arr.sizeof W) = true
  /\ Block.wrap 16 (Arr.sizeof W / Arr.sizeof Wo) = W / Wo
  /\ 2 <= W / Wo <= 16 /\ W / Wo * Wo = W /\ 8 <= Wo.
Proof.
  unfold Block.width_ok, Block.widths. simpl.
  intros [<-|[<-|[<-|[<-|[<-|[]]]]]] [<-|[<-|[<-|[<-|[<-|[]]]]]] Hlt;
    try lia; vm_compute; intuition discriminate.
Qed.

Lemma storage_nonneg (W Size : Z) :
  0 < W -> 0 <= Size -> 0 <= bitset.m_storage_size W Size.
Proof.
  intros HW HS.
  unfold bitset.m_storage_size, bitset.m_partial_size, bitset.m_block_size.
  assert (0 <= Size / W) by (apply Z.div_pos; lia).
  destruct (Size mod W =? 0); lia.
Qed.

Section Widen.

Variables (W Size Wo OtherSize : Z) (other : list Z).
Hypothesis W_ok : Block.width_ok W.
Hypothesis Wo_ok : Block.width_ok Wo.
Hypothesis narrower : Wo < W.
Hypothesis Size_nonneg : 0 <= Size.
Hypothesis other_len :
  Z.of_nat (length other) = bitset.m_storage_size Wo OtherSize.
Hypothesis other_wf : Forall (Block.in_range Wo) other.

Local Abbreviation diff := (W / Wo).
Local Abbreviation storage := (bitset.m_storage_size W Size).
Local Abbreviation packed := (bitset.packed_block Wo other diff).

Local Abbreviation packed_upto := (bitset.packed_upto Wo other diff).
Local Abbreviation progress := (bitset.widen_progress Wo other diff).
Local Abbreviation widen_round :=
  (bitset.widen_round W Wo (Z.of_nat (length other)) diff other).

Lemma packed_upto_step (i j x : Z) :
  0 <= i -> 0 <= j < diff ->
  other !! Z.to_nat (i * diff + j) = Some x ->
  Block.wrap W (Z.lor (packed_upto i j) (Z.shiftl x (j * Wo)))
  = packed_upto i (j + 1).
Proof.
  intros Hi Hj Hx.
  destruct (widen_facts W Wo W_ok Wo_ok narrower) as (_ & _ & Hd & HdW & HWo).
  pose proof (lookup_lt_Some _ _ _ Hx) as Hlt.
  set (a := Z.to_nat (i * diff)) in *.
  assert (Z.to_nat (i * diff + j) = (a + Z.to_nat j)%nat) as Ea
    by (subst a; nia).
  assert (drop a other !! Z.to_nat j = Some x) as Hdx
    by (rewrite lookup_drop; congruence).
  assert (length (take (Z.to_nat j) (drop a other)) = Z.to_nat j) as Hlen
    by (rewrite length_take, length_drop; lia).
  assert (Forall (Block.in_range Wo) (take (Z.to_nat j) (drop a other)))
    as Hwf by (apply Forall_take, Forall_drop, other_wf).
  assert (Block.in_range Wo x) as Hxr
    by (eapply Forall_lookup_1; [exact other_wf | exact Hx]).
  unfold bitset.packed_upto. fold a.
  replace (Z.to_nat (j + 1)) with (S (Z.to_nat j)) by lia.
  rewrite (take_S_r _ _ _ Hdx), pack_blocks_snoc, Hlen by lia.
  pose proof (pack_blocks_bound Wo ltac:(lia) _ Hwf) as Hb.
  rewrite Hlen in Hb.
  replace (Wo * Z.of_nat (Z.to_nat j)) with (j * Wo) in * by lia.
  rewrite lor_shiftl_add by nia.
  apply wrap_small.
  assert (2 ^ (j * Wo) * 2 ^ Wo <= 2 ^ W) as Hpow.
  { rewrite <- Z.pow_add_r by nia. apply Z.pow_le_mono_r; nia. }
  unfold Block.in_range in Hxr. nia.
Qed.

Lemma packed_upto_exhausted (i j : Z) :
  0 <= i -> 0 <= j <= diff ->
  Z.of_nat (length other) <= i * diff + j ->
  packed_upto i j = packed i.
Proof.
  intros Hi Hj HL. unfold bitset.packed_upto, bitset.packed_block.
  rewrite !take_ge; [reflexivity | |]; rewrite length_drop; nia.
Qed.

Lemma packed_past_end (k : Z) :
  Z.of_nat (length other) <= k * diff -> packed k = 0.
Proof.
  intros HL. unfold bitset.packed_block.
  rewrite drop_ge by lia. now rewrite take_nil.
Qed.

Lemma widen_round_spec (i j : Z) (d : list Z) :
  0 <= i < storage -> 0 <= j < diff ->
  d = map (progress i j) (seqZ 0 storage) ->
  exists r,
    widen_round i j d = Some r
    /\ match r with
       | Go d' => d' = map (progress i (j + 1)) (seqZ 0 storage)
       | Ret d' => d' = map packed (seqZ 0 storage)
       end.
Proof.
  intros Hi Hj ->.
  destruct (widen_facts W Wo W_ok Wo_ok narrower) as (_ & _ & Hd & HdW & HWo).
  destruct (width_ok_facts W W_ok) as (HW & _).
  unfold bitset.widen_round.
  destruct (Z.leb_spec (Z.of_nat (length other)) (i * diff + j)) as [HL|HL].
  - exists (Ret (map (progress i j) (seqZ 0 storage))).
    split; [reflexivity|]. apply map_seqZ_ext. intros k Hk.
    unfold bitset.widen_progress.
    destruct (Z.ltb_spec k i); [reflexivity|].
    destruct (Z.eqb_spec k i) as [->|Hne].
    + apply packed_upto_exhausted; lia.
    + symmetry. apply packed_past_end. nia.
  - assert (0 <= i * diff + j) as Hnn by nia.
    destruct (lookup_lt_is_Some_2 other (Z.to_nat (i * diff + j)))
      as [x Hx]; [lia|].
    assert (Block.in_range Wo x) as Hxr
      by (eapply Forall_lookup_1; [exact other_wf | exact Hx]).
    rewrite get_lookup, Hx by lia. cbn [mbind option_bind].
    assert (2 ^ Wo <= 2 ^ W) by (apply Z.pow_le_mono_r; lia).
    rewrite wrap_small by (unfold Block.in_range in Hxr; lia).
    unfold Block.shl.
    replace ((0 <=? j * Wo) && (j * Wo <? Z.max W 32)) with true
      by (symmetry; rewrite andb_true_iff, Z.leb_le, Z.ltb_lt; nia).
    cbn [mbind option_bind].
    rewrite (upd_in_range _ i (packed_upto i j))
      by (try lia; rewrite lookup_map_seqZ by lia;
          unfold bitset.widen_progress; now rewrite Z.ltb_irrefl, Z.eqb_refl).
    exists (Go (map (progress i (j + 1)) (seqZ 0 storage))).
    split; [|reflexivity]. cbn [fmap option_fmap option_map]. do 2 f_equal.
    rewrite packed_upto_step by (try lia; assumption).
    replace (packed_upto i (j + 1)) with (progress i (j + 1) i)
      by (unfold bitset.widen_progress; now rewrite Z.ltb_irrefl, Z.eqb_refl).
    apply insert_map_seqZ; [lia|].
    intros k Hk Hne. unfold bitset.widen_progress.
    destruct (Z.ltb_spec k i); [reflexivity|].
    destruct (Z.eqb_spec k i); [contradiction | reflexivity].
Qed.

(** The conversion constructor computes the packing of the design. *)
Lemma of_other_widen :
  bitset.of_other W Size Wo OtherSize other
  = Some (map packed (seqZ 0 storage)).
Proof.
  destruct (widen_facts W Wo W_ok Wo_ok narrower)
    as (Hlt & Hdiff & Hd & HdW & HWo).
  destruct (width_ok_facts W W_ok) as (HW8 & _).
  pose proof (storage_nonneg W Size ltac:(lia) Size_nonneg) as Hs.
  unfold bitset.of_other, bitset._from_other.
  rewrite Hlt, Hdiff.
  change (OtherSize / Wo + (if OtherSize mod Wo =? 0 then 0 else 1))
    with (bitset.m_storage_size Wo OtherSize).
  rewrite <- other_len.
  destruct (for_range_inv
              (fun i d => d = map (progress i 0) (seqZ 0 storage))
              (fun d => d = map packed (seqZ 0 storage))
              (fun i d => for_range 0 diff (fun j d => widen_round i j d) d)
              0 storage (bitset.zero_data W Size) Hs)
    as (r & Er & Pr).
  - unfold bitset.zero_data. rewrite replicate_map_seqZ.
    apply map_seqZ_ext. intros k Hk. unfold bitset.widen_progress, bitset.packed_upto.
    destruct (Z.ltb_spec k 0); [lia|]. now destruct (k =? 0).
  - intros i d Hi Hd0.
    destruct (for_range_inv
                (fun j d => d = map (progress i j) (seqZ 0 storage))
                (fun d => d = map packed (seqZ 0 storage))
                (fun j d => widen_round i j d) 0 diff d ltac:(lia) Hd0)
      as (r & Er & Pr).
    + intros j t Hj Ht. now apply widen_round_spec.
    + exists r. split; [exact Er|]. destruct r as [d'|d']; [|exact Pr].
      subst d'. apply map_seqZ_ext. intros k Hk. unfold bitset.widen_progress.
      destruct (Z.ltb_spec k i), (Z.ltb_spec k (i + 1)); try lia;
        try reflexivity.
      * destruct (Z.eqb_spec k i) as [->|]; [|lia].
        reflexivity.
      * destruct (Z.eqb_spec k i); [lia|].
        destruct (Z.eqb_spec k (i + 1)) as [->|]; [|reflexivity].
        unfold bitset.packed_upto. now rewrite take_0.
  - rewrite Er.
    cbn [fmap option_fmap option_map]. f_equal.
    destruct r as [d|d]; cbn [bitset.leave]; [|exact Pr].
    subst d. apply map_seqZ_ext. intros k Hk. unfold bitset.widen_progress.
    destruct (Z.ltb_spec k storage); [reflexivity | lia].
Qed.

End Widen.

(** What [pack_blocks] means bit by bit: bit [b] of the [j]-th block is
    bit [j * Wo + b] of the packed value, and the bits past the last
    block are clear. *)
Lemma pack_blocks_bit (Wo : Z) (xs : list Z) :
  0 < Wo -> Forall (Block.in_range Wo) xs ->
  forall (j : nat) (b : Z), 0 <= b < Wo ->
    Z.testbit (bitset.pack_blocks Wo xs) (Z.of_nat j * Wo + b)
    = match xs !! j with Some x => Z.testbit x b | None => false end.
Proof.
  intros HWo Hwf. induction Hwf as [|x xs Hx Hwf IH]; intros j b Hb.
  - simpl. apply Z.bits_0.
  - cbn [bitset.pack_blocks]. unfold Block.in_range in Hx.
    set (P := bitset.pack_blocks Wo xs) in *.
    assert (0 < 2 ^ Wo) by (apply Z.pow_pos_nonneg; lia).
    destruct j as [|j].
    + cbn [lookup list_lookup]. rewrite Z.mul_0_l, Z.add_0_l.
      rewrite <- (Z.mod_pow2_bits_low (x + 2 ^ Wo * P) Wo b) by lia.
      rewrite (Z.mul_comm (2 ^ Wo) P), Z.mod_add, Z.mod_small by lia.
      reflexivity.
    + cbn [lookup list_lookup]. rewrite <- IH by lia.
      replace (Z.of_nat (S j) * Wo + b) with (Z.of_nat j * Wo + b + Wo) by lia.
      rewrite <- Z.div_pow2_bits by lia.
      rewrite (Z.mul_comm (2 ^ Wo) P), Z.div_add, Z.div_small by lia.
      reflexivity.
Qed.

(** C9.  Converting a bitset of [Wo]-bit blocks to one of wider [W]-bit
    blocks (both among the supported widths, the source blocks being
    values of their type), with [diff = sizeof(dst) / sizeof(src)]: the
    conversion succeeds and yields [m_storage_size] blocks; destination
    block [i] is the packing of the source blocks [i * diff + j],
    [j < diff], that exist, block [j] at bit offset [j * Wo]; in bits,
    bit [j * Wo + b] of block [i] is bit [b] of source block
    [i * diff + j], or clear when the source has no such block; and a
    destination block that starts past the end of the source keeps the
    zero [m_data{ 0 }] gave it. *)
Theorem widening_conversion_packs (W Size Wo OtherSize : Z) (other : list Z) :
  Block.width_ok W -> Block.width_ok Wo -> Wo < W -> 0 <= Size ->
  Z.of_nat (length other) = bitset.m_storage_size Wo OtherSize ->
  Forall (Block.in_range Wo) other ->
  let diff := Arr.sizeof W / Arr.sizeof Wo in
  exists d,
    bitset.of_other W Size Wo OtherSize other = Some d
    /\ Z.of_nat (length d) = bitset.m_storage_size W Size
    /\ (forall i, 0 <= i < bitset.m_storage_size W Size ->
          exists blk,
            d !! Z.to_nat i = Some blk
            /\ blk = bitset.pack_blocks Wo
                       (take (Z.to_nat diff) (drop (Z.to_nat (i * diff)) other))
            /\ (forall j b, 0 <= j < diff -> 0 <= b < Wo ->
                  Z.testbit blk (j * Wo + b)
                  = match other !! Z.to_nat (i * diff + j) with
                    | Some x => Z.testbit x b
                    | None => false
                    end)
            /\ (Z.of_nat (length other) <= i * diff -> blk = 0)).
Proof.
  intros HW HWo Hlt HSize Hlen Hwf diff.
  destruct (widen_facts W Wo HW HWo Hlt) as (_ & Hdiff & Hd & HdW & HWo8).
  assert (diff = W / Wo) as Ediff.
  { subst diff. rewrite <- Hdiff. symmetry. apply wrap_small.
    unfold Block.wrap in Hdiff.
    pose proof (Z.mod_pos_bound (Arr.sizeof W / Arr.sizeof Wo) (2 ^ 16)
                  eq_refl) as Hb.
    destruct (width_ok_facts W HW) as (? & ? & ?).
    destruct (width_ok_facts Wo HWo) as (? & ? & ?).
    assert (0 <= Arr.sizeof W / Arr.sizeof Wo) by (apply Z.div_pos; lia).
    assert (Arr.sizeof W / Arr.sizeof Wo <= Arr.sizeof W)
      by (apply Z.div_le_upper_bound; nia).
    change (2 ^ 16) with 65536. lia. }
  destruct (width_ok_facts W HW) as (HW8 & _).
  pose proof (storage_nonneg W Size ltac:(lia) HSize) as Hs.
  exists (map (bitset.packed_block Wo other (W / Wo))
              (seqZ 0 (bitset.m_storage_size W Size))).
  split; [now apply of_other_widen|].
  split; [rewrite length_map, length_seqZ; lia|].
  intros i Hi. exists (bitset.packed_block Wo other (W / Wo) i).
  split; [now apply lookup_map_seqZ|]. rewrite Ediff.
  split; [reflexivity|]. split.
  - intros j b Hj Hb. unfold bitset.packed_block.
    replace j with (Z.of_nat (Z.to_nat j)) at 1 by lia.
    rewrite pack_blocks_bit
      by (try lia; apply Forall_take, Forall_drop, Hwf).
    rewrite lookup_take_lt, lookup_drop by lia.
    replace (Z.to_nat (i * (W / Wo)) + Z.to_nat j)%nat
      with (Z.to_nat (i * (W / Wo) + j)) by nia.
    reflexivity.
  - intros Hpast. unfold bitset.packed_block.
    rewrite drop_ge by lia. now rewrite take_nil.
Qed.

(** The example of the design: blocks [{0x01, 0x02}] of an 8-bit-block
    bitset of 16 bits become the single 16-bit block [0x0201]. *)
Lemma widening_conversion_packs_witness :
  (exists d,
     bitset.of_other 16 16 8 16 [1; 2] = Some d
     /\ Z.of_nat (length d) = 1
     /\ (forall i, 0 <= i < 1 ->
           exists blk,
             d !! Z.to_nat i = Some blk
             /\ blk = bitset.pack_blocks 8
                        (take 2 (drop (Z.to_nat (i * 2)) [1; 2]))
             /\ (forall j b, 0 <= j < 2 -> 0 <= b < 8 ->
                   Z.testbit blk (j * 8 + b)
                   = match [1; 2] !! Z.to_nat (i * 2 + j) with
                     | Some x => Z.testbit x b
                     | None => false
                     end)
             /\ (Z.of_nat (length [1; 2]) <= i * 2 -> blk = 0)))
  /\ bitset.of_other 16 16 8 16 [1; 2] = Some [513].
Proof.
  split; [|reflexivity].
  apply (widening_conversion_packs 16 16 8 16 [1; 2]).
  - unfold Block.width_ok, Block.widths. simpl. auto.
  - unfold Block.width_ok, Block.widths. simpl. auto.
  - lia.
  - lia.
  - reflexivity.
  - repeat constructor; unfold Block.in_range; simpl; lia.
Defined.

(** A source that runs out inside a destination block: six 8-bit blocks
    into two 32-bit blocks, the second holding only two of them. *)
Lemma widening_example :
  bitset.of_other 32 64 8 48 [1; 2; 3; 4; 5; 6] = Some [67305985; 1541].
Proof. reflexivity. Qed.

(** * Further operations *)

(** ** The queries [all()], [any()] and [none()] *)

(** A non-zero value of the block type has a set bit, and one that is
    not the maximum has a clear bit. *)
Lemma nonzero_has_bit (W x : Z) :
  Block.in_range W x -> x <> 0 ->
  exists j, 0 <= j < W /\ Z.testbit x j = true.
Proof.
  intros [Hx0 Hx] Hne. exists (Z.log2 x).
  assert (0 < x) as Hpos by lia.
  split; [|now apply Z.bit_log2].
  split; [apply Z.log2_nonneg|].
  destruct (Z.le_gt_cases W 0) as [HW|HW].
  - assert (2 ^ W <= 1); [|lia].
    destruct (Z.eq_dec W 0) as [->|]; [simpl; lia|].
    rewrite Z.pow_neg_r by lia. lia.
  - now apply Z.log2_lt_pow2.
Qed.

Lemma not_max_lacks_bit (W x : Z) :
  0 < W -> Block.in_range W x -> x <> Block.max W ->
  exists j, 0 <= j < W /\ Z.testbit x j = false.
Proof.
  intros HW [Hx0 Hx] Hne. unfold Block.max in *.
  assert (Z.ldiff x (Z.ones W) = 0) as Hsub.
  { apply Z.bits_inj'. intros n Hn. rewrite Z.ldiff_spec, Z.bits_0.
    destruct (Z.ltb_spec n W).
    - rewrite Z.ones_spec_low by lia. apply andb_false_r.
    - rewrite <- (Z.mod_small x (2 ^ W)) by lia.
      now rewrite Z.mod_pow2_bits_high by lia. }
  pose proof (Z.sub_nocarry_ldiff _ _ Hsub) as Hdiff.
  rewrite Z.ones_equiv in Hdiff at 1.
  destruct (nonzero_has_bit W (Z.ldiff (Z.ones W) x)) as (j & Hj & Hbit).
  - unfold Block.in_range. rewrite <- Hdiff. lia.
  - rewrite <- Hdiff. lia.
  - exists j. split; [exact Hj|].
    rewrite Z.ldiff_spec in Hbit. apply andb_true_iff in Hbit.
    now apply negb_true_iff.
Qed.

(** Applying [f] to what the body returns applies it to what the loop
    returns. *)
Lemma for_loop_map_ret {S R : Type} (f : R -> R)
    (body body' : Z -> S -> option (flow S R)) :
  (forall i s,
     body' i s = (fun r => match r with Go t => Go t | Ret v => Ret (f v) end)
                   <$> body i s) ->
  forall (n : nat) (i : Z) (s : S),
    for_loop n i body' s
    = (fun r => match r with Go t => Go t | Ret v => Ret (f v) end)
        <$> for_loop n i body s.
Proof.
  intros Hbody. induction n as [|n IH]; intros i s; [reflexivity|].
  cbn [for_loop]. rewrite Hbody.
  destruct (body i s) as [[t|v]|]; cbn [fmap option_fmap option_map];
    [apply IH | reflexivity | reflexivity].
Qed.

Section Queries.

Variables (W Size : Z) (d : list Z).
Hypothesis W_pos : 0 < W.
Hypothesis Size_nonneg : 0 <= Size.
Hypothesis d_len : Z.of_nat (length d) = bitset.m_storage_size W Size.
Hypothesis d_wf : Forall (Block.in_range W) d.

Local Abbreviation test := (bitset.test W).
Local Abbreviation full := (Size / W).
Local Abbreviation partial := (Size mod W).

Lemma full_blocks :
  bitset.m_storage_size W Size - (if bitset.m_partial_size W Size =? 0 then 0 else 1)
  = full
  /\ 0 <= full /\ full * W + partial = Size /\ 0 <= partial < W
  /\ (partial <> 0 -> full < Z.of_nat (length d))
  /\ full <= Z.of_nat (length d).
Proof.
  rewrite d_len.
  unfold bitset.m_storage_size, bitset.m_partial_size, bitset.m_block_size.
  pose proof (Z.div_mod Size W ltac:(lia)).
  pose proof (Z.mod_pos_bound Size W W_pos).
  assert (0 <= Size / W) by (apply Z.div_pos; lia).
  destruct (Z.eqb_spec (Size mod W) 0); repeat split; lia.
Qed.

(** A bit of block [k] as a bit of the array. *)
Lemma test_block_bit (k j x : Z) :
  0 <= k -> 0 <= j < W -> d !! Z.to_nat k = Some x ->
  test d (k * W + j) = Some (Z.testbit x j).
Proof.
  intros Hk Hj Hx. rewrite test_spec by nia.
  replace ((k * W + j) / W) with k
    by (rewrite Z.add_comm, Z.div_add, Z.div_small by lia; lia).
  replace ((k * W + j) mod W) with j
    by (rewrite Z.add_comm, Z.mod_add, Z.mod_small by lia; lia).
  now rewrite Hx.
Qed.

(** Every valid bit lies in a full block or in the partial one. *)
Lemma valid_bit_cases (i : Z) :
  0 <= i < Size ->
  0 <= i / W /\ 0 <= i mod W < W /\ i = i / W * W + i mod W
  /\ (i / W < full \/ (i / W = full /\ i mod W < partial)).
Proof.
  intros Hi. destruct full_blocks as (_ & Hf & Hsz & Hp & _).
  pose proof (Z.div_mod i W ltac:(lia)).
  pose proof (Z.mod_pos_bound i W W_pos).
  assert (0 <= i / W) by (apply Z.div_pos; lia).
  repeat split; try lia.
  destruct (Z.lt_ge_cases (i / W) full); [now left | right]. nia.
Qed.

Lemma any_spec :
  exists r,
    bitset.any W Size d = Some r
    /\ if r then exists i, 0 <= i < Size /\ test d i = Some true
       else forall i, 0 <= i < Size -> test d i = Some false.
Proof.
  destruct full_blocks as (Efull & Hf & Hsz & Hp & Hlast & Hfl).
  unfold bitset.any. rewrite Efull.
  unfold bitset.m_partial_size, bitset.m_block_size.
  destruct (for_range_inv
              (fun i (_ : unit) =>
                 forall k : nat, Z.of_nat k < i -> d !! k = Some 0)
              (fun v : bool =>
                 v = true /\ exists i, 0 <= i < Size /\ test d i = Some true)
              (fun i (_ : unit) =>
                 x ← Arr.get d i;
                 Some (if Block.to_bool x then Ret true else Go tt))
              0 full tt Hf) as (r & Er & Pr).
  - intros k Hk. lia.
  - intros k [] Hk Hprev.
    destruct (lookup_lt_is_Some_2 d (Z.to_nat k) ltac:(lia)) as [x Hx].
    rewrite get_lookup, Hx by lia. cbn [mbind option_bind].
    unfold Block.to_bool. destruct (Z.eqb_spec x 0) as [->|Hne]; cbn [negb].
    + exists (Go tt). split; [reflexivity|]. intros n Hn.
      destruct (decide (n = Z.to_nat k)) as [->|]; [exact Hx|].
      apply Hprev. lia.
    + exists (Ret true). split; [reflexivity|]. split; [reflexivity|].
      destruct (nonzero_has_bit W x) as (j & Hj & Hbit);
        [exact (Forall_lookup_1 _ _ _ _ d_wf Hx) | exact Hne |].
      exists (k * W + j).
      pose proof (Z.mul_le_mono_nonneg_r (k + 1) full W ltac:(lia) ltac:(lia)).
      split; [lia|].
      now rewrite (test_block_bit k j x), Hbit by (try lia; exact Hx).
  - rewrite Er. cbn [mbind option_bind].
    destruct r as [[]|v]; [|exists v; split; [reflexivity|];
                            destruct Pr as [-> Hex]; exact Hex].
    assert (forall i, 0 <= i < Size -> i / W < full -> test d i = Some false)
      as Hfullz.
    { intros i Hi Hq.
      destruct (valid_bit_cases i Hi) as (Hq0 & Hm & Ei & _).
      rewrite Ei, (test_block_bit _ _ 0) by (try lia; apply Pr; lia).
      now rewrite Z.bits_0. }
    destruct (Z.eqb_spec partial 0) as [Ep|Np]; cbn [negb].
    + exists false. split; [reflexivity|]. intros i Hi.
      apply Hfullz; [exact Hi|].
      destruct (valid_bit_cases i Hi) as (_ & Hm & _ & [?|[_ ?]]); lia.
    + destruct (lookup_lt_is_Some_2 d (Z.to_nat full) ltac:(lia)) as [x Hx].
      destruct (for_range_inv
                  (fun j (_ : unit) =>
                     forall b, 0 <= b < j -> Z.testbit x b = false)
                  (fun v : bool =>
                     v = true
                     /\ exists i, 0 <= i < Size /\ test d i = Some true)
                  (fun i (_ : unit) =>
                     x ← Arr.get d full;
                     m ← Block.one_shl W i;
                     Some (if Block.to_bool (Z.land x m)
                           then Ret true else Go tt))
                  0 partial tt ltac:(lia)) as (r2 & Er2 & Pr2).
      * intros b Hb. lia.
      * intros j [] Hj Hprev.
        rewrite get_lookup, Hx by lia. cbn [mbind option_bind].
        rewrite one_shl_in_block by lia. cbn [mbind option_bind].
        rewrite to_bool_land_bit by lia.
        destruct (Z.testbit x j) eqn:Hbit.
        -- exists (Ret true). split; [reflexivity|]. split; [reflexivity|].
           exists (full * W + j). split; [lia|].
           now rewrite (test_block_bit full j x), Hbit by (try lia; exact Hx).
        -- exists (Go tt). split; [reflexivity|]. intros b Hb.
           destruct (Z.eq_dec b j) as [->|]; [exact Hbit | apply Hprev; lia].
      * rewrite Er2. cbn [mbind option_bind].
        destruct r2 as [[]|v]; [|exists v; split; [reflexivity|];
                                 destruct Pr2 as [-> Hex]; exact Hex].
        exists false. split; [reflexivity|]. intros i Hi.
        destruct (valid_bit_cases i Hi) as (Hq0 & Hm & Ei & [Hq|[Hq Hr]]).
        -- now apply Hfullz.
        -- rewrite Ei, Hq, (test_block_bit full _ x) by (try lia; exact Hx).
           f_equal. apply Pr2. lia.
Qed.

Lemma all_spec :
  exists r,
    bitset.all W Size d = Some r
    /\ if r then forall i, 0 <= i < Size -> test d i = Some true
       else exists i, 0 <= i < Size /\ test d i = Some false.
Proof.
  destruct full_blocks as (Efull & Hf & Hsz & Hp & Hlast & Hfl).
  unfold bitset.all. rewrite Efull.
  unfold bitset.m_partial_size, bitset.m_block_size.
  destruct (for_range_inv
              (fun i (_ : unit) =>
                 forall k : nat, Z.of_nat k < i -> d !! k = Some (Block.max W))
              (fun v : bool =>
                 v = false
                 /\ exists i, 0 <= i < Size /\ test d i = Some false)
              (fun i (_ : unit) =>
                 x ← Arr.get d i;
                 Some (if negb (x =? Block.max W) then Ret false else Go tt))
              0 full tt Hf) as (r & Er & Pr).
  - intros k Hk. lia.
  - intros k [] Hk Hprev.
    destruct (lookup_lt_is_Some_2 d (Z.to_nat k) ltac:(lia)) as [x Hx].
    rewrite get_lookup, Hx by lia. cbn [mbind option_bind].
    destruct (Z.eqb_spec x (Block.max W)) as [->|Hne]; cbn [negb].
    + exists (Go tt). split; [reflexivity|]. intros n Hn.
      destruct (decide (n = Z.to_nat k)) as [->|]; [exact Hx|].
      apply Hprev. lia.
    + exists (Ret false). split; [reflexivity|]. split; [reflexivity|].
      destruct (not_max_lacks_bit W x W_pos) as (j & Hj & Hbit);
        [exact (Forall_lookup_1 _ _ _ _ d_wf Hx) | exact Hne |].
      exists (k * W + j).
      pose proof (Z.mul_le_mono_nonneg_r (k + 1) full W ltac:(lia) ltac:(lia)).
      split; [lia|].
      now rewrite (test_block_bit k j x), Hbit by (try lia; exact Hx).
  - rewrite Er. cbn [mbind option_bind].
    destruct r as [[]|v]; [|exists v; split; [reflexivity|];
                            destruct Pr as [-> Hex]; exact Hex].
    assert (forall i, 0 <= i < Size -> i / W < full -> test d i = Some true)
      as Hfullz.
    { intros i Hi Hq.
      destruct (valid_bit_cases i Hi) as (Hq0 & Hm & Ei & _).
      rewrite Ei, (test_block_bit _ _ (Block.max W))
        by (try lia; apply Pr; lia).
      now rewrite max_bit by lia. }
    destruct (Z.eqb_spec partial 0) as [Ep|Np]; cbn [negb].
    + exists true. split; [reflexivity|]. intros i Hi.
      apply Hfullz; [exact Hi|].
      destruct (valid_bit_cases i Hi) as (_ & Hm & _ & [?|[_ ?]]); lia.
    + destruct (lookup_lt_is_Some_2 d (Z.to_nat full) ltac:(lia)) as [x Hx].
      destruct (for_range_inv
                  (fun j (_ : unit) =>
                     forall b, 0 <= b < j -> Z.testbit x b = true)
                  (fun v : bool =>
                     v = false
                     /\ exists i, 0 <= i < Size /\ test d i = Some false)
                  (fun i (_ : unit) =>
                     x ← Arr.get d full;
                     m ← Block.one_shl W i;
                     Some (if negb (Block.to_bool (Z.land x m))
                           then Ret false else Go tt))
                  0 partial tt ltac:(lia)) as (r2 & Er2 & Pr2).
      * intros b Hb. lia.
      * intros j [] Hj Hprev.
        rewrite get_lookup, Hx by lia. cbn [mbind option_bind].
        rewrite one_shl_in_block by lia. cbn [mbind option_bind].
        rewrite to_bool_land_bit by lia.
        destruct (Z.testbit x j) eqn:Hbit; cbn [negb].
        -- exists (Go tt). split; [reflexivity|]. intros b Hb.
           destruct (Z.eq_dec b j) as [->|]; [exact Hbit | apply Hprev; lia].
        -- exists (Ret false). split; [reflexivity|]. split; [reflexivity|].
           exists (full * W + j). split; [lia|].
           now rewrite (test_block_bit full j x), Hbit by (try lia; exact Hx).
      * rewrite Er2. cbn [mbind option_bind].
        destruct r2 as [[]|v]; [|exists v; split; [reflexivity|];
                                 destruct Pr2 as [-> Hex]; exact Hex].
        exists true. split; [reflexivity|]. intros i Hi.
        destruct (valid_bit_cases i Hi) as (Hq0 & Hm & Ei & [Hq|[Hq Hr]]).
        -- now apply Hfullz.
        -- rewrite Ei, Hq, (test_block_bit full _ x) by (try lia; exact Hx).
           f_equal. apply Pr2. lia.
Qed.

End Queries.

(** [none()] is [!any()], on every array. *)
Lemma none_not_any (W Size : Z) (d : list Z) :
  bitset.none W Size d = negb <$> bitset.any W Size d.
Proof.
  unfold bitset.none, bitset.any, for_range.
  rewrite (for_loop_map_ret negb
             (fun i (_ : unit) =>
                x ← Arr.get d i;
                Some (if Block.to_bool x then Ret true else Go tt))
             (fun i (_ : unit) =>
                x ← Arr.get d i;
                Some (if Block.to_bool x then Ret false else Go tt))).
  2:{ intros i s. destruct (Arr.get d i) as [x|]; [|reflexivity].
      cbn [mbind option_bind fmap option_fmap option_map].
      now destruct (Block.to_bool x). }
  match goal with
  | |- context [for_loop (Z.to_nat (bitset.m_storage_size W Size - ?c - 0))
                  0 ?body tt] =>
      destruct (for_loop (Z.to_nat (bitset.m_storage_size W Size - c - 0))
                  0 body tt) as [[[]|v]|]
  end; cbn [mbind option_bind fmap option_fmap option_map];
    try reflexivity.
  destruct (negb (bitset.m_partial_size W Size =? 0)); [|reflexivity].
  rewrite (for_loop_map_ret negb
             (fun i (_ : unit) =>
                x ← Arr.get d (Size / bitset.m_block_size W);
                m ← Block.one_shl W i;
                Some (if Block.to_bool (Z.land x m) then Ret true else Go tt))
             (fun i (_ : unit) =>
                x ← Arr.get d (Size / bitset.m_block_size W);
                m ← Block.one_shl W i;
                Some (if Block.to_bool (Z.land x m)
                      then Ret false else Go tt))).
  2:{ intros i s.
      destruct (Arr.get d (Size / bitset.m_block_size W)) as [x|];
        [|reflexivity].
      cbn [mbind option_bind].
      destruct (Block.one_shl W i) as [m|]; [|reflexivity].
      cbn [mbind option_bind fmap option_fmap option_map].
      now destruct (Block.to_bool (Z.land x m)). }
  match goal with
  | |- context [for_loop ?n 0 ?body tt] =>
      destruct (for_loop n 0 body tt) as [[[]|v]|]
  end; reflexivity.
Qed.

(** X1.  [any()] returns [true] exactly when one of the [Size] valid
    bits is set, whatever the bits above [Size] in the trailing block
    hold, and [none()] returns the opposite. *)
Theorem any_none_decide (W Size : Z) (d : list Z) :
  0 < W -> 0 <= Size ->
  Z.of_nat (length d) = bitset.m_storage_size W Size ->
  Forall (Block.in_range W) d ->
  exists r,
    bitset.any W Size d = Some r
    /\ bitset.none W Size d = Some (negb r)
    /\ if r then exists i, 0 <= i < Size /\ bitset.test W d i = Some true
       else forall i, 0 <= i < Size -> bitset.test W d i = Some false.
Proof.
  intros HW HS Hlen Hwf.
  destruct (any_spec W Size d HW HS Hlen Hwf) as (r & E & Hr).
  exists r. split; [exact E|]. split; [|exact Hr].
  now rewrite none_not_any, E.
Qed.

Lemma any_none_decide_witness :
  exists r,
    bitset.any 8 5 [224] = Some r
    /\ bitset.none 8 5 [224] = Some (negb r)
    /\ if r then exists i, 0 <= i < 5 /\ bitset.test 8 [224] i = Some true
       else forall i, 0 <= i < 5 -> bitset.test 8 [224] i = Some false.
Proof.
  apply (any_none_decide 8 5 [224]).
  - lia.
  - lia.
  - reflexivity.
  - repeat constructor; unfold Block.in_range; simpl; lia.
Defined.

(** X2.  [all()] returns [true] exactly when every one of the [Size]
    valid bits is set, whatever the bits above [Size] in the trailing
    block hold. *)
Theorem all_decides (W Size : Z) (d : list Z) :
  0 < W -> 0 <= Size ->
  Z.of_nat (length d) = bitset.m_storage_size W Size ->
  Forall (Block.in_range W) d ->
  exists r,
    bitset.all W Size d = Some r
    /\ if r then forall i, 0 <= i < Size -> bitset.test W d i = Some true
       else exists i, 0 <= i < Size /\ bitset.test W d i = Some false.
Proof.
  intros HW HS Hlen Hwf. exact (all_spec W Size d HW HS Hlen Hwf).
Qed.

Lemma all_decides_witness :
  exists r,
    bitset.all 8 5 [31] = Some r
    /\ if r then forall i, 0 <= i < 5 -> bitset.test 8 [31] i = Some true
       else exists i, 0 <= i < 5 /\ bitset.test 8 [31] i = Some false.
Proof.
  apply (all_decides 8 5 [31]).
  - lia.
  - lia.
  - reflexivity.
  - repeat constructor; unfold Block.in_range; simpl; lia.
Defined.

(** ** [operator==] *)

(** A non-negative number whose bits from [w] on are clear is below
    [2^w]. *)
Lemma in_range_of_bits (w z : Z) :
  0 <= w -> 0 <= z -> (forall n, w <= n -> Z.testbit z n = false) ->
  Block.in_range w z.
Proof.
  intros Hw Hz Hbits. unfold Block.in_range. split; [exact Hz|].
  assert (z mod 2 ^ w = z) as <-.
  { apply Z.bits_inj'. intros n Hn. destruct (Z.ltb_spec n w).
    - now apply Z.mod_pow2_bits_low.
    - rewrite Z.mod_pow2_bits_high by lia. symmetry. now apply Hbits. }
  apply Z.mod_pos_bound, Z.pow_pos_nonneg; lia.
Qed.

Lemma in_range_high_bits (w z n : Z) :
  Block.in_range w z -> 0 <= w <= n -> Z.testbit z n = false.
Proof.
  intros [Hz0 Hz] Hn. rewrite <- (Z.mod_small z (2 ^ w)) by lia.
  apply Z.mod_pow2_bits_high. lia.
Qed.

(** Two different values of the block type differ in some bit. *)
Lemma differ_has_bit (w x y : Z) :
  0 <= w -> Block.in_range w x -> Block.in_range w y -> x <> y ->
  exists j, 0 <= j < w /\ Z.testbit x j <> Z.testbit y j.
Proof.
  intros Hw Hx Hy Hne.
  destruct (nonzero_has_bit w (Z.lxor x y)) as (j & Hj & Hbit).
  - apply in_range_of_bits; [lia | |].
    + apply Z.lxor_nonneg. unfold Block.in_range in *. lia.
    + intros n Hn. rewrite Z.lxor_spec.
      now rewrite (in_range_high_bits w x), (in_range_high_bits w y)
        by (try assumption; lia).
  - intros E. apply Hne. now apply Z.lxor_eq.
  - exists j. split; [exact Hj|]. rewrite Z.lxor_spec in Hbit.
    destruct (Z.testbit x j), (Z.testbit y j); discriminate.
Qed.

(** The mask of the partial block selects its low [p] bits. *)
Lemma partial_mask_bits (W p : Z) :
  0 <= p < 31 -> p < W ->
  bitset.partial_mask W p = Some (Z.ones p).
Proof.
  intros Hp HpW. unfold bitset.partial_mask.
  replace ((0 <=? p) && (p <? 31)) with true
    by (symmetry; rewrite andb_true_iff, Z.leb_le, Z.ltb_lt; lia).
  f_equal. rewrite Z.ones_equiv, Z.shiftl_1_l.
  apply wrap_small.
  assert (0 < 2 ^ p) by (apply Z.pow_pos_nonneg; lia).
  assert (2 ^ p < 2 ^ W) by (apply Z.pow_lt_mono_r; lia).
  lia.
Qed.

Lemma land_ones_bit (x p n : Z) :
  0 <= p -> 0 <= n ->
  Z.testbit (Z.land x (Z.ones p)) n = Z.testbit x n && (n <? p).
Proof.
  intros Hp Hn. rewrite Z.land_spec, Z.testbit_ones_nonneg by lia.
  now replace (0 <=? n) with true by (symmetry; apply Z.leb_le; lia).
Qed.

Section Equality.

Variables (W Size : Z) (a b : list Z).
Hypothesis W_pos : 0 < W.
Hypothesis Size_nonneg : 0 <= Size.
Hypothesis a_len : Z.of_nat (length a) = bitset.m_storage_size W Size.
Hypothesis b_len : Z.of_nat (length b) = bitset.m_storage_size W Size.
Hypothesis a_wf : Forall (Block.in_range W) a.
Hypothesis b_wf : Forall (Block.in_range W) b.

Local Abbreviation test := (bitset.test W).
Local Abbreviation full := (Size / W).
Local Abbreviation partial := (Size mod W).

Lemma last_block_index :
  partial <> 0 -> bitset.m_storage_size W Size - 1 = full.
Proof.
  intros Hp.
  unfold bitset.m_storage_size, bitset.m_partial_size, bitset.m_block_size.
  destruct (Z.eqb_spec (Size mod W) 0); lia.
Qed.

(** X3.  While the partial block has fewer than 31 bits, so that the
    mask [(1 << m_partial_size) - 1] can be computed, [operator==]
    returns [true] exactly when the two bitsets agree on every one of
    the [Size] valid bits, whatever the padding of the last block
    holds. *)
Lemma operator_eq_spec :
  partial < 31 ->
  exists r,
    bitset.operator_eq W Size a b = Some r
    /\ if r then forall i, 0 <= i < Size -> test a i = test b i
       else exists i, 0 <= i < Size /\ test a i <> test b i.
Proof.
  intros Hmask.
  destruct (full_blocks W Size a W_pos Size_nonneg a_len)
    as (_ & Hf & Hsz & Hp & Hlast & Hfl).
  assert (Z.of_nat (length b) = Z.of_nat (length a)) as Hab by lia.
  unfold bitset.operator_eq.
  unfold bitset.m_full_storage_size, bitset.m_partial_size,
    bitset.m_block_size.
  destruct (for_range_inv
              (fun i (_ : unit) =>
                 forall k : nat, Z.of_nat k < i -> a !! k = b !! k)
              (fun v : bool =>
                 v = false
                 /\ exists i, 0 <= i < Size /\ test a i <> test b i)
              (fun i (_ : unit) =>
                 x ← Arr.get a i; y ← Arr.get b i;
                 Some (if negb (x =? y) then Ret false else Go tt))
              0 full tt Hf) as (r & Er & Pr).
  - intros k Hk. lia.
  - intros k [] Hk Hprev.
    destruct (lookup_lt_is_Some_2 a (Z.to_nat k) ltac:(lia)) as [x Hx].
    destruct (lookup_lt_is_Some_2 b (Z.to_nat k) ltac:(lia)) as [y Hy].
    rewrite !get_lookup, Hx, Hy by lia. cbn [mbind option_bind].
    destruct (Z.eqb_spec x y) as [->|Hne]; cbn [negb].
    + exists (Go tt). split; [reflexivity|]. intros n Hn.
      destruct (decide (n = Z.to_nat k)) as [->|]; [congruence|].
      apply Hprev. lia.
    + exists (Ret false). split; [reflexivity|]. split; [reflexivity|].
      destruct (differ_has_bit W x y) as (j & Hj & Hbit);
        [lia | exact (Forall_lookup_1 _ _ _ _ a_wf Hx)
         | exact (Forall_lookup_1 _ _ _ _ b_wf Hy) | exact Hne |].
      exists (k * W + j).
      pose proof (Z.mul_le_mono_nonneg_r (k + 1) full W ltac:(lia) ltac:(lia)).
      split; [lia|].
      rewrite (test_block_bit W a W_pos k j x),
              (test_block_bit W b W_pos k j y) by (try lia; assumption).
      congruence.
  - rewrite Er. cbn [mbind option_bind].
    destruct r as [[]|v]; [|exists v; split; [reflexivity|];
                            destruct Pr as [-> Hex]; exact Hex].
    assert (forall i, 0 <= i < Size -> i / W < full -> test a i = test b i)
      as Hfulleq.
    { intros i Hi Hq.
      assert (0 <= i / W) by (apply Z.div_pos; lia).
      rewrite !test_spec by lia. rewrite (Pr (Z.to_nat (i / W))) by lia.
      reflexivity. }
    destruct (Z.eqb_spec partial 0) as [Ep|Np]; cbn [negb].
    + exists true. split; [reflexivity|]. intros i Hi.
      apply Hfulleq; [exact Hi|].
      destruct (valid_bit_cases W Size a W_pos Size_nonneg a_len i Hi)
        as (_ & Hm & _ & [?|[_ ?]]); lia.
    + rewrite partial_mask_bits by lia. cbn [mbind option_bind].
      rewrite last_block_index by exact Np.
      destruct (lookup_lt_is_Some_2 a (Z.to_nat full) ltac:(lia)) as [x Hx].
      destruct (lookup_lt_is_Some_2 b (Z.to_nat full) ltac:(lia)) as [y Hy].
      rewrite !get_lookup, Hx, Hy by lia. cbn [mbind option_bind].
      destruct (Z.eqb_spec (Z.land x (Z.ones partial))
                           (Z.land y (Z.ones partial))) as [E|Hne];
        cbn [negb].
      * exists true. split; [reflexivity|]. intros i Hi.
        destruct (valid_bit_cases W Size a W_pos Size_nonneg a_len i Hi)
          as (Hq0 & Hm & Ei & [Hq|[Hq Hr]]).
        -- now apply Hfulleq.
        -- rewrite Ei, Hq.
           rewrite (test_block_bit W a W_pos full _ x),
                   (test_block_bit W b W_pos full _ y)
             by (try lia; assumption).
           f_equal.
           assert (Z.testbit (Z.land x (Z.ones partial)) (i mod W)
                   = Z.testbit (Z.land y (Z.ones partial)) (i mod W)) as Eb
             by now rewrite E.
           rewrite !land_ones_bit in Eb by lia.
           destruct (Z.ltb_spec (i mod W) partial); [|lia].
           now rewrite !andb_true_r in Eb.
      * exists false. split; [reflexivity|].
        destruct (differ_has_bit partial (Z.land x (Z.ones partial))
                    (Z.land y (Z.ones partial))) as (j & Hj & Hbit).
        -- lia.
        -- apply in_range_of_bits; [lia | apply Z.land_nonneg; right;
             rewrite Z.ones_equiv;
             pose proof (Z.pow_pos_nonneg 2 partial); lia |].
           intros n Hn. rewrite land_ones_bit by lia.
           destruct (Z.ltb_spec n partial); [lia | apply andb_false_r].
        -- apply in_range_of_bits; [lia | apply Z.land_nonneg; right;
             rewrite Z.ones_equiv;
             pose proof (Z.pow_pos_nonneg 2 partial); lia |].
           intros n Hn. rewrite land_ones_bit by lia.
           destruct (Z.ltb_spec n partial); [lia | apply andb_false_r].
        -- exact Hne.
        -- exists (full * W + j). split; [lia|].
           rewrite (test_block_bit W a W_pos full j x),
                   (test_block_bit W b W_pos full j y)
             by (try lia; assumption).
           rewrite !land_ones_bit in Hbit by lia.
           destruct (Z.ltb_spec j partial); [|lia].
           rewrite !andb_true_r in Hbit. congruence.
Qed.

End Equality.

(** X4.  With a partial block of 31 bits or more the mask
    [(1 << m_partial_size) - 1] overflows [int]: comparing a bitset even
    with itself has no defined result. *)
Lemma operator_eq_wide_partial (W Size : Z) (d : list Z) :
  0 < W -> 0 <= Size ->
  Z.of_nat (length d) = bitset.m_storage_size W Size ->
  31 <= Size mod W ->
  bitset.operator_eq W Size d d = None.
Proof.
  intros HW HS Hlen Hp.
  destruct (full_blocks W Size d HW HS Hlen)
    as (_ & Hf & Hsz & Hpb & Hlast & Hfl).
  unfold bitset.operator_eq.
  unfold bitset.m_full_storage_size, bitset.m_partial_size,
    bitset.m_block_size.
  rewrite for_range_skip.
  - cbn [mbind option_bind].
    destruct (Z.eqb_spec (Size mod W) 0); [lia|]. cbn [negb].
    unfold bitset.partial_mask.
    destruct (Z.ltb_spec (Size mod W) 31); [lia|].
    now rewrite andb_false_r.
  - intros k Hk.
    destruct (lookup_lt_is_Some_2 d (Z.to_nat k) ltac:(lia)) as [x Hx].
    rewrite get_lookup, Hx by lia. cbn [mbind option_bind].
    now rewrite Z.eqb_refl.
Qed.

Lemma operator_eq_spec_witness :
  exists r,
    bitset.operator_eq 8 12 [129; 250] [129; 10] = Some r
    /\ if r
       then forall i, 0 <= i < 12 ->
              bitset.test 8 [129; 250] i = bitset.test 8 [129; 10] i
       else exists i, 0 <= i < 12
              /\ bitset.test 8 [129; 250] i <> bitset.test 8 [129; 10] i.
Proof.
  apply (operator_eq_spec 8 12 [129; 250] [129; 10]).
  - lia.
  - lia.
  - reflexivity.
  - reflexivity.
  - repeat constructor; unfold Block.in_range; simpl; lia.
  - repeat constructor; unfold Block.in_range; simpl; lia.
  - vm_compute. reflexivity.
Defined.

Lemma operator_eq_wide_partial_witness :
  bitset.operator_eq 64 40 [5] [5] = None.
Proof.
  apply (operator_eq_wide_partial 64 40 [5]).
  - lia.
  - lia.
  - reflexivity.
  - vm_compute. discriminate.
Defined.

(** ** Bitwise operators *)

Section Bitwise.

Variables (W Size : Z).
Hypothesis W_pos : 0 < W.

Local Abbreviation test := (bitset.test W).
Local Abbreviation storage := (bitset.m_storage_size W Size).
Local Abbreviation blk := (fun (d : list Z) (k : Z) => default 0 (d !! Z.to_nat k)).

Lemma zero_data_len (a : list Z) :
  Z.of_nat (length a) = storage ->
  storage = Z.of_nat (length (bitset.zero_data W Size)).
Proof.
  intros Ha. unfold bitset.zero_data. rewrite length_replicate. lia.
Qed.

(** The binary operators tabulate [op] over the blocks. *)
Lemma blockwise_value (op : Z -> Z -> Z) (a b : list Z) :
  Z.of_nat (length a) = storage -> Z.of_nat (length b) = storage ->
  bitset.blockwise W Size op a b
  = Some (map (fun k => Block.wrap W (op (blk a k) (blk b k)))
              (seqZ 0 storage)).
Proof.
  intros Ha Hb. unfold bitset.blockwise.
  apply tabulate_loop; [now apply (zero_data_len a)|].
  intros i t Hi _ _.
  destruct (lookup_lt_is_Some_2 a (Z.to_nat i) ltac:(lia)) as [x Hx].
  destruct (lookup_lt_is_Some_2 b (Z.to_nat i) ltac:(lia)) as [y Hy].
  rewrite !get_lookup, Hx, Hy by lia. reflexivity.
Qed.

(** The compound assignments compute the same array in place: round [i]
    reads and writes block [i] only. *)
Lemma blockwise_assign_value (op : Z -> Z -> Z) (a b : list Z) :
  Z.of_nat (length a) = storage -> Z.of_nat (length b) = storage ->
  bitset.blockwise_assign W Size op a b
  = Some (map (fun k => Block.wrap W (op (blk a k) (blk b k)))
              (seqZ 0 storage)).
Proof.
  intros Ha Hb. unfold bitset.blockwise_assign.
  destruct (iter_range_inv
              (fun i t =>
                 t = map (fun k => if k <? i
                                   then Block.wrap W (op (blk a k) (blk b k))
                                   else blk a k)
                         (seqZ 0 storage))
              (fun i d =>
                 y ← Arr.get b i;
                 Arr.upd d i (fun x => Block.wrap W (op x y)))
              0 storage a ltac:(lia)) as (t & E & ->).
  - rewrite <- (map_lookup_id W Size a Ha) at 1.
    apply map_seqZ_ext. intros k Hk.
    destruct (Z.ltb_spec k 0); [lia | reflexivity].
  - intros i t Hi ->.
    destruct (lookup_lt_is_Some_2 a (Z.to_nat i) ltac:(lia)) as [x Hx].
    destruct (lookup_lt_is_Some_2 b (Z.to_nat i) ltac:(lia)) as [y Hy].
    rewrite get_lookup, Hy by lia. cbn [mbind option_bind].
    eexists. split.
    + apply (upd_in_range _ i x); [lia|].
      rewrite lookup_map_seqZ by lia. rewrite Z.ltb_irrefl.
      now rewrite Hx.
    + cbv beta.
      rewrite <- (insert_map_seqZ
                    (fun k => if k <? i
                              then Block.wrap W (op (blk a k) (blk b k))
                              else blk a k)
                    (fun k => if k <? i + 1
                              then Block.wrap W (op (blk a k) (blk b k))
                              else blk a k) storage i).
      * f_equal. destruct (Z.ltb_spec i (i + 1)); [|lia].
        now rewrite Hx, Hy.
      * lia.
      * intros k Hk Hne.
        destruct (Z.ltb_spec k i), (Z.ltb_spec k (i + 1));
          try reflexivity; lia.
  - rewrite E. f_equal. apply map_seqZ_ext. intros k Hk.
    destruct (Z.ltb_spec k storage); [reflexivity | lia].
Qed.

Lemma operator_not_value (a : list Z) :
  Z.of_nat (length a) = storage ->
  bitset.operator_not W Size a
  = Some (map (fun k => Block.wrap W (Z.lnot (blk a k))) (seqZ 0 storage)).
Proof.
  intros Ha. unfold bitset.operator_not.
  apply tabulate_loop; [now apply (zero_data_len a)|].
  intros i t Hi _ _.
  destruct (lookup_lt_is_Some_2 a (Z.to_nat i) ltac:(lia)) as [x Hx].
  rewrite !get_lookup, Hx by lia. reflexivity.
Qed.

Lemma flip_all_value (a : list Z) :
  Z.of_nat (length a) = storage ->
  bitset.flip_all W Size a
  = Some (map (fun k => Block.wrap W (Z.lnot (blk a k))) (seqZ 0 storage)).
Proof.
  intros Ha. unfold bitset.flip_all.
  destruct (iter_range_inv
              (fun i t =>
                 t = map (fun k => if k <? i
                                   then Block.wrap W (Z.lnot (blk a k))
                                   else blk a k)
                         (seqZ 0 storage))
              (fun i d => Arr.upd d i (fun x => Block.wrap W (Z.lnot x)))
              0 storage a ltac:(lia)) as (t & E & ->).
  - rewrite <- (map_lookup_id W Size a Ha) at 1.
    apply map_seqZ_ext. intros k Hk.
    destruct (Z.ltb_spec k 0); [lia | reflexivity].
  - intros i t Hi ->.
    destruct (lookup_lt_is_Some_2 a (Z.to_nat i) ltac:(lia)) as [x Hx].
    eexists. split.
    + apply (upd_in_range _ i x); [lia|].
      rewrite lookup_map_seqZ by lia. rewrite Z.ltb_irrefl.
      now rewrite Hx.
    + cbv beta.
      rewrite <- (insert_map_seqZ
                    (fun k => if k <? i
                              then Block.wrap W (Z.lnot (blk a k))
                              else blk a k)
                    (fun k => if k <? i + 1
                              then Block.wrap W (Z.lnot (blk a k))
                              else blk a k) storage i).
      * f_equal. destruct (Z.ltb_spec i (i + 1)); [|lia].
        now rewrite Hx.
      * lia.
      * intros k Hk Hne.
        destruct (Z.ltb_spec k i), (Z.ltb_spec k (i + 1));
          try reflexivity; lia.
  - rewrite E. f_equal. apply map_seqZ_ext. intros k Hk.
    destruct (Z.ltb_spec k storage); [reflexivity | lia].
Qed.

(** Reading a bit of a tabulated array. *)
Lemma test_tabulated (g : Z -> Z) (k : Z) :
  0 <= k < storage * W ->
  test (map g (seqZ 0 storage)) k = Some (Z.testbit (g (k / W)) (k mod W)).
Proof.
  intros Hk.
  assert (0 <= k / W < storage) as Hq
    by (split; [apply Z.div_pos; lia | apply Z.div_lt_upper_bound; lia]).
  rewrite test_spec, lookup_map_seqZ by lia. reflexivity.
Qed.

(** A bit the array holds, as a bit of its block. *)
Lemma test_Some_block (a : list Z) (k : Z) (x : bool) :
  Z.of_nat (length a) = storage -> test a k = Some x ->
  0 <= k < storage * W /\ x = Z.testbit (blk a (k / W)) (k mod W).
Proof.
  intros Ha Hx.
  assert (0 <= k) as Hk0.
  { destruct (Z.lt_ge_cases k 0) as [Hneg|]; [|assumption].
    exfalso. unfold bitset.test, bitset.m_block_size, Arr.get in Hx.
    assert (k / W < 0) by (apply Z.div_lt_upper_bound; lia).
    destruct (Z.ltb_spec (k / W) 0); [discriminate | lia]. }
  rewrite test_spec in Hx by lia.
  assert (0 <= k / W) by (apply Z.div_pos; lia).
  destruct (a !! Z.to_nat (k / W)) as [y|] eqn:Hy; [|discriminate].
  pose proof (lookup_lt_Some _ _ _ Hy) as Hlt. cbn in Hx. injection Hx as <-.
  pose proof (Z.div_mod k W ltac:(lia)).
  pose proof (Z.mod_pos_bound k W W_pos).
  split; [nia | now rewrite Hy].
Qed.

End Bitwise.

(** X5.  [operator&], [operator|], [operator^] and [operator-] on two
    bitsets of the same type return, for every bit the storage holds
    (the padding of a partial last block included), the conjunction,
    disjunction, exclusive or and difference of the two operands' bits. *)
Theorem bitwise_operators_bits (W Size : Z) (a b : list Z) :
  0 < W ->
  Z.of_nat (length a) = bitset.m_storage_size W Size ->
  Z.of_nat (length b) = bitset.m_storage_size W Size ->
  exists r_and r_or r_xor r_minus,
    bitset.operator_and W Size a b = Some r_and
    /\ bitset.operator_or W Size a b = Some r_or
    /\ bitset.operator_xor W Size a b = Some r_xor
    /\ bitset.operator_minus W Size a b = Some r_minus
    /\ forall k x y,
         bitset.test W a k = Some x -> bitset.test W b k = Some y ->
         bitset.test W r_and k = Some (x && y)
         /\ bitset.test W r_or k = Some (x || y)
         /\ bitset.test W r_xor k = Some (xorb x y)
         /\ bitset.test W r_minus k = Some (x && negb y).
Proof.
  intros HW Ha Hb.
  unfold bitset.operator_and, bitset.operator_or, bitset.operator_xor,
    bitset.operator_minus.
  rewrite !(blockwise_value W Size) by assumption.
  do 4 eexists. do 4 (split; [reflexivity|]).
  intros k x y Hx Hy.
  destruct (test_Some_block W Size HW a k x Ha Hx) as (Hk & ->).
  destruct (test_Some_block W Size HW b k y Hb Hy) as (_ & ->).
  pose proof (Z.mod_pos_bound k W HW).
  rewrite !(test_tabulated W Size HW) by assumption.
  rewrite !wrap_testbit by lia.
  now rewrite Z.land_spec, Z.lor_spec, Z.lxor_spec, Z.land_spec, Z.lnot_spec
    by lia.
Qed.

Lemma bitwise_operators_bits_witness :
  exists r_and r_or r_xor r_minus,
    bitset.operator_and 8 12 [202; 3] [172; 5] = Some r_and
    /\ bitset.operator_or 8 12 [202; 3] [172; 5] = Some r_or
    /\ bitset.operator_xor 8 12 [202; 3] [172; 5] = Some r_xor
    /\ bitset.operator_minus 8 12 [202; 3] [172; 5] = Some r_minus
    /\ forall k x y,
         bitset.test 8 [202; 3] k = Some x ->
         bitset.test 8 [172; 5] k = Some y ->
         bitset.test 8 r_and k = Some (x && y)
         /\ bitset.test 8 r_or k = Some (x || y)
         /\ bitset.test 8 r_xor k = Some (xorb x y)
         /\ bitset.test 8 r_minus k = Some (x && negb y).
Proof.
  apply (bitwise_operators_bits 8 12 [202; 3] [172; 5]);
    [lia | reflexivity | reflexivity].
Defined.

(** X6.  The compound assignments [operator&=], [operator^=] and
    [operator-=] leave in [m_data] the array the corresponding binary
    operator returns. *)
Theorem compound_assignments_agree (W Size : Z) (a b : list Z) :
  0 < W ->
  Z.of_nat (length a) = bitset.m_storage_size W Size ->
  Z.of_nat (length b) = bitset.m_storage_size W Size ->
  (exists r, bitset.operator_and W Size a b = Some r
             /\ bitset.operator_and_assign W Size a b = Some r)
  /\ (exists r, bitset.operator_xor W Size a b = Some r
                /\ bitset.operator_xor_assign W Size a b = Some r)
  /\ (exists r, bitset.operator_minus W Size a b = Some r
                /\ bitset.operator_minus_assign W Size a b = Some r).
Proof.
  intros HW Ha Hb.
  unfold bitset.operator_and, bitset.operator_xor, bitset.operator_minus,
    bitset.operator_and_assign, bitset.operator_xor_assign,
    bitset.operator_minus_assign.
  rewrite !(blockwise_value W Size), !(blockwise_assign_value W Size)
    by assumption.
  repeat split; eexists; split; reflexivity.
Qed.

Lemma compound_assignments_agree_witness :
  (exists r, bitset.operator_and 8 12 [202; 3] [172; 5] = Some r
             /\ bitset.operator_and_assign 8 12 [202; 3] [172; 5] = Some r)
  /\ (exists r, bitset.operator_xor 8 12 [202; 3] [172; 5] = Some r
                /\ bitset.operator_xor_assign 8 12 [202; 3] [172; 5] = Some r)
  /\ (exists r, bitset.operator_minus 8 12 [202; 3] [172; 5] = Some r
                /\ bitset.operator_minus_assign 8 12 [202; 3] [172; 5]
                   = Some r).
Proof.
  apply (compound_assignments_agree 8 12 [202; 3] [172; 5]);
    [lia | reflexivity | reflexivity].
Defined.

(** X7.  [operator~] and [flip()] compute the same array: every bit the
    storage holds is negated, the padding of a partial last block
    included; and complementing twice gives back a well-formed array. *)
Theorem complement_bits (W Size : Z) (a : list Z) :
  0 < W ->
  Z.of_nat (length a) = bitset.m_storage_size W Size ->
  Forall (Block.in_range W) a ->
  exists r,
    bitset.operator_not W Size a = Some r
    /\ bitset.flip_all W Size a = Some r
    /\ (forall k x, bitset.test W a k = Some x ->
          bitset.test W r k = Some (negb x))
    /\ bitset.operator_not W Size r = Some a
    /\ bitset.flip_all W Size r = Some a.
Proof.
  intros HW Ha Hwf.
  rewrite (operator_not_value W Size), (flip_all_value W Size) by assumption.
  eexists. do 2 (split; [reflexivity|]).
  split.
  - intros k x Hx.
    destruct (test_Some_block W Size HW a k x Ha Hx) as (Hk & ->).
    pose proof (Z.mod_pos_bound k W HW).
    rewrite (test_tabulated W Size HW) by assumption.
    now rewrite wrap_testbit, Z.lnot_spec by lia.
  - assert (0 <= bitset.m_storage_size W Size) as Hs by lia.
    rewrite (operator_not_value W Size), (flip_all_value W Size)
      by (rewrite length_map, length_seqZ; lia).
    assert (map (fun k =>
                   Block.wrap W
                     (Z.lnot
                        (default 0
                           (map (fun k0 =>
                                   Block.wrap W
                                     (Z.lnot (default 0 (a !! Z.to_nat k0))))
                                (seqZ 0 (bitset.m_storage_size W Size))
                              !! Z.to_nat k))))
                (seqZ 0 (bitset.m_storage_size W Size)) = a) as ->;
      [|split; reflexivity].
    transitivity (map (fun k => default 0 (a !! Z.to_nat k))
                      (seqZ 0 (bitset.m_storage_size W Size)));
      [|now apply map_lookup_id].
    apply map_seqZ_ext. intros k Hk.
    rewrite lookup_map_seqZ by lia. unfold default. cbn [from_option id].
    destruct (lookup_lt_is_Some_2 a (Z.to_nat k) ltac:(lia)) as [x Hx].
    rewrite Hx. cbn [from_option id].
    pose proof (Forall_lookup_1 _ _ _ _ Hwf Hx) as Hr.
    apply Z.bits_inj'. intros n Hn. destruct (Z.ltb_spec n W).
    + rewrite !wrap_testbit, Z.lnot_spec, wrap_testbit, Z.lnot_spec by lia.
      apply negb_involutive.
    + unfold Block.wrap at 1. rewrite Z.mod_pow2_bits_high by lia.
      symmetry. apply (in_range_high_bits W); [assumption | lia].
Qed.

Lemma complement_bits_witness :
  exists r,
    bitset.operator_not 8 12 [202; 3] = Some r
    /\ bitset.flip_all 8 12 [202; 3] = Some r
    /\ (forall k x, bitset.test 8 [202; 3] k = Some x ->
          bitset.test 8 r k = Some (negb x))
    /\ bitset.operator_not 8 12 r = Some [202; 3]
    /\ bitset.flip_all 8 12 r = Some [202; 3].
Proof.
  apply (complement_bits 8 12 [202; 3]); [lia | reflexivity |].
  repeat constructor; unfold Block.in_range; simpl; lia.
Defined.

(** ** Shifts by any amount *)

(** Quotient and remainder of a bit index given as block and offset. *)
Lemma div_mod_of (W q r n : Z) :
  0 <= r < W -> n = q * W + r -> n / W = q /\ n mod W = r.
Proof.
  intros Hr ->. split.
  - rewrite Z.add_comm, Z.div_add, Z.div_small by lia. lia.
  - rewrite Z.add_comm, Z.mod_add, Z.mod_small by lia. lia.
Qed.

Lemma shift_count_ok (W k : Z) :
  0 <= k < W -> (0 <=? k) && (k <? Z.max W 32) = true.
Proof. intros Hk. rewrite andb_true_iff, Z.leb_le, Z.ltb_lt. lia. Qed.

Section Shifts.

Variables (W Size : Z) (d : list Z).
Hypothesis W_pos : 0 < W.
Hypothesis d_len : Z.of_nat (length d) = bitset.m_storage_size W Size.
Hypothesis d_wf : Forall (Block.in_range W) d.

Local Abbreviation test := (bitset.test W).
Local Abbreviation storage := (bitset.m_storage_size W Size).
Local Abbreviation blk := (bitset.block_or_zero d).

Lemma blk_lookup (k : Z) :
  0 <= k < storage ->
  d !! Z.to_nat k = Some (blk k) /\ Block.in_range W (blk k).
Proof.
  intros Hk. unfold bitset.block_or_zero.
  destruct (lookup_lt_is_Some_2 d (Z.to_nat k) ltac:(lia)) as [x Hx].
  rewrite Hx. split; [reflexivity|].
  exact (Forall_lookup_1 _ _ _ _ d_wf Hx).
Qed.

(** One round of the left-shift loop stores the closed form, whatever
    the destination holds, when it reads the untouched source. *)
Lemma shl_step_value (shift i : Z) (t : list Z) :
  0 <= shift -> 0 <= i < storage -> length t = length d ->
  bitset.shl_step W (shift / W) (shift mod W) d i t
  = Arr.put t i (bitset.shl_block W d shift i).
Proof.
  intros Hs Hi Ht.
  pose proof (Z.mod_pos_bound shift W W_pos) as Hbit.
  assert (0 <= shift / W) as Hbs by (apply Z.div_pos; lia).
  unfold bitset.shl_step, bitset.shl_block, bitset.m_block_size.
  set (bs := shift / W) in *. set (bit := shift mod W) in *.
  assert (exists v,
            (if bs <=? i
             then b ← Arr.get d (i - bs); Block.shl W b bit
             else Some 0) = Some v
            /\ v = (if bs <=? i then Z.shiftl (blk (i - bs)) bit else 0))
    as (v & -> & Ev).
  { destruct (Z.leb_spec bs i); [|now exists 0].
    destruct (blk_lookup (i - bs) ltac:(lia)) as (Hx & _).
    rewrite get_lookup, Hx by lia. cbn [mbind option_bind].
    unfold Block.shl. rewrite shift_count_ok by lia. now eexists. }
  rewrite <- Ev. cbn [mbind option_bind].
  rewrite !put_in_range by lia. cbn [mbind option_bind].
  destruct ((0 <? bit) && (bs + 1 <=? i)) eqn:Hc; [|reflexivity].
  apply andb_true_iff in Hc. destruct Hc as [Hb Hq].
  apply Z.ltb_lt in Hb. apply Z.leb_le in Hq.
  destruct (blk_lookup (i - bs - 1) ltac:(lia)) as (Hy & _).
  rewrite get_lookup, Hy by lia. cbn [mbind option_bind].
  unfold Block.shr. rewrite shift_count_ok by lia.
  cbn [mbind option_bind].
  rewrite (upd_in_range _ i (Block.wrap W v))
    by (try lia; apply list_lookup_insert_eq; lia).
  now rewrite list_insert_insert_eq.
Qed.

Lemma operator_shl_value (shift : Z) :
  0 <= shift ->
  bitset.operator_shl W Size d shift
  = Some (map (bitset.shl_block W d shift) (seqZ 0 storage)).
Proof.
  intros Hs. unfold bitset.operator_shl, bitset.m_block_size.
  apply tabulate_loop; [now rewrite (zero_data_length W Size d d_len)|].
  intros i t Hi Ht _. apply shl_step_value; [lia | lia |].
  rewrite Ht. unfold bitset.zero_data. rewrite length_replicate. lia.
Qed.

(** The bits of the closed form: bit [j] of block [i] is bit
    [i * W + j - shift] of the source, or clear below [shift]. *)
Lemma shl_block_bit (shift i j : Z) :
  0 <= shift -> 0 <= i < storage -> 0 <= j < W ->
  Some (Z.testbit (bitset.shl_block W d shift i) j)
  = if i * W + j <? shift then Some false
    else test d (i * W + j - shift).
Proof.
  intros Hs Hi Hj.
  pose proof (Z.mod_pos_bound shift W W_pos) as Hbit.
  pose proof (Z.div_mod shift W ltac:(lia)) as Eshift.
  assert (0 <= shift / W) as Hbs by (apply Z.div_pos; lia).
  unfold bitset.shl_block.
  set (bs := shift / W) in *. set (bit := shift mod W) in *.
  assert (forall q r, 0 <= q < storage -> 0 <= r < W ->
            test d (q * W + r) = Some (Z.testbit (blk q) r)) as Hread.
  { intros q r Hq Hr. destruct (blk_lookup q Hq) as (Hx & _).
    apply (test_block_bit W d W_pos); [lia | lia | exact Hx]. }
  assert (forall q r, 0 <= q < storage -> W <= r ->
            Z.testbit (blk q) r = false) as Hhigh.
  { intros q r Hq Hr. destruct (blk_lookup q Hq) as (_ & Hx).
    apply (in_range_high_bits W); [exact Hx | lia]. }
  destruct (Z.ltb_spec (i * W + j) shift) as [Hlow|Hge].
  - (* below the shift: the bit is clear *)
    f_equal.
    destruct (Z.leb_spec bs i) as [Hq|Hq].
    + assert (i = bs /\ j < bit) as [-> Hjb] by nia.
      destruct (Z.leb_spec (bs + 1) bs); [lia|]. rewrite andb_false_r.
      rewrite wrap_testbit by lia. apply Z.shiftl_spec_low. lia.
    + destruct (Z.leb_spec (bs + 1) i); [lia|]. rewrite andb_false_r.
      rewrite wrap_testbit by lia. apply Z.bits_0.
  - assert (bs <= i) as Hq by nia.
    destruct (Z.leb_spec bs i); [|lia].
    destruct (Z.lt_ge_cases j bit) as [Hjb|Hjb].
    + (* carried over from the block below *)
      assert (bs + 1 <= i) by nia.
      destruct (Z.ltb_spec 0 bit); [|lia].
      destruct (Z.leb_spec (bs + 1) i); [|lia]. cbn [andb].
      replace (i * W + j - shift)
        with ((i - bs - 1) * W + (j + W - bit)) by lia.
      rewrite Hread by lia. f_equal.
      rewrite wrap_testbit, Z.lor_spec, wrap_testbit by lia.
      rewrite Z.shiftl_spec_low by lia. cbn [orb].
      rewrite Z.shiftr_spec by lia. f_equal. lia.
    + replace (i * W + j - shift) with ((i - bs) * W + (j - bit)) by lia.
      rewrite Hread by lia. f_equal.
      destruct ((0 <? bit) && (bs + 1 <=? i)) eqn:Hc.
      * apply andb_true_iff in Hc. destruct Hc as [Hb Hq'].
        apply Z.ltb_lt in Hb. apply Z.leb_le in Hq'.
        rewrite wrap_testbit, Z.lor_spec, wrap_testbit by lia.
        rewrite Z.shiftl_spec, Z.shiftr_spec by lia.
        rewrite (Hhigh (i - bs - 1)) by lia. apply orb_false_r.
      * rewrite wrap_testbit by lia. now rewrite Z.shiftl_spec by lia.
Qed.

(** The same for the right shift.  The block indices [i + block_shift]
    do not leave the range of [size_type]. *)
Lemma shr_step_value (shift i : Z) (t : list Z) :
  0 <= shift -> storage + shift / W + 1 < 2 ^ 64 ->
  0 <= i < storage -> length t = length d ->
  bitset.shr_step W Size (shift / W) (shift mod W) d i t
  = Arr.put t i (bitset.shr_block W Size d shift i).
Proof.
  intros Hs Hfit Hi Ht.
  pose proof (Z.mod_pos_bound shift W W_pos) as Hbit.
  assert (0 <= shift / W) as Hbs by (apply Z.div_pos; lia).
  unfold bitset.shr_step, bitset.shr_block, bitset.m_block_size.
  set (bs := shift / W) in *. set (bit := shift mod W) in *.
  rewrite (wrap_small 64 (i + bs)), (wrap_small 64 (i + bs + 1)) by lia.
  assert (exists v,
            (if i + bs <? storage
             then b ← Arr.get d (i + bs); Block.shr W b bit
             else Some 0) = Some v
            /\ v = (if i + bs <? storage
                    then Z.shiftr (blk (i + bs)) bit else 0))
    as (v & -> & Ev).
  { destruct (Z.ltb_spec (i + bs) storage); [|now exists 0].
    destruct (blk_lookup (i + bs) ltac:(lia)) as (Hx & _).
    rewrite get_lookup, Hx by lia. cbn [mbind option_bind].
    unfold Block.shr. rewrite shift_count_ok by lia. now eexists. }
  rewrite <- Ev. cbn [mbind option_bind].
  rewrite !put_in_range by lia. cbn [mbind option_bind].
  destruct ((0 <? bit) && (i + bs + 1 <? storage)) eqn:Hc; [|reflexivity].
  apply andb_true_iff in Hc. destruct Hc as [Hb Hq].
  apply Z.ltb_lt in Hb. apply Z.ltb_lt in Hq.
  destruct (blk_lookup (i + bs + 1) ltac:(lia)) as (Hy & _).
  rewrite get_lookup, Hy by lia. cbn [mbind option_bind].
  unfold Block.shl. rewrite shift_count_ok by lia.
  cbn [mbind option_bind].
  rewrite (upd_in_range _ i (Block.wrap W v))
    by (try lia; apply list_lookup_insert_eq; lia).
  now rewrite list_insert_insert_eq.
Qed.

Lemma operator_shr_value (shift : Z) :
  0 <= shift -> storage + shift / W + 1 < 2 ^ 64 ->
  bitset.operator_shr W Size d shift
  = Some (map (bitset.shr_block W Size d shift) (seqZ 0 storage)).
Proof.
  intros Hs Hfit. unfold bitset.operator_shr, bitset.m_block_size.
  apply tabulate_loop; [now rewrite (zero_data_length W Size d d_len)|].
  intros i t Hi Ht _. apply shr_step_value; [lia | lia | lia |].
  rewrite Ht. unfold bitset.zero_data. rewrite length_replicate. lia.
Qed.

Lemma shr_block_bit (shift i j : Z) :
  0 <= shift -> 0 <= i < storage -> 0 <= j < W ->
  Some (Z.testbit (bitset.shr_block W Size d shift i) j)
  = if i * W + j + shift <? storage * W
    then test d (i * W + j + shift) else Some false.
Proof.
  intros Hs Hi Hj.
  pose proof (Z.mod_pos_bound shift W W_pos) as Hbit.
  pose proof (Z.div_mod shift W ltac:(lia)) as Eshift.
  assert (0 <= shift / W) as Hbs by (apply Z.div_pos; lia).
  unfold bitset.shr_block.
  set (bs := shift / W) in *. set (bit := shift mod W) in *.
  assert (forall q r, 0 <= q < storage -> 0 <= r < W ->
            test d (q * W + r) = Some (Z.testbit (blk q) r)) as Hread.
  { intros q r Hq Hr. destruct (blk_lookup q Hq) as (Hx & _).
    apply (test_block_bit W d W_pos); [lia | lia | exact Hx]. }
  assert (forall q r, 0 <= q < storage -> W <= r ->
            Z.testbit (blk q) r = false) as Hhigh.
  { intros q r Hq Hr. destruct (blk_lookup q Hq) as (_ & Hx).
    apply (in_range_high_bits W); [exact Hx | lia]. }
  destruct (Z.lt_ge_cases (j + bit) W) as [Hjb|Hjb].
  - (* the bit comes from block i + bs *)
    assert ((i * W + j + shift <? storage * W) = (i + bs <? storage)) as ->.
    { destruct (Z.ltb_spec (i * W + j + shift) (storage * W)),
               (Z.ltb_spec (i + bs) storage); try reflexivity; nia. }
    destruct (Z.ltb_spec (i + bs) storage) as [Hq|Hq].
    + replace (i * W + j + shift) with ((i + bs) * W + (j + bit)) by lia.
      rewrite Hread by lia. f_equal.
      destruct ((0 <? bit) && (i + bs + 1 <? storage)) eqn:Hc.
      * apply andb_true_iff in Hc. destruct Hc as [Hb Hq'].
        apply Z.ltb_lt in Hb. apply Z.ltb_lt in Hq'.
        rewrite wrap_testbit, Z.lor_spec, wrap_testbit by lia.
        rewrite Z.shiftr_spec by lia.
        rewrite Z.shiftl_spec_low by lia. apply orb_false_r.
      * rewrite wrap_testbit by lia. now rewrite Z.shiftr_spec by lia.
    + f_equal.
      destruct (Z.ltb_spec (i + bs + 1) storage); [lia|].
      rewrite andb_false_r. rewrite wrap_testbit by lia. apply Z.bits_0.
  - (* the bit comes from block i + bs + 1 *)
    assert (0 < bit) by lia.
    destruct (Z.ltb_spec 0 bit); [|lia]. cbn [andb].
    assert ((i * W + j + shift <? storage * W) = (i + bs + 1 <? storage))
      as ->.
    { destruct (Z.ltb_spec (i * W + j + shift) (storage * W)),
               (Z.ltb_spec (i + bs + 1) storage); try reflexivity; nia. }
    destruct (Z.ltb_spec (i + bs + 1) storage) as [Hq|Hq].
    + replace (i * W + j + shift)
        with ((i + bs + 1) * W + (j + bit - W)) by lia.
      rewrite Hread by lia. f_equal.
      rewrite wrap_testbit, Z.lor_spec, wrap_testbit by lia.
      destruct (Z.ltb_spec (i + bs) storage); [|lia].
      rewrite Z.shiftr_spec by lia.
      rewrite (Hhigh (i + bs)) by lia. cbn [orb].
      rewrite Z.shiftl_spec by lia. f_equal. lia.
    + f_equal. rewrite wrap_testbit by lia.
      destruct (Z.ltb_spec (i + bs) storage) as [Hq'|Hq'].
      * rewrite Z.shiftr_spec by lia. apply Hhigh; lia.
      * apply Z.bits_0.
Qed.


End Shifts.

(** With a supported block width, block indices computed from
    [size_type] values stay in the range of [size_type]. *)
Lemma block_index_fits (W Size shift : Z) :
  Block.width_ok W -> 0 <= Size < 2 ^ 64 -> 0 <= shift < 2 ^ 64 ->
  0 <= bitset.m_storage_size W Size
  /\ bitset.m_storage_size W Size + shift / W + 1 < 2 ^ 64
  /\ bitset.m_storage_size W Size * Arr.sizeof W < 2 ^ 64.
Proof.
  intros HW HS Hs. destruct (width_ok_facts W HW) as (HW8 & Hsz & Hpos).
  unfold bitset.m_storage_size, bitset.m_partial_size, bitset.m_block_size.
  assert (0 <= Size / W) by (apply Z.div_pos; lia).
  assert (Size / W <= Size / 8)
    by (apply Z.div_le_compat_l; lia).
  assert (shift / W <= shift / 8)
    by (apply Z.div_le_compat_l; lia).
  assert (Size / 8 < 2 ^ 61)
    by (apply Z.div_lt_upper_bound; [lia | change (8 * 2 ^ 61) with (2 ^ 64); lia]).
  assert (shift / 8 < 2 ^ 61)
    by (apply Z.div_lt_upper_bound; [lia | change (8 * 2 ^ 61) with (2 ^ 64); lia]).
  pose proof (Z.mul_div_le Size W ltac:(lia)).
  change (2 ^ 61) with 2305843009213693952 in *.
  change (2 ^ 64) with 18446744073709551616 in *.
  destruct (Size mod W =? 0); repeat split; nia.
Qed.

(** X8.  [operator<<(shift)] moves every bit up by [shift] positions:
    in the result, bit [k] of the storage is bit [k - shift] of the
    operand, and the bits below [shift] are clear.  This holds for every
    shift amount, whole blocks or not. *)
Theorem operator_shl_moves_bits (W Size : Z) (d : list Z) (shift : Z) :
  0 < W ->
  Z.of_nat (length d) = bitset.m_storage_size W Size ->
  Forall (Block.in_range W) d ->
  0 <= shift ->
  exists r,
    bitset.operator_shl W Size d shift = Some r
    /\ length r = length d
    /\ forall k, 0 <= k < bitset.m_storage_size W Size * W ->
         bitset.test W r k
         = if k <? shift then Some false else bitset.test W d (k - shift).
Proof.
  intros HW Hlen Hwf Hs.
  rewrite (operator_shl_value W Size d HW Hlen Hwf) by assumption.
  eexists. split; [reflexivity|].
  split; [rewrite length_map, length_seqZ; lia|].
  intros k Hk.
  pose proof (Z.mod_pos_bound k W HW).
  pose proof (Z.div_mod k W ltac:(lia)).
  assert (0 <= k / W < bitset.m_storage_size W Size)
    by (split; [apply Z.div_pos; lia | apply Z.div_lt_upper_bound; lia]).
  rewrite (test_tabulated W Size HW) by assumption.
  rewrite (shl_block_bit W Size d HW Hlen Hwf) by assumption.
  now replace (k / W * W + k mod W) with k by lia.
Qed.

Lemma operator_shl_moves_bits_witness :
  exists r,
    bitset.operator_shl 8 24 [129; 3; 64] 11 = Some r
    /\ length r = length [129; 3; 64]
    /\ forall k, 0 <= k < bitset.m_storage_size 8 24 * 8 ->
         bitset.test 8 r k
         = if k <? 11 then Some false
           else bitset.test 8 [129; 3; 64] (k - 11).
Proof.
  apply (operator_shl_moves_bits 8 24 [129; 3; 64] 11);
    [lia | reflexivity | | lia].
  repeat constructor; unfold Block.in_range; simpl; lia.
Defined.

(** X9.  [operator>>(shift)] moves every bit down by [shift] positions:
    in the result, bit [k] of the storage is bit [k + shift] of the
    operand's storage (the padding of a partial last block included),
    and the bits that have no source are clear. *)
Theorem operator_shr_moves_bits (W Size : Z) (d : list Z) (shift : Z) :
  Block.width_ok W -> 0 <= Size < 2 ^ 64 ->
  Z.of_nat (length d) = bitset.m_storage_size W Size ->
  Forall (Block.in_range W) d ->
  0 <= shift < 2 ^ 64 ->
  exists r,
    bitset.operator_shr W Size d shift = Some r
    /\ length r = length d
    /\ forall k, 0 <= k < bitset.m_storage_size W Size * W ->
         bitset.test W r k
         = if k + shift <? bitset.m_storage_size W Size * W
           then bitset.test W d (k + shift) else Some false.
Proof.
  intros HWok HS Hlen Hwf Hs.
  destruct (width_ok_facts W HWok) as (HW8 & _).
  assert (0 < W) as HW by lia.
  destruct (block_index_fits W Size shift HWok HS Hs) as (_ & Hfit & _).
  rewrite (operator_shr_value W Size d HW Hlen Hwf) by lia.
  eexists. split; [reflexivity|].
  split; [rewrite length_map, length_seqZ; lia|].
  intros k Hk.
  pose proof (Z.mod_pos_bound k W HW).
  pose proof (Z.div_mod k W ltac:(lia)).
  assert (0 <= k / W < bitset.m_storage_size W Size)
    by (split; [apply Z.div_pos; lia | apply Z.div_lt_upper_bound; lia]).
  rewrite (test_tabulated W Size HW) by assumption.
  rewrite (shr_block_bit W Size d HW Hlen Hwf) by lia.
  now replace (k / W * W + k mod W) with k by lia.
Qed.

Lemma operator_shr_moves_bits_witness :
  exists r,
    bitset.operator_shr 8 24 [129; 3; 64] 11 = Some r
    /\ length r = length [129; 3; 64]
    /\ forall k, 0 <= k < bitset.m_storage_size 8 24 * 8 ->
         bitset.test 8 r k
         = if k + 11 <? bitset.m_storage_size 8 24 * 8
           then bitset.test 8 [129; 3; 64] (k + 11) else Some false.
Proof.
  apply (operator_shr_moves_bits 8 24 [129; 3; 64] 11).
  - unfold Block.width_ok, Block.widths. simpl. auto.
  - simpl. lia.
  - reflexivity.
  - repeat constructor; unfold Block.in_range; simpl; lia.
  - simpl. lia.
Defined.



(** ** [swap], [reverse] and [rotate] *)

Section Permute.

Variable W : Z.
Hypothesis W_pos : 0 < W.

Local Abbreviation test := (bitset.test W).

(** A bit whose block is allocated can be read. *)
Lemma test_allocated (d : list Z) (i : Z) :
  0 <= i < Z.of_nat (length d) * W ->
  (Z.to_nat (i / W) < length d)%nat /\ exists v, test d i = Some v.
Proof.
  intros Hi.
  assert (0 <= i / W < Z.of_nat (length d))
    by (split; [apply Z.div_pos; lia | apply Z.div_lt_upper_bound; lia]).
  split; [lia|]. rewrite test_spec by lia.
  destruct (lookup_lt_is_Some_2 d (Z.to_nat (i / W)) ltac:(lia)) as [x ->].
  now eexists.
Qed.

(** [set(i, v)] as a function on the bits. *)
Lemma set_value_bits (d : list Z) (i : Z) (v : bool) :
  0 <= i < Z.of_nat (length d) * W ->
  exists d',
    bitset.set_value W d i v = Some d'
    /\ length d' = length d
    /\ forall k, 0 <= k -> test d' k = if k =? i then Some v else test d k.
Proof.
  intros Hi. destruct (test_allocated d i Hi) as (Hblk & _).
  destruct (single_bit_ops W d i W_pos ltac:(lia) Hblk)
    as (_ & _ & Hset & _).
  destruct (Hset v) as (d' & E & T & Hlen & Hframe).
  exists d'. split; [exact E|]. split; [exact Hlen|]. intros k Hk.
  destruct (Z.eqb_spec k i) as [->|Hne]; [exact T | now apply Hframe].
Qed.

Lemma swap_bits (d : list Z) (i j : Z) :
  0 <= i < Z.of_nat (length d) * W ->
  0 <= j < Z.of_nat (length d) * W ->
  exists d',
    bitset.swap W d i j = Some d'
    /\ length d' = length d
    /\ forall k, 0 <= k ->
         test d' k = if k =? j then test d i
                     else if k =? i then test d j else test d k.
Proof.
  intros Hi Hj.
  destruct (test_allocated d i Hi) as (_ & ti & Hti).
  destruct (test_allocated d j Hj) as (_ & tj & Htj).
  destruct (set_value_bits d i tj Hi) as (d1 & E1 & L1 & T1).
  destruct (set_value_bits d1 j ti ltac:(rewrite L1; exact Hj))
    as (d2 & E2 & L2 & T2).
  exists d2. unfold bitset.swap. rewrite Hti, Htj. cbn [mbind option_bind].
  rewrite E1. cbn [mbind option_bind]. split; [exact E2|].
  split; [congruence|]. intros k Hk. rewrite T2, T1 by assumption.
  destruct (Z.eqb_spec k j); [reflexivity|].
  destruct (Z.eqb_spec k i); reflexivity.
Qed.

End Permute.

Section Reverse.

Variables (W Size : Z) (d : list Z).
Hypothesis W_pos : 0 < W.
Hypothesis Size_range : 0 <= Size < 2 ^ 64.
Hypothesis d_len : Z.of_nat (length d) = bitset.m_storage_size W Size.

Local Abbreviation test := (bitset.test W).

Lemma size_in_storage : Size <= Z.of_nat (length d) * W.
Proof.
  rewrite d_len.
  unfold bitset.m_storage_size, bitset.m_partial_size, bitset.m_block_size.
  pose proof (Z.div_mod Size W ltac:(lia)).
  pose proof (Z.mod_pos_bound Size W W_pos).
  destruct (Z.eqb_spec (Size mod W) 0); nia.
Qed.

Lemma reverse_bits :
  exists d',
    bitset.reverse W Size d = Some d'
    /\ length d' = length d
    /\ forall k, 0 <= k ->
         test d' k = if k <? Size then test d (Size - 1 - k) else test d k.
Proof.
  pose proof size_in_storage as Hfit.
  assert (0 <= Size / 2) as Hhalf by (apply Z.div_pos; lia).
  pose proof (Z.div_mod Size 2 ltac:(lia)) as E2.
  pose proof (Z.mod_pos_bound Size 2 ltac:(lia)) as H2.
  unfold bitset.reverse.
  destruct (iter_range_inv
              (fun i t =>
                 length t = length d
                 /\ forall k, 0 <= k ->
                      test t k
                      = if (k <? i) || ((Size - i <=? k) && (k <? Size))
                        then test d (Size - 1 - k) else test d k)
              (fun i t => bitset.swap W t i (Block.wrap 64 (Size - i - 1)))
              0 (Size / 2) d Hhalf) as (t & E & Hlen & Ht).
  - split; [reflexivity|]. intros k Hk.
    destruct (Z.ltb_spec k 0), (Z.leb_spec (Size - 0) k),
             (Z.ltb_spec k Size); cbn [orb andb]; try reflexivity; lia.
  - intros i t Hi (Hlen & Ht).
    rewrite wrap_small by lia.
    destruct (swap_bits W W_pos t i (Size - i - 1)) as (t' & E & L & T);
      [rewrite Hlen; lia | rewrite Hlen; lia |].
    exists t'. split; [exact E|]. split; [congruence|]. intros k Hk.
    rewrite T by assumption.
    destruct (Z.eqb_spec k (Size - i - 1)) as [->|Hn1].
    + rewrite Ht by lia.
      destruct (Z.ltb_spec i i), (Z.leb_spec (Size - i) i),
               (Z.ltb_spec (Size - i - 1) (i + 1)),
               (Z.leb_spec (Size - (i + 1)) (Size - i - 1)),
               (Z.ltb_spec (Size - i - 1) Size);
        cbn [orb andb]; try lia; try reflexivity; f_equal; lia.
    + destruct (Z.eqb_spec k i) as [->|Hn2].
      * rewrite Ht by lia.
        destruct (Z.ltb_spec (Size - i - 1) i),
                 (Z.leb_spec (Size - i) (Size - i - 1)),
                 (Z.ltb_spec i (i + 1));
          cbn [orb andb]; try lia; try reflexivity; f_equal; lia.
      * rewrite Ht by lia.
        destruct (Z.ltb_spec k i), (Z.ltb_spec k (i + 1)),
                 (Z.leb_spec (Size - i) k),
                 (Z.leb_spec (Size - (i + 1)) k), (Z.ltb_spec k Size);
          cbn [orb andb]; try lia; reflexivity.
  - exists t. split; [exact E|]. split; [exact Hlen|]. intros k Hk.
    rewrite Ht by assumption.
    destruct (Z.ltb_spec k (Size / 2)), (Z.leb_spec (Size - Size / 2) k),
             (Z.ltb_spec k Size); cbn [orb andb]; try lia; try reflexivity.
    f_equal. lia.
Qed.

Lemma copy_of_value (junk : Z -> Z) :
  bitset.copy_of W Size junk d = Some d.
Proof.
  unfold bitset.copy_of, bitset._from_other_same, Arr.copy.
  assert (0 <= bitset.m_storage_size W Size) by lia.
  rewrite length_map, length_seqZ, <- d_len.
  replace ((0 <=? Z.of_nat (length d))
           && (Z.of_nat (length d) <=? Z.of_nat (length d))
           && (Z.of_nat (length d)
               <=? Z.of_nat (Z.to_nat (Z.of_nat (length d)))))
    with true
    by (symmetry; rewrite !andb_true_iff, !Z.leb_le; lia).
  rewrite Nat2Z.id, take_ge, drop_ge, app_nil_r
    by (try rewrite length_map, length_seqZ; lia).
  reflexivity.
Qed.

Lemma rotate_bits (junk : Z -> Z) (shift : Z) :
  exists d',
    bitset.rotate W Size junk d shift = Some d'
    /\ length d' = length d
    /\ forall k, 0 <= k ->
         test d' k = if k <? Size
                     then test d (Block.wrap 64 (k + shift) mod Size)
                     else test d k.
Proof.
  pose proof size_in_storage as Hfit.
  unfold bitset.rotate. rewrite copy_of_value. cbn [mbind option_bind].
  destruct (iter_range_inv
              (fun i t =>
                 length t = length d
                 /\ forall k, 0 <= k ->
                      test t k
                      = if k <? i
                        then test d (Block.wrap 64 (k + shift) mod Size)
                        else test d k)
              (fun i t =>
                 v ← test d (Block.wrap 64 (i + shift) mod Size);
                 bitset.set_value W t i v)
              0 Size d ltac:(lia)) as (t & E & Hlen & Ht).
  - split; [reflexivity|]. intros k Hk.
    destruct (Z.ltb_spec k 0); [lia | reflexivity].
  - intros i t Hi (Hlen & Ht).
    pose proof (Z.mod_pos_bound (Block.wrap 64 (i + shift)) Size ltac:(lia))
      as Hsrc.
    destruct (test_allocated W W_pos d
                (Block.wrap 64 (i + shift) mod Size) ltac:(lia))
      as (_ & v & Hv).
    rewrite Hv. cbn [mbind option_bind].
    destruct (set_value_bits W W_pos t i v ltac:(rewrite Hlen; lia))
      as (t' & E & L & T).
    exists t'. split; [exact E|]. split; [congruence|]. intros k Hk.
    rewrite T by assumption.
    destruct (Z.eqb_spec k i) as [->|Hne].
    + destruct (Z.ltb_spec i (i + 1)); [now rewrite Hv | lia].
    + rewrite Ht by assumption.
      destruct (Z.ltb_spec k i), (Z.ltb_spec k (i + 1));
        try reflexivity; lia.
  - exists t. auto.
Qed.

End Reverse.

(** X11.  [swap(i, j)] on two valid bit indices exchanges the two bits and
    leaves every other bit of the array, and its length, as they were
    (with [i = j] nothing changes). *)
Theorem swap_exchanges_bits (W Size : Z) (d : list Z) (i j : Z) :
  0 < W ->
  Z.of_nat (length d) = bitset.m_storage_size W Size ->
  0 <= i < Size -> 0 <= j < Size ->
  exists d',
    bitset.swap W d i j = Some d'
    /\ length d' = length d
    /\ bitset.test W d' i = bitset.test W d j
    /\ bitset.test W d' j = bitset.test W d i
    /\ forall k, 0 <= k -> k <> i -> k <> j ->
         bitset.test W d' k = bitset.test W d k.
Proof.
  intros HW Hlen Hi Hj.
  pose proof (size_in_storage W Size d HW Hlen) as Hfit.
  destruct (swap_bits W HW d i j ltac:(lia) ltac:(lia)) as (d' & E & L & T).
  exists d'. split; [exact E|]. split; [exact L|].
  split; [|split].
  - rewrite T by lia. destruct (Z.eqb_spec i j) as [->|]; [reflexivity|].
    now rewrite Z.eqb_refl.
  - rewrite T by lia. now rewrite Z.eqb_refl.
  - intros k Hk Hki Hkj. rewrite T by lia.
    destruct (Z.eqb_spec k j); [contradiction|].
    destruct (Z.eqb_spec k i); [contradiction | reflexivity].
Qed.

Lemma swap_exchanges_bits_witness :
  exists d',
    bitset.swap 8 [1; 0] 0 10 = Some d'
    /\ length d' = length [1; 0]
    /\ bitset.test 8 d' 0 = bitset.test 8 [1; 0] 10
    /\ bitset.test 8 d' 10 = bitset.test 8 [1; 0] 0
    /\ forall k, 0 <= k -> k <> 0 -> k <> 10 ->
         bitset.test 8 d' k = bitset.test 8 [1; 0] k.
Proof.
  apply (swap_exchanges_bits 8 12 [1; 0] 0 10);
    [lia | reflexivity | lia | lia].
Defined.

(** X12.  [reverse()] mirrors the valid bits: afterwards bit [k] holds
    what bit [Size - 1 - k] held, for every [k < Size], and the padding
    of a partial last block is untouched; reversing twice restores every
    bit. *)
Theorem reverse_mirrors_bits (W Size : Z) (d : list Z) :
  0 < W -> 0 <= Size < 2 ^ 64 ->
  Z.of_nat (length d) = bitset.m_storage_size W Size ->
  exists d' d'',
    bitset.reverse W Size d = Some d'
    /\ bitset.reverse W Size d' = Some d''
    /\ length d' = length d
    /\ (forall k, 0 <= k < Size ->
          bitset.test W d' k = bitset.test W d (Size - 1 - k))
    /\ (forall k, Size <= k -> bitset.test W d' k = bitset.test W d k)
    /\ (forall k, 0 <= k -> bitset.test W d'' k = bitset.test W d k).
Proof.
  intros HW HS Hlen.
  destruct (reverse_bits W Size d HW HS Hlen) as (d' & E & L & T).
  destruct (reverse_bits W Size d' HW HS ltac:(lia)) as (d'' & E' & L' & T').
  exists d', d''. split; [exact E|]. split; [exact E'|]. split; [exact L|].
  split; [|split].
  - intros k Hk. rewrite T by lia.
    destruct (Z.ltb_spec k Size); [reflexivity | lia].
  - intros k Hk. rewrite T by lia.
    destruct (Z.ltb_spec k Size); [lia | reflexivity].
  - intros k Hk. rewrite T' by lia.
    destruct (Z.ltb_spec k Size); [|rewrite T by lia;
      destruct (Z.ltb_spec k Size); [lia | reflexivity]].
    rewrite T by lia.
    destruct (Z.ltb_spec (Size - 1 - k) Size); [|lia].
    f_equal. lia.
Qed.

Lemma reverse_mirrors_bits_witness :
  exists d' d'',
    bitset.reverse 8 12 [1; 240] = Some d'
    /\ bitset.reverse 8 12 d' = Some d''
    /\ length d' = length [1; 240]
    /\ (forall k, 0 <= k < 12 ->
          bitset.test 8 d' k = bitset.test 8 [1; 240] (12 - 1 - k))
    /\ (forall k, 12 <= k -> bitset.test 8 d' k = bitset.test 8 [1; 240] k)
    /\ (forall k, 0 <= k -> bitset.test 8 d'' k = bitset.test 8 [1; 240] k).
Proof.
  apply (reverse_mirrors_bits 8 12 [1; 240]);
    [lia | simpl; lia | reflexivity].
Defined.

(** X13.  [rotate(shift)] gives bit [k] the value bit
    [(k + shift) % Size] had on entry, the sum being taken in
    [size_type], for every [k < Size]; the padding of a partial last
    block is untouched. *)
Theorem rotate_moves_bits (W Size : Z) (junk : Z -> Z) (d : list Z)
    (shift : Z) :
  0 < W -> 0 <= Size < 2 ^ 64 ->
  Z.of_nat (length d) = bitset.m_storage_size W Size ->
  exists d',
    bitset.rotate W Size junk d shift = Some d'
    /\ length d' = length d
    /\ (forall k, 0 <= k < Size ->
          bitset.test W d' k
          = bitset.test W d (Block.wrap 64 (k + shift) mod Size))
    /\ (forall k, Size <= k -> bitset.test W d' k = bitset.test W d k).
Proof.
  intros HW HS Hlen.
  destruct (rotate_bits W Size d HW HS Hlen junk shift) as (d' & E & L & T).
  exists d'. split; [exact E|]. split; [exact L|]. split.
  - intros k Hk. rewrite T by lia.
    destruct (Z.ltb_spec k Size); [reflexivity | lia].
  - intros k Hk. rewrite T by lia.
    destruct (Z.ltb_spec k Size); [lia | reflexivity].
Qed.

Lemma rotate_moves_bits_witness :
  exists d',
    bitset.rotate 8 12 (fun _ => 85) [1; 240] 5 = Some d'
    /\ length d' = length [1; 240]
    /\ (forall k, 0 <= k < 12 ->
          bitset.test 8 d' k
          = bitset.test 8 [1; 240] (Block.wrap 64 (k + 5) mod 12))
    /\ (forall k, 12 <= k -> bitset.test 8 d' k = bitset.test 8 [1; 240] k).
Proof.
  apply (rotate_moves_bits 8 12 (fun _ => 85) [1; 240] 5);
    [lia | simpl; lia | reflexivity].
Defined.

(** ** Conversion from and to integers *)

Lemma sizeof_le_width (W Wt : Z) :
  Block.width_ok W -> Block.width_ok Wt ->
  (Arr.sizeof Wt <=? Arr.sizeof W) = (Wt <=? W).
Proof.
  unfold Block.width_ok, Block.widths. simpl.
  intros [<-|[<-|[<-|[<-|[<-|[]]]]]] [<-|[<-|[<-|[<-|[<-|[]]]]]];
    reflexivity.
Qed.

(** A loop runs its rounds up to [m] and then the rest. *)
Lemma iter_loop_app {S : Type} (body : Z -> S -> option S) (n m : nat) :
  forall (i : Z) (s : S),
    iter_loop (n + m) i body s
    = (s' ← iter_loop n i body s; iter_loop m (i + Z.of_nat n) body s').
Proof.
  induction n as [|n IH]; intros i s.
  - cbn [iter_loop plus mbind option_bind]. now rewrite Z.add_0_r.
  - cbn [iter_loop plus]. destruct (body i s) as [s'|]; [|reflexivity].
    cbn [mbind option_bind]. rewrite IH. do 2 f_equal. lia.
Qed.

Lemma iter_range_split {S : Type} (body : Z -> S -> option S)
    (a m b : Z) (s : S) :
  a <= m <= b ->
  iter_range a b body s
  = (s' ← iter_range a m body s; iter_range m b body s').
Proof.
  intros Hm. unfold iter_range.
  replace (Z.to_nat (b - a)) with (Z.to_nat (m - a) + Z.to_nat (b - m))%nat
    by lia.
  rewrite iter_loop_app.
  destruct (iter_loop (Z.to_nat (m - a)) a body s); [|reflexivity].
  cbn [mbind option_bind]. f_equal. lia.
Qed.

(** A loop whose round [m] fails on every state the earlier rounds can
    leave, fails. *)
Lemma iter_range_fails {S : Type} (P : Z -> S -> Prop)
    (body : Z -> S -> option S) (a m b : Z) (s : S) :
  a <= m < b -> P a s ->
  (forall k t, a <= k < m -> P k t ->
     exists t', body k t = Some t' /\ P (k + 1) t') ->
  (forall t, P m t -> body m t = None) ->
  iter_range a b body s = None.
Proof.
  intros Hm Hs Hbody Hfail. rewrite (iter_range_split body a m b) by lia.
  destruct (iter_range_inv P body a m s ltac:(lia) Hs Hbody)
    as (s' & -> & Ps').
  cbn [mbind option_bind]. unfold iter_range.
  replace (Z.to_nat (b - m)) with (Datatypes.S (Z.to_nat (b - m - 1))) by lia.
  cbn [iter_loop]. now rewrite Hfail.
Qed.

(** The low [n] bits of a number, extended by the next [w] bits. *)
Lemma low_bits_extend (value n w : Z) :
  0 <= n -> 0 < w ->
  Z.lor (value mod 2 ^ n)
        (Z.shiftl (Block.wrap w (Z.shiftr value n)) n)
  = value mod 2 ^ (n + w).
Proof.
  intros Hn Hw. apply Z.bits_inj'. intros k Hk.
  rewrite Z.lor_spec. destruct (Z.ltb_spec k n) as [Hlt|Hge].
  - rewrite !Z.mod_pow2_bits_low by lia.
    rewrite Z.shiftl_spec_low by lia. apply orb_false_r.
  - rewrite Z.mod_pow2_bits_high by lia. cbn [orb].
    rewrite Z.shiftl_spec by lia. unfold Block.wrap.
    destruct (Z.ltb_spec k (n + w)).
    + rewrite !Z.mod_pow2_bits_low by lia.
      rewrite Z.shiftr_spec by lia. f_equal. lia.
    + now rewrite !Z.mod_pow2_bits_high by lia.
Qed.

(** [clear()] on an array of the bitset's size. *)
Lemma clear_all_zeros (W Size : Z) (d : list Z) (ce : bool) :
  Block.width_ok W -> 0 <= Size < 2 ^ 64 ->
  Z.of_nat (length d) = bitset.m_storage_size W Size ->
  bitset.clear_all W Size ce d
  = Some (map (fun _ : Z => 0) (seqZ 0 (bitset.m_storage_size W Size))).
Proof.
  intros HW HS Hlen.
  destruct (block_index_fits W Size 0 HW HS ltac:(simpl; lia))
    as (Hs & _ & Hbytes).
  rewrite (clear_all_value W Size d HW Hlen Hbytes).
  f_equal. rewrite <- replicate_map_seqZ. f_equal. lia.
Qed.

Section Integer.

Variables (W Size Wt : Z) (d : list Z) (value : Z).
Hypothesis W_ok : Block.width_ok W.
Hypothesis Wt_ok : Block.width_ok Wt.
Hypothesis Size_range : 0 <= Size < 2 ^ 64.
Hypothesis d_len : Z.of_nat (length d) = bitset.m_storage_size W Size.
Hypothesis value_range : 0 <= value < 2 ^ Wt.

Local Abbreviation test := (bitset.test W).
Local Abbreviation storage := (bitset.m_storage_size W Size).

(** What [from_integer] leaves in the blocks. *)
Local Abbreviation int_block :=
  (fun k : Z => Block.wrap W (Z.shiftr value (k * W))).

Lemma int_block_past (k : Z) : Wt <= k * W -> int_block k = 0.
Proof.
  intros Hk. destruct (width_ok_facts W W_ok) as (HW8 & _).
  destruct (width_ok_facts Wt Wt_ok) as (HWt8 & _).
  rewrite Z.shiftr_div_pow2 by lia.
  assert (2 ^ Wt <= 2 ^ (k * W)) by (apply Z.pow_le_mono_r; lia).
  rewrite Z.div_small by lia. reflexivity.
Qed.

Lemma from_integer_value (ce : bool) :
  Wt <= storage * W ->
  bitset.from_integer W Size ce Wt d value
  = Some (map int_block (seqZ 0 storage)).
Proof.
  intros Hroom.
  destruct (width_ok_facts W W_ok) as (HW8 & _).
  destruct (width_ok_facts Wt Wt_ok) as (HWt8 & _).
  assert (0 < storage) as Hs by nia.
  unfold bitset.from_integer. rewrite clear_all_zeros by assumption.
  cbn [mbind option_bind].
  rewrite sizeof_le_width by assumption.
  destruct (Z.leb_spec Wt W) as [Hle|Hgt].
  - (* T is no wider than a block *)
    rewrite (upd_in_range _ 0 0) by (try lia; now rewrite lookup_map_seqZ).
    f_equal. rewrite Z.land_0_l, Z.lor_0_l.
    rewrite <- (insert_map_seqZ (fun _ => 0) int_block storage 0).
    + now f_equal.
    + lia.
    + intros k Hk Hne. apply int_block_past. nia.
  - (* T spans several blocks *)
    destruct (widen_facts Wt W Wt_ok W_ok Hgt) as (_ & -> & Hdiff & HdW & _).
    unfold bitset.m_block_size.
    assert (Wt / W <= storage) as Hfit by nia.
    destruct (iter_range_inv
                (fun i t =>
                   t = map (fun k => if k <? i then int_block k else 0)
                           (seqZ 0 storage))
                (fun i t => v ← Block.shr Wt value (i * W);
                            Arr.put t i (Block.wrap W v))
                0 (Wt / W) (map (fun _ : Z => 0) (seqZ 0 storage))
                ltac:(lia)) as (t & E & ->).
    + apply map_seqZ_ext. intros k Hk.
      destruct (Z.ltb_spec k 0); [lia | reflexivity].
    + intros i t Hi ->. unfold Block.shr.
      rewrite shift_count_ok by nia. cbn [mbind option_bind].
      rewrite put_in_range by (rewrite length_map, length_seqZ; lia).
      eexists. split; [reflexivity|].
      rewrite <- (insert_map_seqZ
                    (fun k => if k <? i then int_block k else 0)
                    (fun k => if k <? i + 1 then int_block k else 0)
                    storage i).
      * f_equal. destruct (Z.ltb_spec i (i + 1)); [reflexivity | lia].
      * lia.
      * intros k Hk Hne.
        destruct (Z.ltb_spec k i), (Z.ltb_spec k (i + 1));
          try reflexivity; lia.
    + rewrite E. f_equal. apply map_seqZ_ext. intros k Hk.
      destruct (Z.ltb_spec k (Wt / W)); [reflexivity|].
      symmetry. apply int_block_past. nia.
Qed.

Lemma to_integer_value :
  Wt <= storage * W ->
  bitset.to_integer W Wt (map int_block (seqZ 0 storage)) = Some value.
Proof.
  intros Hroom.
  destruct (width_ok_facts W W_ok) as (HW8 & _).
  destruct (width_ok_facts Wt Wt_ok) as (HWt8 & _).
  assert (0 < storage) as Hs by nia.
  unfold bitset.to_integer.
  rewrite sizeof_le_width by assumption.
  destruct (Z.leb_spec Wt W) as [Hle|Hgt].
  - rewrite get_lookup, lookup_map_seqZ by lia. cbn [mbind option_bind].
    f_equal. rewrite Z.mul_0_l, Z.shiftr_0_r.
    assert (2 ^ Wt <= 2 ^ W) by (apply Z.pow_le_mono_r; lia).
    rewrite (wrap_small W) by lia. apply wrap_small. lia.
  - destruct (widen_facts Wt W Wt_ok W_ok Hgt) as (_ & -> & Hdiff & HdW & _).
    unfold bitset.m_block_size.
    assert (Wt / W <= storage) as Hfit by nia.
    destruct (iter_range_inv
                (fun i r => r = value mod 2 ^ (i * W))
                (fun i result =>
                   x ← Arr.get (map int_block (seqZ 0 storage)) i;
                   v ← Block.shl Wt (Block.wrap Wt x) (i * W);
                   Some (Block.wrap Wt (Z.lor result v)))
                0 (Wt / W) 0 ltac:(lia)) as (r & E & ->).
    + now rewrite Z.mul_0_l, Z.mod_1_r.
    + intros i r Hi ->.
      rewrite get_lookup, lookup_map_seqZ by lia. cbn [mbind option_bind].
      unfold Block.shl. rewrite shift_count_ok by nia.
      cbn [mbind option_bind]. eexists. split; [reflexivity|].
      assert (2 ^ W <= 2 ^ Wt) by (apply Z.pow_le_mono_r; lia).
      assert (0 <= int_block i < 2 ^ W)
        by (apply Z.mod_pos_bound, Z.pow_pos_nonneg; lia).
      rewrite (wrap_small Wt (int_block i)) by lia.
      rewrite low_bits_extend by nia.
      replace (i * W + W) with ((i + 1) * W) by lia.
      apply wrap_small.
      assert (2 ^ ((i + 1) * W) <= 2 ^ Wt) by (apply Z.pow_le_mono_r; nia).
      pose proof (Z.mod_pos_bound value (2 ^ ((i + 1) * W))
                    ltac:(apply Z.pow_pos_nonneg; nia)).
      lia.
    + rewrite E. f_equal. rewrite HdW. apply Z.mod_small. lia.
Qed.

Lemma int_block_bit (k : Z) :
  0 <= k ->
  Z.testbit (int_block (k / W)) (k mod W) = Z.testbit value k.
Proof.
  intros Hk. destruct (width_ok_facts W W_ok) as (HW8 & _).
  pose proof (Z.mod_pos_bound k W ltac:(lia)).
  pose proof (Z.div_mod k W ltac:(lia)).
  assert (0 <= k / W) by (apply Z.div_pos; lia).
  rewrite wrap_testbit, Z.shiftr_spec by lia. f_equal. lia.
Qed.

End Integer.

(** X14.  [from_integer<T>(value)] followed by [to_integer<T>()] returns
    [value], and in between bit [k] of the bitset is bit [k] of the
    integer, for every unsigned type [T] that fits into the storage. *)
Theorem integer_round_trip (W Size Wt : Z) (ce : bool) (d : list Z)
    (value : Z) :
  Block.width_ok W -> Block.width_ok Wt -> 0 <= Size < 2 ^ 64 ->
  Z.of_nat (length d) = bitset.m_storage_size W Size ->
  0 <= value < 2 ^ Wt ->
  Wt <= bitset.m_storage_size W Size * W ->
  exists d',
    bitset.from_integer W Size ce Wt d value = Some d'
    /\ length d' = length d
    /\ (forall k, 0 <= k < bitset.m_storage_size W Size * W ->
          bitset.test W d' k = Some (Z.testbit value k))
    /\ bitset.to_integer W Wt d' = Some value.
Proof.
  intros HW HWt HS Hlen Hv Hroom.
  destruct (width_ok_facts W HW) as (HW8 & _).
  rewrite (from_integer_value W Size Wt d value) by assumption.
  eexists. split; [reflexivity|].
  split; [rewrite length_map, length_seqZ; lia|].
  split.
  - intros k Hk. rewrite (test_tabulated W Size ltac:(lia)) by assumption.
    f_equal. apply int_block_bit; solve [assumption | lia].
  - now apply (to_integer_value W Size Wt).
Qed.

Lemma integer_round_trip_witness :
  exists d',
    bitset.from_integer 8 20 false 16 [255; 255; 255] 51966 = Some d'
    /\ length d' = length [255; 255; 255]
    /\ (forall k, 0 <= k < bitset.m_storage_size 8 20 * 8 ->
          bitset.test 8 d' k = Some (Z.testbit 51966 k))
    /\ bitset.to_integer 8 16 d' = Some 51966.
Proof.
  apply (integer_round_trip 8 20 16 false [255; 255; 255] 51966).
  - unfold Block.width_ok, Block.widths. simpl. auto.
  - unfold Block.width_ok, Block.widths. simpl. auto.
  - simpl. lia.
  - reflexivity.
  - simpl. lia.
  - vm_compute. discriminate.
Defined.

(** X15.  [from_integer<T>] on a bitset whose storage is smaller than [T]
    writes past the end of [m_data]: its behaviour is undefined. *)
Theorem from_integer_without_room (W Size Wt : Z) (ce : bool) (d : list Z)
    (value : Z) :
  Block.width_ok W -> Block.width_ok Wt -> 0 <= Size < 2 ^ 64 ->
  Z.of_nat (length d) = bitset.m_storage_size W Size ->
  bitset.m_storage_size W Size * W < Wt ->
  bitset.from_integer W Size ce Wt d value = None.
Proof.
  intros HW HWt HS Hlen Hroom.
  destruct (width_ok_facts W HW) as (HW8 & _).
  destruct (width_ok_facts Wt HWt) as (HWt8 & _).
  pose proof (storage_nonneg W Size ltac:(lia) ltac:(lia)) as Hs.
  unfold bitset.from_integer.
  rewrite clear_all_zeros by assumption. cbn [mbind option_bind].
  rewrite sizeof_le_width by assumption.
  destruct (Z.leb_spec Wt W) as [Hle|Hgt].
  - assert (bitset.m_storage_size W Size = 0) as -> by nia.
    reflexivity.
  - destruct (widen_facts Wt W HWt HW Hgt) as (_ & -> & Hdiff & HdW & _).
    apply (iter_range_fails
             (fun _ t => Z.of_nat (length t) = bitset.m_storage_size W Size)
             _ 0 (bitset.m_storage_size W Size)).
    + nia.
    + rewrite length_map, length_seqZ. lia.
    + intros k t Hk Ht. unfold Block.shr, bitset.m_block_size.
      rewrite shift_count_ok by nia. cbn [mbind option_bind].
      rewrite put_in_range by lia. eexists. split; [reflexivity|].
      now rewrite length_insert.
    + intros t Ht. unfold Block.shr, bitset.m_block_size.
      rewrite shift_count_ok by nia. cbn [mbind option_bind].
      unfold Arr.put. now rewrite Ht, Z.ltb_irrefl, andb_false_r.
Qed.

Lemma from_integer_without_room_witness :
  bitset.from_integer 8 8 false 32 [0] 305419896 = None.
Proof.
  apply (from_integer_without_room 8 8 32 false [0] 305419896).
  - unfold Block.width_ok, Block.widths. simpl. auto.
  - unfold Block.width_ok, Block.widths. simpl. auto.
  - simpl. lia.
  - reflexivity.
  - vm_compute. reflexivity.
Defined.

(** ** Copying between sizes and converting between block types *)

(** X16.  Copying from a bitset of the same block type and another size
    ([_from_other<OtherSize>], behind the constructor and [operator=])
    takes over the blocks both have and zeroes the rest: every bit of the
    result below the end of the source's storage is the source's bit,
    and every bit above it is clear. *)
Theorem from_other_size_bits (W Size OtherSize : Z) (other d : list Z) :
  0 < W ->
  Z.of_nat (length d) = bitset.m_storage_size W Size ->
  Z.of_nat (length other) = bitset.m_storage_size W OtherSize ->
  exists r,
    bitset._from_other_size W Size OtherSize other d = Some r
    /\ length r = length d
    /\ forall k, 0 <= k < bitset.m_storage_size W Size * W ->
         bitset.test W r k
         = if k <? bitset.m_storage_size W OtherSize * W
           then bitset.test W other k else Some false.
Proof.
  intros HW Hd Ho.
  unfold bitset._from_other_size, bitset.m_block_size.
  change (OtherSize / W + (if OtherSize mod W =? 0 then 0 else 1))
    with (bitset.m_storage_size W OtherSize).
  set (s := bitset.m_storage_size W Size) in *.
  set (os := bitset.m_storage_size W OtherSize) in *.
  assert (0 <= s) by lia. assert (0 <= os) by lia.
  unfold Arr.copy.
  replace ((0 <=? Z.min s os) && (Z.min s os <=? Z.of_nat (length other))
           && (Z.min s os <=? Z.of_nat (length d))) with true
    by (symmetry; rewrite !andb_true_iff, !Z.leb_le; lia).
  cbn [mbind option_bind].
  set (d1 := take (Z.to_nat (Z.min s os)) other
             ++ drop (Z.to_nat (Z.min s os)) d).
  assert (length d1 = length d) as L1.
  { unfold d1. rewrite length_app, length_take, length_drop. lia. }
  destruct (fill_loop 0 d1 (Z.min s os) s) as (r & E & L & T);
    [lia | lia |].
  exists r. split; [exact E|]. split; [congruence|]. intros k Hk.
  assert (0 <= k / W < s) as Hq
    by (split; [apply Z.div_pos; lia | apply Z.div_lt_upper_bound; lia]).
  assert ((k <? os * W) = (k / W <? os)) as ->.
  { pose proof (Z.div_mod k W ltac:(lia)).
    pose proof (Z.mod_pos_bound k W HW).
    destruct (Z.ltb_spec k (os * W)), (Z.ltb_spec (k / W) os);
      try reflexivity; nia. }
  rewrite !test_spec, T, Z2Nat.id by lia.
  destruct (Z.leb_spec (Z.min s os) (k / W)), (Z.ltb_spec (k / W) s),
           (Z.ltb_spec (k / W) os); cbn [andb]; try lia.
  - cbn [fmap option_fmap option_map]. now rewrite Z.bits_0.
  - unfold d1. rewrite lookup_app_l, lookup_take_lt
      by (try rewrite length_take; lia).
    reflexivity.
Qed.

Lemma from_other_size_bits_witness :
  exists r,
    bitset._from_other_size 8 20 12 [170; 15] [1; 2; 3] = Some r
    /\ length r = length [1; 2; 3]
    /\ forall k, 0 <= k < bitset.m_storage_size 8 20 * 8 ->
         bitset.test 8 r k
         = if k <? bitset.m_storage_size 8 12 * 8
           then bitset.test 8 [170; 15] k else Some false.
Proof.
  apply (from_other_size_bits 8 20 12 [170; 15] [1; 2; 3]);
    [lia | reflexivity | reflexivity].
Defined.

Section Narrow.

Variables (W Size Wo OtherSize : Z) (other : list Z).
Hypothesis W_ok : Block.width_ok W.
Hypothesis Wo_ok : Block.width_ok Wo.
Hypothesis wider : W < Wo.
Hypothesis Size_nonneg : 0 <= Size.
Hypothesis other_len :
  Z.of_nat (length other) = bitset.m_storage_size Wo OtherSize.

Local Abbreviation diff := (Wo / W).
Local Abbreviation storage := (bitset.m_storage_size W Size).
Local Abbreviation narrowed := (bitset.narrowed_block W other diff).

(** The array after the rounds up to linear index [L]. *)
Local Abbreviation upto :=
  (fun (L k : Z) =>
     if k <? L
     then Block.wrap W
            (Z.shiftr (bitset.block_or_zero other (k / diff))
                      (k mod diff * W))
     else 0).

Lemma narrow_round_spec (i j : Z) (d : list Z) :
  0 <= i < Z.of_nat (length other) -> 0 <= j < diff ->
  d = map (upto (i * diff + j)) (seqZ 0 storage) ->
  exists r,
    bitset.narrow_round W Size Wo diff other i j d = Some r
    /\ match r with
       | Go d' => d' = map (upto (i * diff + (j + 1))) (seqZ 0 storage)
       | Ret d' => d' = map narrowed (seqZ 0 storage)
       end.
Proof.
  intros Hi Hj ->.
  destruct (widen_facts Wo W Wo_ok W_ok wider) as (_ & _ & Hd & HdW & HW8).
  unfold bitset.narrow_round, bitset.m_block_size.
  destruct (Z.leb_spec storage (i * diff + j)) as [HL|HL].
  - eexists (Ret _). split; [reflexivity|].
    apply map_seqZ_ext. intros k Hk. unfold bitset.narrowed_block.
    destruct (Z.ltb_spec k (i * diff + j)); [|lia].
    destruct (Z.ltb_spec k (Z.of_nat (length other) * diff));
      [reflexivity | nia].
  - assert (0 <= i * diff + j) as Hnn by nia.
    destruct (lookup_lt_is_Some_2 other (Z.to_nat i) ltac:(lia)) as [x Hx].
    rewrite get_lookup, Hx by lia. cbn [mbind option_bind].
    rewrite Z.mod_small by lia.
    unfold Block.shr.
    replace ((0 <=? j * W) && (j * W <? Z.max Wo 32)) with true
      by (symmetry; rewrite andb_true_iff, Z.leb_le, Z.ltb_lt; nia).
    cbn [mbind option_bind].
    rewrite put_in_range by (rewrite length_map, length_seqZ; lia).
    eexists (Go _). split; [reflexivity|].
    rewrite <- (insert_map_seqZ
                  (upto (i * diff + j)) (upto (i * diff + (j + 1)))
                  storage (i * diff + j)).
    + f_equal. destruct (Z.ltb_spec (i * diff + j) (i * diff + (j + 1)));
        [|lia].
      destruct (div_mod_of diff i j (i * diff + j) ltac:(lia) eq_refl)
        as (-> & ->).
      unfold bitset.block_or_zero. now rewrite Hx.
    + lia.
    + intros k Hk Hne.
      destruct (Z.ltb_spec k (i * diff + j)),
               (Z.ltb_spec k (i * diff + (j + 1))); try reflexivity; lia.
Qed.

(** The conversion from wider blocks computes the closed form. *)
Lemma of_other_narrow :
  bitset.of_other W Size Wo OtherSize other
  = Some (map narrowed (seqZ 0 storage)).
Proof.
  destruct (widen_facts Wo W Wo_ok W_ok wider)
    as (Hlt & Hdiff & Hd & HdW & HW8).
  pose proof (storage_nonneg W Size ltac:(lia) Size_nonneg) as Hs.
  unfold bitset.of_other, bitset._from_other.
  replace (Arr.sizeof Wo <? Arr.sizeof W) with false
    by (symmetry; apply Z.ltb_ge; apply Z.ltb_lt in Hlt; lia).
  rewrite Hdiff.
  change (OtherSize / Wo + (if OtherSize mod Wo =? 0 then 0 else 1))
    with (bitset.m_storage_size Wo OtherSize).
  rewrite <- other_len.
  destruct (for_range_inv
              (fun i d => d = map (upto (i * diff)) (seqZ 0 storage))
              (fun d => d = map narrowed (seqZ 0 storage))
              (fun i d =>
                 for_range 0 diff
                   (fun j d => bitset.narrow_round W Size Wo diff other i j d)
                   d)
              0 (Z.of_nat (length other)) (bitset.zero_data W Size)
              ltac:(lia))
    as (r & Er & Pr).
  - unfold bitset.zero_data. rewrite replicate_map_seqZ.
    apply map_seqZ_ext. intros k Hk.
    destruct (Z.ltb_spec k (0 * diff)); [lia | reflexivity].
  - intros i d Hi Hd0.
    destruct (for_range_inv
                (fun j d => d = map (upto (i * diff + j)) (seqZ 0 storage))
                (fun d => d = map narrowed (seqZ 0 storage))
                (fun j d => bitset.narrow_round W Size Wo diff other i j d)
                0 diff d ltac:(lia)) as (r & Er & Pr).
    + now rewrite Z.add_0_r.
    + intros j t Hj Ht. now apply narrow_round_spec.
    + exists r. split; [exact Er|]. destruct r as [d'|d']; [|exact Pr].
      subst d'. now replace ((i + 1) * diff) with (i * diff + diff) by lia.
  - rewrite Er. cbn [fmap option_fmap option_map]. f_equal.
    destruct r as [d|d]; cbn [bitset.leave]; [|exact Pr].
    subst d. apply map_seqZ_ext. intros k Hk. unfold bitset.narrowed_block.
    destruct (Z.ltb_spec k (Z.of_nat (length other) * diff)); reflexivity.
Qed.

(** A bit of the closed form is the bit of the source with the same
    index. *)
Lemma narrowed_bit (k : Z) :
  0 <= k ->
  Some (Z.testbit (narrowed (k / W)) (k mod W))
  = if k <? Z.of_nat (length other) * Wo
    then bitset.test Wo other k else Some false.
Proof.
  intros Hk.
  destruct (widen_facts Wo W Wo_ok W_ok wider) as (_ & _ & Hd & HdW & HW8).
  pose proof (Z.div_mod k W ltac:(lia)) as Ek.
  pose proof (Z.mod_pos_bound k W ltac:(lia)) as Hj.
  assert (0 <= k / W) as Hn by (apply Z.div_pos; lia).
  set (n := k / W) in *. set (j := k mod W) in *.
  pose proof (Z.div_mod n diff ltac:(lia)) as En.
  pose proof (Z.mod_pos_bound n diff ltac:(lia)) as Hm.
  assert (0 <= n / diff) as Hq by (apply Z.div_pos; lia).
  destruct (div_mod_of Wo (n / diff) (n mod diff * W + j) k) as (Eq & Er);
    [nia | nia |].
  unfold bitset.narrowed_block.
  assert ((n <? Z.of_nat (length other) * diff)
          = (k <? Z.of_nat (length other) * Wo)) as ->.
  { destruct (Z.ltb_spec n (Z.of_nat (length other) * diff)),
             (Z.ltb_spec k (Z.of_nat (length other) * Wo));
      try reflexivity; nia. }
  destruct (Z.ltb_spec k (Z.of_nat (length other) * Wo)) as [Hlt|Hge].
  - rewrite test_spec, Eq, Er by lia.
    assert (n / diff < Z.of_nat (length other)) by nia.
    unfold bitset.block_or_zero.
    destruct (lookup_lt_is_Some_2 other (Z.to_nat (n / diff)) ltac:(lia))
      as [x ->].
    cbn [default from_option id fmap option_fmap option_map]. f_equal.
    rewrite wrap_testbit, Z.shiftr_spec by lia. f_equal. lia.
  - now rewrite Z.bits_0.
Qed.

End Narrow.

Section WidenBits.

Variables (W Size Wo OtherSize : Z) (other : list Z).
Hypothesis W_ok : Block.width_ok W.
Hypothesis Wo_ok : Block.width_ok Wo.
Hypothesis narrower : Wo < W.
Hypothesis other_wf : Forall (Block.in_range Wo) other.

Local Abbreviation diff := (W / Wo).

(** A bit of the packing of the design is the bit of the source with
    the same index. *)
Lemma packed_bit (k : Z) :
  0 <= k ->
  Some (Z.testbit (bitset.packed_block Wo other diff (k / W)) (k mod W))
  = if k <? Z.of_nat (length other) * Wo
    then bitset.test Wo other k else Some false.
Proof.
  intros Hk.
  destruct (widen_facts W Wo W_ok Wo_ok narrower) as (_ & _ & Hd & HdW & HWo8).
  pose proof (Z.div_mod k W ltac:(lia)) as Ek.
  pose proof (Z.mod_pos_bound k W ltac:(lia)) as Hr.
  assert (0 <= k / W) as Hi by (apply Z.div_pos; lia).
  set (i := k / W) in *. set (r := k mod W) in *.
  pose proof (Z.div_mod r Wo ltac:(lia)) as Er.
  pose proof (Z.mod_pos_bound r Wo ltac:(lia)) as Hb.
  assert (0 <= r / Wo < diff) as Hj
    by (split; [apply Z.div_pos; lia | apply Z.div_lt_upper_bound; nia]).
  set (j := r / Wo) in *. set (b := r mod Wo) in *.
  destruct (div_mod_of Wo (i * diff + j) b k) as (Eq & Em); [lia | nia |].
  unfold bitset.packed_block.
  replace r with (Z.of_nat (Z.to_nat j) * Wo + b) by lia.
  rewrite pack_blocks_bit
    by (try lia; apply Forall_take, Forall_drop, other_wf).
  rewrite lookup_take_lt, lookup_drop by lia.
  replace (Z.to_nat (i * diff) + Z.to_nat j)%nat
    with (Z.to_nat (i * diff + j)) by nia.
  destruct (Z.ltb_spec k (Z.of_nat (length other) * Wo)) as [Hlt|Hge].
  - rewrite test_spec, Eq, Em by lia.
    assert (i * diff + j < Z.of_nat (length other)) by nia.
    destruct (lookup_lt_is_Some_2 other (Z.to_nat (i * diff + j))
                ltac:(lia)) as [x ->].
    reflexivity.
  - assert (Z.of_nat (length other) <= i * diff + j) by nia.
    now rewrite lookup_ge_None_2 by lia.
Qed.

End WidenBits.

(** X17.  Converting a bitset to another block type keeps every bit at
    its index, whichever of the two block types is the wider: bit [k] of
    the result is bit [k] of the source while [k] lies in the source's
    storage, and clear above it. *)
Theorem conversion_keeps_bit_positions (W Size Wo OtherSize : Z)
    (other : list Z) :
  Block.width_ok W -> Block.width_ok Wo -> Wo <> W -> 0 <= Size ->
  Z.of_nat (length other) = bitset.m_storage_size Wo OtherSize ->
  Forall (Block.in_range Wo) other ->
  exists r,
    bitset.of_other W Size Wo OtherSize other = Some r
    /\ Z.of_nat (length r) = bitset.m_storage_size W Size
    /\ forall k, 0 <= k < bitset.m_storage_size W Size * W ->
         bitset.test W r k
         = if k <? bitset.m_storage_size Wo OtherSize * Wo
           then bitset.test Wo other k else Some false.
Proof.
  intros HW HWo Hne HS Hlen Hwf.
  destruct (width_ok_facts W HW) as (HW8 & _).
  pose proof (storage_nonneg W Size ltac:(lia) HS) as Hs.
  rewrite <- Hlen.
  destruct (Z.lt_total Wo W) as [Hlt|[Heq|Hgt]]; [|contradiction|].
  - rewrite (of_other_widen W Size Wo OtherSize other) by assumption.
    eexists. split; [reflexivity|].
    split; [rewrite length_map, length_seqZ; lia|].
    intros k Hk. rewrite (test_tabulated W Size ltac:(lia)) by assumption.
    now apply packed_bit; try lia.
  - rewrite (of_other_narrow W Size Wo OtherSize other) by assumption.
    eexists. split; [reflexivity|].
    split; [rewrite length_map, length_seqZ; lia|].
    intros k Hk. rewrite (test_tabulated W Size ltac:(lia)) by assumption.
    now apply narrowed_bit; try lia.
Qed.

Lemma conversion_keeps_bit_positions_witness :
  exists r,
    bitset.of_other 8 32 32 32 [3405691582] = Some r
    /\ Z.of_nat (length r) = bitset.m_storage_size 8 32
    /\ forall k, 0 <= k < bitset.m_storage_size 8 32 * 8 ->
         bitset.test 8 r k
         = if k <? bitset.m_storage_size 32 32 * 32
           then bitset.test 32 [3405691582] k else Some false.
Proof.
  apply (conversion_keeps_bit_positions 8 32 32 32 [3405691582]).
  - unfold Block.width_ok, Block.widths. simpl. auto.
  - unfold Block.width_ok, Block.widths. simpl. auto.
  - lia.
  - lia.
  - reflexivity.
  - repeat constructor; unfold Block.in_range; simpl; lia.
Defined.

(** ** Range functions from bit 0 *)

Section BitLoops.

Variable W : Z.
Hypothesis W_pos : 0 < W.

Local Abbreviation test := (bitset.test W).

(** The bit-by-bit loop over bits [a .. b-1] of block [q], for an
    update [f] of the block through a one-bit mask that acts as [g] on
    the masked bit. *)
Lemma bits_loop (f : Z -> Z -> Z) (g : bool -> bool) (t : list Z)
    (q a b : Z) :
  (forall x k j, 0 <= k < W -> 0 <= j < W ->
     Z.testbit (f x (Z.shiftl 1 k)) j
     = if j =? k then g (Z.testbit x j) else Z.testbit x j) ->
  0 <= q < Z.of_nat (length t) -> 0 <= a <= b -> b <= W ->
  exists t',
    iter_range a b
      (fun i t => m ← Block.one_shl W i; Arr.upd t q (fun x => f x m)) t
    = Some t'
    /\ length t' = length t
    /\ forall k, 0 <= k ->
         test t' k = if (q * W + a <=? k) && (k <? q * W + b)
                     then g <$> test t k else test t k.
Proof.
  intros Hf Hq Ha Hb.
  apply (iter_range_inv
           (fun i t' =>
              length t' = length t
              /\ forall k, 0 <= k ->
                   test t' k = if (q * W + a <=? k) && (k <? q * W + i)
                               then g <$> test t k else test t k)).
  - lia.
  - split; [reflexivity|]. intros k Hk.
    destruct (Z.leb_spec (q * W + a) k), (Z.ltb_spec k (q * W + a));
      try reflexivity; lia.
  - intros i t' Hi (Hlen & Ht').
    destruct (div_mod_of W q i (q * W + i) ltac:(lia) eq_refl)
      as (Ediv & Emod).
    destruct (rmw_bit W W_pos f g t' (q * W + i) Hf)
      as (t'' & E & T & Hlen' & Hframe).
    + nia.
    + rewrite Ediv. lia.
    + rewrite Emod, Ediv in E. exists t''. split; [exact E|].
      split; [congruence|]. intros k Hk.
      destruct (Z.eq_dec k (q * W + i)) as [->|Hne].
      * rewrite T, Ht' by nia.
        destruct (Z.leb_spec (q * W + a) (q * W + i)),
                 (Z.ltb_spec (q * W + i) (q * W + i)),
                 (Z.ltb_spec (q * W + i) (q * W + (i + 1)));
          cbn [andb]; try reflexivity; lia.
      * rewrite Hframe, Ht' by assumption.
        destruct (Z.leb_spec (q * W + a) k); [|reflexivity]. cbn [andb].
        destruct (Z.ltb_spec k (q * W + i)), (Z.ltb_spec k (q * W + (i + 1)));
          try reflexivity; lia.
Qed.

(** A bit of an allocated block reads as some value. *)
Lemma test_in_block (t : list Z) (q k : Z) :
  0 <= q < Z.of_nat (length t) -> q * W <= k < q * W + W ->
  exists v, test t k = Some v.
Proof.
  intros Hq Hk.
  apply (test_allocated W W_pos t k). nia.
Qed.

Lemma set_bits_value (v : bool) (t : list Z) (q a b : Z) :
  0 <= q < Z.of_nat (length t) -> 0 <= a <= b -> b <= W ->
  exists t',
    (if v then bitset.set_bits W t q a b else bitset.clear_bits W t q a b)
    = Some t'
    /\ length t' = length t
    /\ forall k, 0 <= k ->
         test t' k = if (q * W + a <=? k) && (k <? q * W + b)
                     then Some v else test t k.
Proof.
  intros Hq Ha Hb.
  assert (exists t',
            (if v then bitset.set_bits W t q a b
             else bitset.clear_bits W t q a b) = Some t'
            /\ length t' = length t
            /\ forall k, 0 <= k ->
                 test t' k = if (q * W + a <=? k) && (k <? q * W + b)
                             then (fun _ => v) <$> test t k else test t k)
    as (t' & E & L & T).
  { destruct v; unfold bitset.set_bits, bitset.clear_bits.
    - apply (bits_loop (fun x m => Block.or_mask W x m) (fun _ => true));
        try assumption.
      intros x k j Hk Hj. rewrite or_mask_bit by lia.
      destruct (j =? k); [apply orb_true_r | apply orb_false_r].
    - apply (bits_loop (fun x m => Block.clear_mask W x m) (fun _ => false));
        try assumption.
      intros x k j Hk Hj. rewrite clear_mask_bit by lia.
      destruct (j =? k); [apply andb_false_r | apply andb_true_r]. }
  exists t'. split; [exact E|]. split; [exact L|]. intros k Hk.
  rewrite T by assumption.
  destruct (Z.leb_spec (q * W + a) k), (Z.ltb_spec k (q * W + b));
    cbn [andb]; try reflexivity.
  destruct (test_in_block t q k Hq ltac:(lia)) as (x & ->). reflexivity.
Qed.

Lemma flip_bits_value (t : list Z) (q a b : Z) :
  0 <= q < Z.of_nat (length t) -> 0 <= a <= b -> b <= W ->
  exists t',
    bitset.flip_bits W t q a b = Some t'
    /\ length t' = length t
    /\ forall k, 0 <= k ->
         test t' k = if (q * W + a <=? k) && (k <? q * W + b)
                     then negb <$> test t k else test t k.
Proof.
  intros Hq Ha Hb. unfold bitset.flip_bits.
  apply (bits_loop (fun x m => Block.xor_mask W x m) negb); try assumption.
  intros x k j Hk Hj. rewrite xor_mask_bit by lia.
  destruct (j =? k), (Z.testbit x j); reflexivity.
Qed.

(** Blocks [0 .. n-1] replaced by a block all of whose bits are [v]. *)
Lemma filled_prefix_bits (v : bool) (x : Z) (t : list Z) (n : Z) :
  (forall j, 0 <= j < W -> Z.testbit x j = v) ->
  0 <= n <= Z.of_nat (length t) ->
  forall k, 0 <= k ->
    test (replicate (Z.to_nat n) x ++ drop (Z.to_nat n) t) k
    = if k <? n * W then Some v else test t k.
Proof.
  intros Hx Hn k Hk.
  pose proof (Z.div_mod k W ltac:(lia)).
  pose proof (Z.mod_pos_bound k W W_pos).
  assert (0 <= k / W) by (apply Z.div_pos; lia).
  rewrite !test_spec by lia.
  destruct (Z.ltb_spec k (n * W)).
  - rewrite lookup_app_l by (rewrite length_replicate; nia).
    rewrite lookup_replicate_2 by nia. cbn. f_equal. apply Hx. lia.
  - rewrite lookup_app_r by (rewrite length_replicate; nia).
    rewrite length_replicate, lookup_drop. do 2 f_equal. nia.
Qed.

End BitLoops.

Lemma fill_byte_bits (W : Z) (v : bool) (j : Z) :
  Block.width_ok W -> 0 <= j < W ->
  Z.testbit (Arr.bytes_rep (Z.to_nat (Arr.sizeof W))
               (Block.wrap 8 (if v then 255 else 0))) j = v.
Proof.
  intros HW Hj. destruct (width_ok_facts W HW) as (HW8 & Hsz & Hpos).
  destruct v.
  - change (Block.wrap 8 255) with 255. rewrite bytes_rep_255.
    replace (8 * Z.of_nat (Z.to_nat (Arr.sizeof W))) with W by lia.
    apply (max_bit W); lia.
  - change (Block.wrap 8 0) with 0. rewrite bytes_rep_zero. apply Z.bits_0.
Qed.

Lemma fill_block_bits (W : Z) (v : bool) (j : Z) :
  0 < W -> 0 <= j < W ->
  Z.testbit (if v then Block.max W else 0) j = v.
Proof.
  intros HW Hj. destruct v; [now apply max_bit | apply Z.bits_0].
Qed.

(** X18.  At run time [fill_range(end, value)], [set_range(end)] and
    [clear_range(end)] give the bits below [end] the value ([true] for
    [set_range], [false] for [clear_range]) and keep every other bit,
    for every supported block width. *)
Theorem fill_range_end_runtime (W : Z) (d : list Z) (end_ : Z)
    (value : bool) :
  Block.width_ok W -> 0 <= end_ <= Z.of_nat (length d) * W ->
  exists r rs rc,
    bitset.fill_range_end W false d end_ value = Some r
    /\ bitset.set_range_end W false d end_ = Some rs
    /\ bitset.clear_range_end W false d end_ = Some rc
    /\ length r = length d /\ length rs = length d /\ length rc = length d
    /\ forall k, 0 <= k ->
         bitset.test W r k
         = (if k <? end_ then Some value else bitset.test W d k)
         /\ bitset.test W rs k
            = (if k <? end_ then Some true else bitset.test W d k)
         /\ bitset.test W rc k
            = (if k <? end_ then Some false else bitset.test W d k).
Proof.
  intros HWok Hend.
  destruct (width_ok_facts W HWok) as (HW8 & Hsz & Hpos).
  assert (0 < W) as HW by lia.
  pose proof (Z.div_mod end_ W ltac:(lia)) as Ee.
  pose proof (Z.mod_pos_bound end_ W HW) as Hre.
  assert (0 <= end_ / W) as Hqe by (apply Z.div_pos; lia).
  assert (end_ / W <= Z.of_nat (length d)) as Hqn by nia.
  assert (end_ mod W <> 0 -> end_ / W < Z.of_nat (length d)) as Hlast by nia.
  (* the common shape of the three functions *)
  assert (forall (v : bool),
            exists r,
              (d1 ← Arr.memset W d 0 (if v then 255 else 0)
                      (end_ / W * Arr.sizeof W);
               if negb (end_ mod W =? 0)
               then if v then bitset.set_bits W d1 (end_ / W) 0 (end_ mod W)
                    else bitset.clear_bits W d1 (end_ / W) 0 (end_ mod W)
               else Some d1) = Some r
              /\ length r = length d
              /\ forall k, 0 <= k ->
                   bitset.test W r k
                   = if k <? end_ then Some v else bitset.test W d k)
    as Hshape.
  { intros v. rewrite memset_whole_blocks by lia.
    cbn [mbind option_bind]. change (Z.to_nat 0) with O. cbn [take app].
    rewrite Z.add_0_l.
    set (d1 := replicate (Z.to_nat (end_ / W)) _ ++ drop _ d).
    assert (length d1 = length d) as L1
      by (unfold d1; rewrite length_app, length_replicate, length_drop; lia).
    assert (forall k, 0 <= k ->
              bitset.test W d1 k
              = if k <? end_ / W * W then Some v else bitset.test W d k)
      as T1.
    { intros k Hk. unfold d1. apply filled_prefix_bits; try lia.
      intros j Hj. now apply fill_byte_bits. }
    destruct (Z.eqb_spec (end_ mod W) 0) as [E0|N0]; cbn [negb].
    - exists d1. split; [reflexivity|]. split; [exact L1|]. intros k Hk.
      rewrite T1 by assumption. now replace (end_ / W * W) with end_ by lia.
    - destruct (set_bits_value W HW v d1 (end_ / W) 0 (end_ mod W))
        as (r & E & L & T); [rewrite L1; lia | lia | lia |].
      exists r. split; [exact E|]. split; [congruence|]. intros k Hk.
      rewrite T, T1 by assumption.
      destruct (Z.leb_spec (end_ / W * W + 0) k),
               (Z.ltb_spec k (end_ / W * W + end_ mod W)),
               (Z.ltb_spec k (end_ / W * W)), (Z.ltb_spec k end_);
        cbn [andb]; try reflexivity; lia. }
  destruct (Hshape value) as (r & E & L & T).
  destruct (Hshape true) as (rs & Es & Ls & Ts).
  destruct (Hshape false) as (rc & Ec & Lc & Tc).
  exists r, rs, rc.
  unfold bitset.fill_range_end, bitset.set_range_end, bitset.clear_range_end,
    bitset.m_block_size.
  split; [destruct value; exact E|]. split; [exact Es|]. split; [exact Ec|].
  repeat (split; [assumption|]). intros k Hk.
  rewrite T, Ts, Tc by assumption. auto.
Qed.

Lemma fill_range_end_runtime_witness :
  exists r rs rc,
    bitset.fill_range_end 16 false [43690; 43690; 43690] 21 false = Some r
    /\ bitset.set_range_end 16 false [43690; 43690; 43690] 21 = Some rs
    /\ bitset.clear_range_end 16 false [43690; 43690; 43690] 21 = Some rc
    /\ length r = length [43690; 43690; 43690]
    /\ length rs = length [43690; 43690; 43690]
    /\ length rc = length [43690; 43690; 43690]
    /\ forall k, 0 <= k ->
         bitset.test 16 r k
         = (if k <? 21 then Some false
            else bitset.test 16 [43690; 43690; 43690] k)
         /\ bitset.test 16 rs k
            = (if k <? 21 then Some true
               else bitset.test 16 [43690; 43690; 43690] k)
         /\ bitset.test 16 rc k
            = (if k <? 21 then Some false
               else bitset.test 16 [43690; 43690; 43690] k).
Proof.
  apply (fill_range_end_runtime 16 [43690; 43690; 43690] 21 false).
  - unfold Block.width_ok, Block.widths. simpl. auto.
  - simpl. lia.
Defined.



(** ** Queries after a whole-container fill *)

Lemma fill_value (W Size : Z) (ce : bool) (d : list Z) (v : bool) :
  Block.width_ok W -> 0 <= Size < 2 ^ 64 ->
  Z.of_nat (length d) = bitset.m_storage_size W Size ->
  bitset.fill W Size ce d v
  = Some (replicate (length d) (if v then Block.max W else 0)).
Proof.
  intros HW HS Hlen.
  destruct (width_ok_facts W HW) as (HW8 & Hsz & Hpos).
  destruct (block_index_fits W Size 0 HW HS ltac:(simpl; lia))
    as (Hs & _ & Hbytes).
  unfold bitset.fill. rewrite <- Hlen in *. destruct ce.
  - apply fill_loop_all.
  - rewrite wrap_small by lia. rewrite memset_whole_blocks by lia.
    rewrite Z.add_0_l, Nat2Z.id, drop_ge, app_nil_r by lia.
    change (Z.to_nat 0) with O. rewrite take_0. cbn [app]. do 2 f_equal.
    destruct v.
    + replace (Block.wrap 8 (Block.max W)) with 255.
      * rewrite bytes_rep_255. unfold Block.max.
        now replace (8 * Z.of_nat (Z.to_nat (Arr.sizeof W))) with W by lia.
      * clear -HW. unfold Block.width_ok, Block.widths in HW. simpl in HW.
        destruct HW as [<-|[<-|[<-|[<-|[<-|[]]]]]]; reflexivity.
    + change (Block.wrap 8 0) with 0. apply bytes_rep_zero.
Qed.

(** X20.  After [fill(v)] on a non-empty bitset, [all()] and [any()]
    return [v] and [none()] returns [!v], whatever the bitset held and
    also when its size is not a multiple of the block width; [set()] and
    [clear()] leave the arrays [fill(true)] and [fill(false)] leave. *)
Theorem queries_after_fill (W Size : Z) (ce : bool) (d : list Z) (v : bool) :
  Block.width_ok W -> 0 < Size < 2 ^ 64 ->
  Z.of_nat (length d) = bitset.m_storage_size W Size ->
  exists d',
    bitset.fill W Size ce d v = Some d'
    /\ bitset.all W Size d' = Some v
    /\ bitset.any W Size d' = Some v
    /\ bitset.none W Size d' = Some (negb v)
    /\ bitset.set_all W Size ce d = bitset.fill W Size ce d true
    /\ bitset.clear_all W Size ce d = bitset.fill W Size ce d false.
Proof.
  intros HW HS Hlen.
  destruct (width_ok_facts W HW) as (HW8 & Hsz & Hpos).
  assert (0 < W) as HWp by lia.
  destruct (block_index_fits W Size 0 HW ltac:(lia) ltac:(simpl; lia))
    as (Hs & _ & Hbytes).
  rewrite !fill_value by (try assumption; lia).
  set (x := if v then Block.max W else 0).
  set (d' := replicate (length d) x).
  assert (Z.of_nat (length d') = bitset.m_storage_size W Size) as Hlen'
    by (unfold d'; rewrite length_replicate; exact Hlen).
  assert (Block.in_range W x) as Hx.
  { unfold x, Block.in_range, Block.max.
    assert (0 < 2 ^ W) by (apply Z.pow_pos_nonneg; lia).
    destruct v; lia. }
  assert (Forall (Block.in_range W) d') as Hwf
    by (unfold d'; apply Forall_replicate, Hx).
  assert (forall i, 0 <= i < Size -> bitset.test W d' i = Some v) as Hbits.
  { intros i Hi.
    pose proof (block_index_in_storage W Size HWp i Hi) as Hq.
    pose proof (Z.mod_pos_bound i W HWp).
    rewrite test_spec by lia. unfold d'.
    rewrite lookup_replicate_2 by lia. cbn. f_equal.
    apply fill_block_bits; lia. }
  exists d'. split; [reflexivity|].
  assert (bitset.any W Size d' = Some v) as Hany.
  { destruct (any_spec W Size d' HWp ltac:(lia) Hlen' Hwf) as (r & E & Hr).
    rewrite E. f_equal. destruct r, v; try reflexivity.
    - destruct Hr as (i & Hi & Ht). rewrite Hbits in Ht by assumption.
      discriminate.
    - specialize (Hr 0 ltac:(lia)). rewrite Hbits in Hr by lia.
      discriminate. }
  split; [|split; [exact Hany|split; [|split]]].
  - destruct (all_spec W Size d' HWp ltac:(lia) Hlen' Hwf) as (r & E & Hr).
    rewrite E. f_equal. destruct r, v; try reflexivity.
    + specialize (Hr 0 ltac:(lia)). rewrite Hbits in Hr by lia.
      discriminate.
    + destruct Hr as (i & Hi & Ht). rewrite Hbits in Ht by assumption.
      discriminate.
  - now rewrite none_not_any, Hany.
  - now rewrite (set_all_value W Size d HW Hlen Hbytes).
  - now rewrite (clear_all_value W Size d HW Hlen Hbytes).
Qed.

Lemma queries_after_fill_witness :
  exists d',
    bitset.fill 8 5 false [0] true = Some d'
    /\ bitset.all 8 5 d' = Some true
    /\ bitset.any 8 5 d' = Some true
    /\ bitset.none 8 5 d' = Some (negb true)
    /\ bitset.set_all 8 5 false [0] = bitset.fill 8 5 false [0] true
    /\ bitset.clear_all 8 5 false [0] = bitset.fill 8 5 false [0] false.
Proof.
  apply (queries_after_fill 8 5 false [0] true).
  - unfold Block.width_ok, Block.widths. simpl. auto.
  - simpl. lia.
  - reflexivity.
Defined.

(** ** [clear_range(begin, end)], compile-time branch *)

Section ClearRange.

Variable W : Z.
Hypothesis W_pos : 0 < W.

Local Abbreviation test := (bitset.test W).

(** The bulk loop over whole blocks [a .. b-1]. *)
Lemma clear_blocks_loop (t : list Z) (a b : Z) :
  0 <= a -> b <= Z.of_nat (length t) ->
  exists t',
    iter_range a b (fun i t => Arr.put t i 0) t = Some t'
    /\ length t' = length t
    /\ forall k, 0 <= k ->
         test t' k = if (a * W <=? k) && (k <? b * W)
                     then Some false else test t k.
Proof.
  intros Ha Hb. destruct (Z.le_gt_cases a b) as [Hab|Hab].
  - destruct (fill_loop 0 t a b) as (t' & E & Hlen & Ht');
      [lia | lia |].
    exists t'. split; [exact E|]. split; [exact Hlen|]. intros k Hk.
    assert (0 <= k mod W < W) by (apply Z.mod_pos_bound; lia).
    assert (0 <= k / W) by (apply Z.div_pos; lia).
    pose proof (Z.div_mod k W ltac:(lia)) as Ek.
    rewrite !test_spec, Ht', Z2Nat.id by lia.
    destruct (Z.leb_spec a (k / W)), (Z.ltb_spec (k / W) b),
             (Z.leb_spec (a * W) k), (Z.ltb_spec k (b * W));
      cbn [andb fmap option_fmap option_map]; try reflexivity;
      try (exfalso; nia).
    now rewrite Z.bits_0.
  - exists t. rewrite iter_range_empty by lia.
    split; [reflexivity|]. split; [reflexivity|]. intros k Hk.
    destruct (Z.leb_spec (a * W) k), (Z.ltb_spec k (b * W));
      cbn [andb]; try reflexivity; exfalso; nia.
Qed.

End ClearRange.

(** X21.  During constant evaluation [clear_range(begin, end)] clears
    the bits of [[begin, end)] and keeps every other bit, except when
    [begin] lies on a block boundary and [end] inside the same block:
    then no loop runs and the bitset is returned as it was. *)
Theorem clear_range_consteval (W : Z) (d : list Z) (begin end_ : Z) :
  0 < W -> 0 <= begin <= end_ -> end_ <= Z.of_nat (length d) * W ->
  exists d',
    bitset.clear_range W true d begin end_ = Some d'
    /\ length d' = length d
    /\ forall k, 0 <= k ->
         bitset.test W d' k
         = if (begin <=? k) && (k <? end_)
              && negb ((begin mod W =? 0) && (begin / W =? end_ / W))
           then Some false else bitset.test W d k.
Proof.
  intros W_pos Hbe Hend.
  pose proof (Z.div_mod begin W ltac:(lia)) as Eb.
  pose proof (Z.div_mod end_ W ltac:(lia)) as Ee.
  pose proof (Z.mod_pos_bound begin W W_pos) as Hrb.
  pose proof (Z.mod_pos_bound end_ W W_pos) as Hre.
  assert (0 <= begin / W) as Hqb by (apply Z.div_pos; lia).
  assert (begin / W <= end_ / W) as Hqq by (apply Z.div_le_mono; lia).
  unfold bitset.clear_range, bitset.m_block_size.
  set (qb := begin / W) in *. set (rb := begin mod W) in *.
  set (qe := end_ / W) in *. set (re := end_ mod W) in *.
  set (n := Z.of_nat (length d)) in *.
  assert (qe <= n) as Hqe by nia.
  assert (re <> 0 -> qe < n) as Hqe' by nia.
  assert (qb < qe -> qb * W + W <= qe * W) as Hmono by nia.
  (* leading block *)
  assert (exists d1,
            (if negb (rb =? 0)
             then bitset.clear_bits W d qb rb (if qb =? qe then re else W)
             else Some d) = Some d1
            /\ length d1 = length d
            /\ forall k, 0 <= k ->
                 bitset.test W d1 k
                 = if negb (rb =? 0) && (begin <=? k)
                      && (k <? (if qb =? qe then end_ else qb * W + W))
                   then Some false else bitset.test W d k)
    as (d1 & E1 & L1 & T1).
  { destruct (Z.eqb_spec rb 0) as [Erb|Nrb]; cbn [negb andb].
    - exists d. auto.
    - destruct (set_bits_value W W_pos false d qb rb
                  (if qb =? qe then re else W))
        as (d1 & E & L & T).
      + fold n. destruct (Z.eqb_spec qb qe); nia.
      + destruct (Z.eqb_spec qb qe); nia.
      + destruct (Z.eqb_spec qb qe); lia.
      + exists d1. split; [exact E|]. split; [exact L|]. intros k Hk.
        rewrite T by lia.
        replace (qb * W + rb) with begin by lia.
        destruct (Z.eqb_spec qb qe) as [Eq|Nq];
          [replace (qb * W + re) with end_ by (rewrite Eq; lia)|];
          reflexivity. }
  rewrite E1. cbn [mbind option_bind].
  (* trailing block *)
  assert (exists d2,
            (if negb (re =? 0) && negb (qb =? qe)
             then bitset.clear_bits W d1 qe 0 re
             else Some d1) = Some d2
            /\ length d2 = length d
            /\ forall k, 0 <= k ->
                 bitset.test W d2 k
                 = if negb (re =? 0) && negb (qb =? qe)
                      && (qe * W <=? k) && (k <? end_)
                   then Some false else bitset.test W d1 k)
    as (d2 & E2 & L2 & T2).
  { destruct (Z.eqb_spec re 0) as [Ere|Nre]; cbn [negb andb].
    - exists d1. auto.
    - destruct (Z.eqb_spec qb qe) as [Eq|Nq]; cbn [negb andb].
      + exists d1. auto.
      + destruct (set_bits_value W W_pos false d1 qe 0 re)
          as (d2 & E & L & T);
          [rewrite L1; fold n; lia | lia | lia |].
        exists d2. split; [exact E|]. split; [congruence|]. intros k Hk.
        rewrite T by lia.
        replace (qe * W + 0) with (qe * W) by lia.
        replace (qe * W + re) with end_ by lia. reflexivity. }
  rewrite E2. cbn [mbind option_bind].
  (* whole blocks *)
  destruct (clear_blocks_loop W W_pos d2
              (qb + (if negb (rb =? 0) then 1 else 0)) qe)
    as (d3 & E3 & L3 & T3).
  { destruct (rb =? 0); cbn [negb]; lia. }
  { rewrite L2. fold n. lia. }
  exists d3. split; [exact E3|]. split; [congruence|]. intros k Hk.
  rewrite T3, T2, T1 by lia. clear E1 E2 E3 T1 T2 T3.
  clearbody qb rb qe re n.
  destruct (Z.eqb_spec rb 0) as [Erb|Nrb], (Z.eqb_spec re 0) as [Ere|Nre],
           (Z.eqb_spec qb qe) as [Eq|Nq]; cbn [negb andb];
    repeat match goal with
           | |- context [?x <=? ?y] => destruct (Z.leb_spec x y)
           | |- context [?x <? ?y] => destruct (Z.ltb_spec x y)
           end; cbn [andb]; try reflexivity; exfalso; nia.
Qed.

Lemma clear_range_consteval_witness :
  exists d',
    bitset.clear_range 8 true [255; 255; 255] 3 21 = Some d'
    /\ length d' = length [255; 255; 255]
    /\ forall k, 0 <= k ->
         bitset.test 8 d' k
         = if (3 <=? k) && (k <? 21)
              && negb ((3 mod 8 =? 0) && (3 / 8 =? 21 / 8))
           then Some false else bitset.test 8 [255; 255; 255] k.
Proof.
  apply (clear_range_consteval 8 [255; 255; 255] 3 21).
  - lia.
  - lia.
  - simpl. lia.
Defined.

(** ** Flipping ranges *)

Section FlipRange.

Variable W : Z.
Hypothesis W_pos : 0 < W.

Local Abbreviation test := (bitset.test W).

(** The loop that complements whole blocks [a .. b-1]. *)
Lemma flip_blocks_loop (t : list Z) (a b : Z) :
  0 <= a -> b <= Z.of_nat (length t) ->
  exists t',
    iter_range a b
      (fun i d => Arr.upd d i (fun x => Block.wrap W (Z.lnot x))) t
    = Some t'
    /\ length t' = length t
    /\ forall k, 0 <= k ->
         test t' k = if (a * W <=? k) && (k <? b * W)
                     then negb <$> test t k else test t k.
Proof.
  intros Ha Hb. destruct (Z.le_gt_cases a b) as [Hab|Hab].
  - apply (iter_range_inv
             (fun i t' =>
                length t' = length t
                /\ forall k, 0 <= k ->
                     test t' k = if (a * W <=? k) && (k <? i * W)
                                 then negb <$> test t k else test t k));
      [lia | |].
    + split; [reflexivity|]. intros k Hk.
      destruct (Z.leb_spec (a * W) k), (Z.ltb_spec k (a * W));
        try reflexivity; lia.
    + intros i t' Hi (Hlen & Ht').
      destruct (lookup_lt_is_Some_2 t' (Z.to_nat i) ltac:(lia)) as [x Hx].
      rewrite (upd_in_range _ i x) by (try lia; exact Hx).
      eexists. split; [reflexivity|].
      split; [now rewrite length_insert|]. intros k Hk.
      pose proof (Z.div_mod k W ltac:(lia)).
      pose proof (Z.mod_pos_bound k W W_pos).
      assert (0 <= k / W) by (apply Z.div_pos; lia).
      destruct (Z.eq_dec (k / W) i) as [Eq|Nq].
      * assert (test t' k = Some (Z.testbit x (k mod W))) as Hold
          by (rewrite test_spec, Eq, Hx by lia; reflexivity).
        rewrite Ht' in Hold by lia.
        rewrite test_spec, Eq, list_lookup_insert_eq by lia.
        cbn [fmap option_fmap option_map].
        rewrite wrap_testbit, Z.lnot_spec by lia.
        assert (i * W <= k < (i + 1) * W) as Hki by nia.
        destruct (Z.leb_spec (a * W) k) as [Hak|Hak]; [|exfalso; nia].
        destruct (Z.ltb_spec k (i * W)); [lia|].
        destruct (Z.ltb_spec k ((i + 1) * W)); [|lia].
        cbn [andb] in *. now rewrite Hold.
      * rewrite test_spec, list_lookup_insert_ne by lia.
        rewrite <- test_spec, Ht' by lia.
        destruct (Z.leb_spec (a * W) k); [|reflexivity]. cbn [andb].
        destruct (Z.ltb_spec k (i * W)), (Z.ltb_spec k ((i + 1) * W));
          try reflexivity; exfalso; nia.
  - exists t. rewrite iter_range_empty by lia.
    split; [reflexivity|]. split; [reflexivity|]. intros k Hk.
    destruct (Z.leb_spec (a * W) k), (Z.ltb_spec k (b * W));
      cbn [andb]; try reflexivity; nia.
Qed.

Lemma negb_twice (x : option bool) : negb <$> (negb <$> x) = x.
Proof. destruct x as [[]|]; reflexivity. Qed.

End FlipRange.

(** X22.  [flip_range(end)] negates the bits below [end] and keeps every
    other bit. *)
Theorem flip_range_end_bits (W : Z) (d : list Z) (end_ : Z) :
  0 < W -> 0 <= end_ <= Z.of_nat (length d) * W ->
  exists r,
    bitset.flip_range_end W d end_ = Some r
    /\ length r = length d
    /\ forall k, 0 <= k ->
         bitset.test W r k
         = if k <? end_ then negb <$> bitset.test W d k
           else bitset.test W d k.
Proof.
  intros HW Hend.
  pose proof (Z.div_mod end_ W ltac:(lia)) as Ee.
  pose proof (Z.mod_pos_bound end_ W HW) as Hre.
  assert (0 <= end_ / W) as Hqe by (apply Z.div_pos; lia).
  assert (end_ / W <= Z.of_nat (length d)) as Hqn by nia.
  unfold bitset.flip_range_end, bitset.m_block_size.
  destruct (flip_blocks_loop W HW d 0 (end_ / W)) as (d1 & E1 & L1 & T1);
    [lia | lia |].
  rewrite E1. cbn [mbind option_bind].
  destruct (Z.eq_dec (end_ mod W) 0) as [E0|N0].
  - rewrite E0. unfold bitset.flip_bits. rewrite iter_range_empty by lia.
    exists d1. split; [reflexivity|]. split; [exact L1|]. intros k Hk.
    rewrite T1 by assumption.
    destruct (Z.leb_spec (0 * W) k), (Z.ltb_spec k (end_ / W * W)),
             (Z.ltb_spec k end_); cbn [andb]; try reflexivity; lia.
  - destruct (flip_bits_value W HW d1 (end_ / W) 0 (end_ mod W))
      as (r & E & L & T); [rewrite L1; nia | lia | lia |].
    exists r. split; [exact E|]. split; [congruence|]. intros k Hk.
    rewrite T, T1 by assumption.
    destruct (Z.leb_spec (end_ / W * W + 0) k),
             (Z.ltb_spec k (end_ / W * W + end_ mod W)),
             (Z.leb_spec (0 * W) k), (Z.ltb_spec k (end_ / W * W)),
             (Z.ltb_spec k end_); cbn [andb]; try reflexivity; lia.
Qed.

Lemma flip_range_end_bits_witness :
  exists r,
    bitset.flip_range_end 8 [170; 170] 11 = Some r
    /\ length r = length [170; 170]
    /\ forall k, 0 <= k ->
         bitset.test 8 r k
         = if k <? 11 then negb <$> bitset.test 8 [170; 170] k
           else bitset.test 8 [170; 170] k.
Proof.
  apply (flip_range_end_bits 8 [170; 170] 11); [lia | simpl; lia].
Defined.

(** X23.  [flip_range(begin, end)] negates exactly the bits of
    [[begin, end)], except when [begin] is not block aligned and [end]
    lies in the same block: then the leading loop runs to the end of the
    block and the trailing loop starts at its first bit, and what is
    negated is every bit of that block outside [[begin, end)]. *)
Theorem flip_range_bits (W : Z) (d : list Z) (begin end_ : Z) :
  0 < W -> 0 <= begin <= end_ -> end_ <= Z.of_nat (length d) * W ->
  exists r,
    bitset.flip_range W d begin end_ = Some r
    /\ length r = length d
    /\ forall k, 0 <= k ->
         bitset.test W r k
         = if (if negb (begin mod W =? 0) && (begin / W =? end_ / W)
               then (begin / W * W <=? k) && (k <? begin)
                    || (end_ <=? k) && (k <? begin / W * W + W)
               else (begin <=? k) && (k <? end_))
           then negb <$> bitset.test W d k else bitset.test W d k.
Proof.
  intros HW Hbe Hend.
  pose proof (Z.div_mod begin W ltac:(lia)) as Eb.
  pose proof (Z.div_mod end_ W ltac:(lia)) as Ee.
  pose proof (Z.mod_pos_bound begin W HW) as Hrb.
  pose proof (Z.mod_pos_bound end_ W HW) as Hre.
  assert (0 <= begin / W) as Hqb by (apply Z.div_pos; lia).
  assert (begin / W <= end_ / W) as Hqq by (apply Z.div_le_mono; lia).
  unfold bitset.flip_range, bitset.m_block_size.
  set (qb := begin / W) in *. set (rb := begin mod W) in *.
  set (qe := end_ / W) in *. set (re := end_ mod W) in *.
  set (n := Z.of_nat (length d)) in *.
  assert (qe <= n) as Hqe by nia.
  assert (re <> 0 -> qe < n) as Hqe' by nia.
  assert (rb <> 0 -> qb < n) as Hqb' by nia.
  assert (qb < qe -> qb * W + W <= qe * W) as Hmono by nia.
  clearbody qb rb qe re.
  (* leading block *)
  assert (exists d1,
            (if negb (rb =? 0) then bitset.flip_bits W d qb rb W
             else Some d) = Some d1
            /\ length d1 = length d
            /\ forall k, 0 <= k ->
                 bitset.test W d1 k
                 = if negb (rb =? 0) && (begin <=? k) && (k <? qb * W + W)
                   then negb <$> bitset.test W d k else bitset.test W d k)
    as (d1 & E1 & L1 & T1).
  { destruct (Z.eqb_spec rb 0) as [Erb|Nrb]; cbn [negb andb].
    - exists d. auto.
    - destruct (flip_bits_value W HW d qb rb W) as (d1 & E & L & T);
        [lia | lia | lia |].
      exists d1. split; [exact E|]. split; [exact L|]. intros k Hk.
      rewrite T by lia. now replace (qb * W + rb) with begin by lia. }
  rewrite E1. cbn [mbind option_bind].
  (* whole blocks *)
  destruct (flip_blocks_loop W HW d1
              (qb + (if negb (rb =? 0) then 1 else 0)) qe)
    as (d2 & E2 & L2 & T2).
  { destruct (rb =? 0); cbn [negb]; lia. }
  { rewrite L1. lia. }
  rewrite E2. cbn [mbind option_bind].
  (* trailing block *)
  assert (exists d3,
            (if negb (re =? 0) then bitset.flip_bits W d2 qe 0 re
             else Some d2) = Some d3
            /\ length d3 = length d
            /\ forall k, 0 <= k ->
                 bitset.test W d3 k
                 = if negb (re =? 0) && (qe * W <=? k) && (k <? end_)
                   then negb <$> bitset.test W d2 k else bitset.test W d2 k)
    as (d3 & E3 & L3 & T3).
  { destruct (Z.eqb_spec re 0) as [Ere|Nre]; cbn [negb andb].
    - exists d2. split; [reflexivity|]. split; [congruence | auto].
    - destruct (flip_bits_value W HW d2 qe 0 re) as (d3 & E & L & T);
        [rewrite L2, L1; lia | lia | lia |].
      exists d3. split; [exact E|]. split; [congruence|]. intros k Hk.
      rewrite T by lia.
      replace (qe * W + 0) with (qe * W) by lia.
      now replace (qe * W + re) with end_ by lia. }
  exists d3. split; [exact E3|]. split; [exact L3|]. intros k Hk.
  rewrite T3, T2, T1 by lia. clear E1 E2 E3 T1 T2 T3.
  destruct (Z.eqb_spec rb 0) as [Erb|Nrb], (Z.eqb_spec re 0) as [Ere|Nre],
           (Z.eqb_spec qb qe) as [Eq|Nq]; cbn [negb andb];
    repeat match goal with
           | |- context [?x <=? ?y] => destruct (Z.leb_spec x y)
           | |- context [?x <? ?y] => destruct (Z.ltb_spec x y)
           end; cbn [andb orb]; rewrite ?negb_twice; try reflexivity;
    exfalso; nia.
Qed.

Lemma flip_range_bits_witness :
  exists r,
    bitset.flip_range 8 [170; 170; 170] 3 5 = Some r
    /\ length r = length [170; 170; 170]
    /\ forall k, 0 <= k ->
         bitset.test 8 r k
         = if (if negb (3 mod 8 =? 0) && (3 / 8 =? 5 / 8)
               then (3 / 8 * 8 <=? k) && (k <? 3)
                    || (5 <=? k) && (k <? 3 / 8 * 8 + 8)
               else (3 <=? k) && (k <? 5))
           then negb <$> bitset.test 8 [170; 170; 170] k
           else bitset.test 8 [170; 170; 170] k.
Proof.
  apply (flip_range_bits 8 [170; 170; 170] 3 5); [lia | lia | simpl; lia].
Defined.

(** ** Strided ranges *)

Section Stride.

Context {S : Type}.

(** Invariant rule for [for (i = begin; i < end; i += step)] with a
    positive step that cannot carry [i] past the range of [size_type]:
    the loop leaves with the invariant at the first index at or past
    [end], provided [fuel] covers the distance. *)
Lemma stride_loop_inv (P : Z -> S -> Prop) (body : Z -> S -> option S)
    (end_ step : Z) :
  0 < step -> end_ + step <= 2 ^ 64 ->
  (forall i t, 0 <= i < end_ -> P i t ->
     exists t', body i t = Some t' /\ P (i + step) t') ->
  forall (fuel : nat) (i : Z) (s : S),
    0 <= i -> (Z.to_nat (end_ - i) <= fuel)%nat -> P i s ->
    exists i' s',
      bitset.stride_loop fuel i end_ step body s = Some s'
      /\ end_ <= i' /\ P i' s'.
Proof.
  intros Hstep Hfit Hbody.
  induction fuel as [|fuel IH]; intros i s Hi Hfuel HP.
  - exists i, s. cbn [bitset.stride_loop].
    destruct (Z.ltb_spec i end_); [lia|]. auto.
  - cbn [bitset.stride_loop]. destruct (Z.ltb_spec i end_) as [Hlt|Hge].
    + destruct (Hbody i s ltac:(lia) HP) as (t & Et & Pt).
      rewrite Et. cbn [mbind option_bind].
      rewrite wrap_small by lia.
      apply IH; [lia | lia | exact Pt].
    + exists i, s. auto.
Qed.

(** With [step == 0] the index never moves: while the body succeeds
    the loop does not leave, whatever the fuel. *)
Lemma stride_loop_stuck (P : S -> Prop) (body : Z -> S -> option S)
    (i end_ : Z) :
  0 <= i < end_ -> i < 2 ^ 64 ->
  (forall t, P t -> exists t', body i t = Some t' /\ P t') ->
  forall (fuel : nat) (s : S),
    P s -> bitset.stride_loop fuel i end_ 0 body s = None.
Proof.
  intros Hi Hfit Hbody.
  induction fuel as [|fuel IH]; intros s HP; cbn [bitset.stride_loop];
    destruct (Z.ltb_spec i end_); try lia; [reflexivity|].
  destruct (Hbody s HP) as (t & -> & Pt). cbn [mbind option_bind].
  rewrite Z.add_0_r, wrap_small by lia. now apply IH.
Qed.

End Stride.

Section StrideBits.

Variables (W : Z) (d : list Z) (begin end_ step : Z).
Hypothesis W_pos : 0 < W.
Hypothesis range_ok : 0 <= begin /\ end_ <= Z.of_nat (length d) * W.

Local Abbreviation test := (bitset.test W).

(** A strided loop over a single-bit update [op] that acts as [g] on
    the bit it addresses. *)
Lemma stride_bits (op : list Z -> Z -> option (list Z)) (g : bool -> bool)
    (fuel : nat) :
  (forall t i, 0 <= i < Z.of_nat (length t) * W ->
     exists t', op t i = Some t'
                /\ test t' i = g <$> test t i
                /\ bitset.only_bit_changed W t t' i) ->
  0 < step -> end_ + step <= 2 ^ 64 ->
  (Z.to_nat (end_ - begin) <= fuel)%nat ->
  exists r,
    bitset.stride_loop fuel begin end_ step (fun i t => op t i) d = Some r
    /\ length r = length d
    /\ forall k, 0 <= k ->
         test r k = if (begin <=? k) && (k <? end_)
                       && ((k - begin) mod step =? 0)
                    then g <$> test d k else test d k.
Proof.
  intros Hop Hstep Hfit Hfuel. destruct range_ok as [Hb He].
  destruct (stride_loop_inv
              (fun i t =>
                 length t = length d /\ (i - begin) mod step = 0
                 /\ begin <= i
                 /\ forall k, 0 <= k ->
                      test t k = if (begin <=? k) && (k <? Z.min i end_)
                                    && ((k - begin) mod step =? 0)
                                 then g <$> test d k else test d k)
              (fun i t => op t i) end_ step Hstep Hfit)
    with (fuel := fuel) (i := begin) (s := d)
    as (i' & r & E & Hi' & L & _ & _ & T).
  - intros i t Hi (L & Hmod & Hbi & T).
    destruct (Hop t i ltac:(rewrite L; lia)) as (t' & E & Ti & L' & Hframe).
    exists t'. split; [exact E|]. split; [congruence|].
    assert ((i + step - begin) mod step = 0) as Hmod'.
    { replace (i + step - begin) with (i - begin + 1 * step) by lia.
      now rewrite Z.mod_add by lia. }
    split; [exact Hmod'|]. split; [lia|]. intros k Hk.
    destruct (Z.eq_dec k i) as [->|Hne].
    + rewrite Ti, T by lia. rewrite Hmod, Z.eqb_refl.
      destruct (Z.leb_spec begin i), (Z.ltb_spec i (Z.min i end_)),
               (Z.ltb_spec i (Z.min (i + step) end_));
        cbn [andb]; try lia; reflexivity.
    + rewrite Hframe, T by assumption.
      destruct (Z.leb_spec begin k); [|reflexivity]. cbn [andb].
      destruct (Z.ltb_spec k (Z.min i end_)),
               (Z.ltb_spec k (Z.min (i + step) end_));
        cbn [andb]; try reflexivity; try lia.
      (* strictly between two strides: not a multiple of the step *)
      destruct (Z.eqb_spec ((k - begin) mod step) 0) as [E0|];
        [|reflexivity].
      exfalso.
      assert (0 < k - i < step) as Hgap by lia.
      assert ((k - i) mod step = 0) as Hdiv.
      { replace (k - i) with ((k - begin) - (i - begin)) by lia.
        rewrite Zminus_mod, E0, Hmod. reflexivity. }
      rewrite Z.mod_small in Hdiv by lia. lia.
  - lia.
  - exact Hfuel.
  - split; [reflexivity|]. split; [now rewrite Z.sub_diag, Z.mod_0_l by lia|].
    split; [lia|]. intros k Hk.
    destruct (Z.leb_spec begin k), (Z.ltb_spec k (Z.min begin end_));
      cbn [andb]; try reflexivity; lia.
  - exists r. split; [exact E|]. split; [exact L|]. intros k Hk.
    rewrite T by assumption. now replace (Z.min i' end_) with end_ by lia.
Qed.

End StrideBits.

(** The single-bit updates in the shape [stride_bits] asks for. *)
Lemma single_bit_shapes (W : Z) :
  0 < W ->
  (forall t i, 0 <= i < Z.of_nat (length t) * W ->
     exists t', bitset.set W t i = Some t'
                /\ bitset.test W t' i = (fun _ => true) <$> bitset.test W t i
                /\ bitset.only_bit_changed W t t' i)
  /\ (forall t i, 0 <= i < Z.of_nat (length t) * W ->
        exists t', bitset.clear W t i = Some t'
                   /\ bitset.test W t' i
                      = (fun _ => false) <$> bitset.test W t i
                   /\ bitset.only_bit_changed W t t' i)
  /\ (forall t i, 0 <= i < Z.of_nat (length t) * W ->
        exists t', bitset.flip W t i = Some t'
                   /\ bitset.test W t' i = negb <$> bitset.test W t i
                   /\ bitset.only_bit_changed W t t' i).
Proof.
  intros HW. repeat split; intros t i Hi;
    destruct (test_allocated W HW t i Hi) as (Hblk & v & Hv);
    destruct (single_bit_ops W t i HW ltac:(lia) Hblk)
      as ((d1 & E1 & T1 & F1) & (d0 & E0 & T0 & F0) & _ & (dx & Ex & Tx & Fx)).
  - exists d1. rewrite Hv. auto.
  - exists d0. rewrite Hv. auto.
  - exists dx. auto.
Qed.

(** X24.  With a positive step, [set_range(begin, end, step)],
    [clear_range(begin, end, step)] and [flip_range(begin, end, step)]
    set, clear and negate exactly the bits [begin + j * step] below
    [end], and keep every other bit. *)
Theorem strided_ranges_bits (W : Z) (d : list Z) (begin end_ step : Z)
    (fuel : nat) :
  0 < W -> 0 <= begin -> end_ <= Z.of_nat (length d) * W ->
  0 < step -> end_ + step <= 2 ^ 64 ->
  (Z.to_nat (end_ - begin) <= fuel)%nat ->
  exists rs rc rf,
    bitset.set_range_step W fuel d begin end_ step = Some rs
    /\ bitset.clear_range_step W fuel d begin end_ step = Some rc
    /\ bitset.flip_range_step W fuel d begin end_ step = Some rf
    /\ forall k, 0 <= k ->
         let hit := (begin <=? k) && (k <? end_)
                    && ((k - begin) mod step =? 0) in
         bitset.test W rs k
         = (if hit then Some true else bitset.test W d k)
         /\ bitset.test W rc k
            = (if hit then Some false else bitset.test W d k)
         /\ bitset.test W rf k
            = (if hit then negb <$> bitset.test W d k
               else bitset.test W d k).
Proof.
  intros HW Hb He Hstep Hfit Hfuel.
  destruct (single_bit_shapes W HW) as (Hset & Hclr & Hflip).
  destruct (stride_bits W d begin end_ step (conj Hb He)
              (bitset.set W) _ fuel Hset Hstep Hfit Hfuel)
    as (rs & Es & _ & Ts).
  destruct (stride_bits W d begin end_ step (conj Hb He)
              (bitset.clear W) _ fuel Hclr Hstep Hfit Hfuel)
    as (rc & Ec & _ & Tc).
  destruct (stride_bits W d begin end_ step (conj Hb He)
              (bitset.flip W) _ fuel Hflip Hstep Hfit Hfuel)
    as (rf & Ef & _ & Tf).
  exists rs, rc, rf.
  split; [exact Es|]. split; [exact Ec|]. split; [exact Ef|].
  intros k Hk. cbv zeta. rewrite Ts, Tc, Tf by assumption.
  destruct (Z.leb_spec begin k), (Z.ltb_spec k end_); cbn [andb]; auto.
  destruct (test_allocated W HW d k ltac:(lia)) as (_ & v & ->).
  destruct ((k - begin) mod step =? 0); auto.
Qed.

Lemma strided_ranges_bits_witness :
  exists rs rc rf,
    bitset.set_range_step 8 20 [0; 0; 0] 2 19 5 = Some rs
    /\ bitset.clear_range_step 8 20 [0; 0; 0] 2 19 5 = Some rc
    /\ bitset.flip_range_step 8 20 [0; 0; 0] 2 19 5 = Some rf
    /\ forall k, 0 <= k ->
         let hit := (2 <=? k) && (k <? 19) && ((k - 2) mod 5 =? 0) in
         bitset.test 8 rs k
         = (if hit then Some true else bitset.test 8 [0; 0; 0] k)
         /\ bitset.test 8 rc k
            = (if hit then Some false else bitset.test 8 [0; 0; 0] k)
         /\ bitset.test 8 rf k
            = (if hit then negb <$> bitset.test 8 [0; 0; 0] k
               else bitset.test 8 [0; 0; 0] k).
Proof.
  apply (strided_ranges_bits 8 [0; 0; 0] 2 19 5 20);
    [lia | lia | simpl; lia | lia | simpl; lia | simpl; lia].
Defined.

(** X25.  With [step == 0] and a non-empty range inside the bitset the
    three strided functions never leave their loop: no amount of fuel
    yields a result. *)
Theorem strided_ranges_step_zero (W : Z) (d : list Z) (begin end_ : Z)
    (fuel : nat) :
  0 < W -> 0 <= begin < end_ -> end_ <= Z.of_nat (length d) * W ->
  end_ <= 2 ^ 64 ->
  bitset.set_range_step W fuel d begin end_ 0 = None
  /\ bitset.clear_range_step W fuel d begin end_ 0 = None
  /\ bitset.flip_range_step W fuel d begin end_ 0 = None.
Proof.
  intros HW Hb He Hfit.
  destruct (single_bit_shapes W HW) as (Hset & Hclr & Hflip).
  unfold bitset.set_range_step, bitset.clear_range_step,
    bitset.flip_range_step.
  repeat split;
    apply (stride_loop_stuck (fun t => length t = length d));
    try lia; try reflexivity; intros t Ht.
  - destruct (Hset t begin ltac:(rewrite Ht; lia)) as (t' & E & _ & L & _).
    exists t'. split; [exact E | congruence].
  - destruct (Hclr t begin ltac:(rewrite Ht; lia)) as (t' & E & _ & L & _).
    exists t'. split; [exact E | congruence].
  - destruct (Hflip t begin ltac:(rewrite Ht; lia)) as (t' & E & _ & L & _).
    exists t'. split; [exact E | congruence].
Qed.

Lemma strided_ranges_step_zero_witness :
  bitset.set_range_step 8 1000 [0; 0] 3 9 0 = None
  /\ bitset.clear_range_step 8 1000 [0; 0] 3 9 0 = None
  /\ bitset.flip_range_step 8 1000 [0; 0] 3 9 0 = None.
Proof.
  apply (strided_ranges_step_zero 8 [0; 0] 3 9 1000);
    [lia | lia | simpl; lia | simpl; lia].
Defined.

(** ** Block-level growth of the resizable container *)







(** ** [insert] away from a block boundary *)

(** Reading a bit of a prefix of the array. *)
Lemma test_take (W : Z) (d : list Z) (n k : Z) :
  0 < W -> 0 <= k < n * W ->
  bitset.test W (take (Z.to_nat n) d) k = bitset.test W d k.
Proof.
  intros HW Hk.
  assert (0 <= k / W < n)
    by (split; [apply Z.div_pos; lia | apply Z.div_lt_upper_bound; lia]).
  rewrite !test_spec by lia. now rewrite lookup_take_lt by lia.
Qed.

Section InsertInsideBlock.

Variables (W : Z) (junk : Z -> Z) (b : dynamic_bitset.t) (d : list Z).
Hypothesis W_ok : Block.width_ok W.

Local Abbreviation size := (dynamic_bitset.m_size b).

Hypothesis data_some : dynamic_bitset.m_data b = Some d.
Hypothesis size_range : 0 <= size /\ size + 1 < 2 ^ 64.
Hypothesis partial_ok : dynamic_bitset.m_partial_size b = size mod W.
Hypothesis storage_ok : dynamic_bitset.m_storage_size b = size / W + 1.
Hypothesis alloc_ok : dynamic_bitset.m_storage_size b <= Z.of_nat (length d).
Hypothesis inside : size mod W <> 0.

(** X28.  [insert(index, value)] below [size()] on a bitset whose size is
    not a multiple of the block width works in place: bit [index]
    becomes [value], the bits from [index] up to the old size move up by
    one position, the bits below [index] stay, [m_size] and
    [m_partial_size] grow by one and [m_storage_size] is unchanged. *)
Lemma insert_inside_block (index : Z) (value : bool) :
  0 <= index < size ->
  exists d',
    dynamic_bitset.insert W junk b index value
    = Some (dynamic_bitset.mk (size mod W + 1) (size / W + 1) (size + 1)
              (Some d'))
    /\ length d' = length d
    /\ forall k, 0 <= k ->
         bitset.test W d' k
         = if k <? index then bitset.test W d k
           else if k =? index then Some value
           else if k <=? size then bitset.test W d (k - 1)
           else bitset.test W d k.
Proof.
  intros Hidx.
  destruct (width_ok_facts W W_ok) as (HW8 & _).
  assert (0 < W) as HW by lia.
  pose proof (Z.mod_pos_bound size W HW) as Hmod.
  pose proof (Z.div_mod size W ltac:(lia)) as Esz.
  assert (0 <= size / W) as Hq by (apply Z.div_pos; lia).
  assert (size + 1 <= (size / W + 1) * W) as Hroom by nia.
  assert ((size / W + 1) * W <= Z.of_nat (length d) * W) as Halloc by nia.
  unfold dynamic_bitset.insert, dynamic_bitset.m_block_size.
  destruct (Z.eqb_spec index size); [lia|].
  destruct (Z.eqb_spec (size mod W) 0) as [|_]; [contradiction|].
  rewrite data_some, storage_ok, partial_ok. cbn [mbind option_bind].
  (* the copy taken before the bits are moved *)
  assert (Arr.copy d (size / W + 1)
            (dynamic_bitset.new_array junk (size / W + 1))
          = Some (take (Z.to_nat (size / W + 1)) d)) as ->.
  { unfold Arr.copy, dynamic_bitset.new_array.
    rewrite length_map, length_seqZ.
    replace ((0 <=? size / W + 1)
             && (size / W + 1 <=? Z.of_nat (length d))
             && (size / W + 1 <=? Z.of_nat (Z.to_nat (size / W + 1))))
      with true
      by (symmetry; rewrite !andb_true_iff, !Z.leb_le; lia).
    rewrite drop_ge, app_nil_r
      by (rewrite length_map, length_seqZ; lia).
    reflexivity. }
  cbn [mbind option_bind].
  destruct (iter_range_inv
              (fun j t =>
                 length t = length d
                 /\ forall k, 0 <= k ->
                      bitset.test W t k
                      = if (index <? k) && (k <=? j)
                        then bitset.test W d (k - 1) else bitset.test W d k)
              (fun i nd =>
                 v ← bitset.test W (take (Z.to_nat (size / W + 1)) d) i;
                 bitset.set_value W nd (i + 1) v)
              index size d ltac:(lia)) as (d1 & E1 & L1 & T1).
  - split; [reflexivity|]. intros k Hk.
    destruct (Z.ltb_spec index k), (Z.leb_spec k index);
      cbn [andb]; try reflexivity; lia.
  - intros i t Hi (L & T).
    rewrite test_take by lia.
    destruct (test_allocated W HW d i ltac:(lia)) as (_ & v & Hv).
    rewrite Hv. cbn [mbind option_bind].
    destruct (set_value_bits W HW t (i + 1) v ltac:(rewrite L; lia))
      as (t' & E & L' & T').
    exists t'. split; [exact E|]. split; [congruence|]. intros k Hk.
    rewrite T' by assumption.
    destruct (Z.eqb_spec k (i + 1)) as [->|Hne].
    + destruct (Z.ltb_spec index (i + 1)), (Z.leb_spec (i + 1) (i + 1));
        cbn [andb]; try lia.
      now replace (i + 1 - 1) with i by lia.
    + rewrite T by assumption.
      destruct (Z.ltb_spec index k); [|reflexivity]. cbn [andb].
      destruct (Z.leb_spec k i), (Z.leb_spec k (i + 1));
        try reflexivity; lia.
  - rewrite E1. cbn [mbind option_bind].
    destruct (set_value_bits W HW d1 index value ltac:(rewrite L1; lia))
      as (d2 & E2 & L2 & T2).
    rewrite E2. cbn [mbind option_bind dynamic_bitset.m_partial_size
      dynamic_bitset.m_storage_size dynamic_bitset.m_size
      dynamic_bitset.m_data].
    rewrite (wrap_small 8) by (change (2 ^ 8) with 256; lia).
    rewrite (wrap_small 64) by lia.
    exists d2. split; [reflexivity|]. split; [congruence|]. intros k Hk.
    rewrite T2, T1 by assumption.
    destruct (Z.ltb_spec k index), (Z.eqb_spec k index),
             (Z.ltb_spec index k), (Z.leb_spec k size);
      cbn [andb]; try reflexivity; lia.
Qed.

End InsertInsideBlock.

(** A concrete consistent state for [insert]: 12 bits in two 8-bit
    blocks. *)
Lemma insert_inside_block_witness :
  exists d',
    dynamic_bitset.insert 8 (fun _ => 85)
      (dynamic_bitset.mk 4 2 12 (Some [129; 10])) 3 true
    = Some (dynamic_bitset.mk (12 mod 8 + 1) (12 / 8 + 1) (12 + 1) (Some d'))
    /\ length d' = length [129; 10]
    /\ forall k, 0 <= k ->
         bitset.test 8 d' k
         = if k <? 3 then bitset.test 8 [129; 10] k
           else if k =? 3 then Some true
           else if k <=? 12 then bitset.test 8 [129; 10] (k - 1)
           else bitset.test 8 [129; 10] k.
Proof.
  apply (insert_inside_block 8 (fun _ => 85)
           (dynamic_bitset.mk 4 2 12 (Some [129; 10])) [129; 10]).
  - unfold Block.width_ok, Block.widths. simpl. auto.
  - reflexivity.
  - simpl. lia.
  - reflexivity.
  - reflexivity.
  - simpl. lia.
  - vm_compute. discriminate.
  - simpl. lia.
Defined.

(** ** [resize] and the bits *)


